(** * scanbadblocks: the pass execution and statistics engine

    A shallow embedding of [src/scanbadblocks.cpp] (class [BlockChecker])
    and the properties of its block geometry, pattern generator, pass
    executor, statistics aggregator and progress reporter.

    Conventions.
    - [size_t] is the 64-bit unsigned type: a value is a [Z] in
      [0, 2^64) and every arithmetic result is reduced by [wrap64].
    - [uint8_t] is a [Z] in [0, 256); a store into a byte reduces by [u8].
    - [std::vector<T>] is a [list T]; [v[i]] outside the vector is
      undefined behaviour and is reported as [Undefined].
    - [double] is kept abstract (class [DoubleOps]): the engine only adds,
      subtracts, multiplies, divides and compares doubles, and the
      properties below rest on the comparison being a strict weak order,
      which IEEE-754 [<] is on the values that are not NaN. *)

From Stdlib Require Import ZArith QArith Lia String Ascii.
From Stdlib Require Import Sorting.Sorted Sorting.Permutation.
From stdpp Require Import base decidable option list.

Open Scope Z_scope.

(** ** Machine integers *)

Definition two64 : Z := 18446744073709551616.

Definition wrap64 (z : Z) : Z := z mod two64.

Definition is_u64 (z : Z) : Prop := 0 ≤ z < two64.

Definition u8 (z : Z) : Z := z mod 256.

(** [std::accumulate] with the [int] initial value [0] keeps its
    accumulator in an [int]: each sum is converted back to 32 bits
    (two's complement). *)
Definition to_int32 (z : Z) : Z := (z + 2147483648) mod 4294967296 - 2147483648.

(** ** Vectors *)

(** [v[i]] as an rvalue. *)
Definition vec_get {A} (v : list A) (i : Z) : option A :=
  if decide (0 ≤ i) then v !! Z.to_nat i else None.

(** [v[i] = x]. *)
Definition vec_set {A} (v : list A) (i : Z) (x : A) : option (list A) :=
  if decide (0 ≤ i < Z.of_nat (length v)) then Some (<[Z.to_nat i := x]> v) else None.

(** ** Pattern generator: [BlockChecker::initBlock] *)

Definition initBlock (buffer : list Z) (blockIndex pattern : Z) : option (list Z) :=
  b ← vec_set buffer 0 (u8 (Z.lxor pattern (Z.land blockIndex 255)));
  b ← vec_set b 1 (u8 (Z.lxor pattern (Z.land (Z.shiftr blockIndex 8) 255)));
  b ← vec_set b 2 (u8 (Z.lxor pattern (Z.land (Z.shiftr blockIndex 16) 255)));
  b ← vec_set b 3 (u8 (Z.lxor pattern (Z.land (Z.shiftr blockIndex 24) 255)));
  b ← vec_set b 4 (u8 (Z.lxor pattern (Z.land (Z.shiftr blockIndex 32) 255)));
  b ← vec_set b 5 (u8 (Z.lxor pattern (Z.land (Z.shiftr blockIndex 40) 255)));
  b ← vec_set b 6 (u8 (Z.lxor pattern (Z.land (Z.shiftr blockIndex 48) 255)));
  vec_set b 7 (u8 (Z.lxor pattern (Z.land (Z.shiftr blockIndex 56) 255))).

(** Byte [k] of the little-endian decomposition of an index. *)
Definition byte_k (k : nat) (i : Z) : Z := Z.land (Z.shiftr i (8 * Z.of_nat k)) 255.

(** The eight bytes [initBlock] stores. *)
Definition prefix8 (blockIndex pattern : Z) : list Z :=
  map (fun k => u8 (Z.lxor pattern (byte_k k blockIndex))) (seq 0 8).

(** ** Block geometry *)

(** [numBlocks = (sizeBytes + blockSize - 1) / blockSize] in [size_t]
    arithmetic; the caller has excluded [blockSize = 0]. *)
Definition numBlocksOf (sizeBytes blockSize : Z) : Z :=
  wrap64 (sizeBytes + blockSize - 1) / blockSize.

(** The access length both passes compute for a block:
    [accessSize = blockSize; if ((blockIndex + 1) * blockSize > sizeBytes)
    accessSize = sizeBytes % blockSize;].  With [blockSize = 0] the test is
    false, so the remainder is never taken by zero. *)
Definition accessSizeAt (blockSize sizeBytes blockIndex : Z) : Z :=
  if decide (wrap64 (wrap64 (blockIndex + 1) * blockSize) > sizeBytes)
  then sizeBytes mod blockSize
  else blockSize.

(** The access lengths of blocks [0 .. n-1]. *)
Definition accessSizes (blockSize sizeBytes : Z) (n : nat) : list Z :=
  map (fun i => accessSizeAt blockSize sizeBytes (Z.of_nat i)) (seq 0 n).

Definition sumZ (l : list Z) : Z := foldr Z.add 0 l.

(** ** Doubles *)

(** The operations the engine applies to [double]s.  [d_of_u64] is the
    conversion of a [size_t] (and of an integer literal such as [100.0]);
    [d_half] is the literal [0.5]. *)
Class DoubleOps := {
  double : Type;
  d_of_u64 : Z → double;
  d_half : double;
  d_add : double → double → double;
  d_sub : double → double → double;
  d_mul : double → double → double;
  d_div : double → double → double;
  d_ltb : double → double → bool;
}.

(** [<] on doubles is a strict weak order (no NaN among the values). *)
Class DoubleOrder `{DoubleOps} : Prop := {
  d_ltb_irrefl : ∀ x, d_ltb x x = false;
  d_ltb_trans : ∀ x y z, d_ltb x y = true → d_ltb y z = true → d_ltb x z = true;
  d_ltb_cotrans : ∀ x z y, d_ltb x z = true → d_ltb x y = true ∨ d_ltb y z = true;
}.

(** ** Outcomes *)

(** The [std::runtime_error]s the engine throws. *)
Inductive Exception :=
| CannotDetermineSize
| ErrorOpeningForReading (filename errtext : string)
| ErrorOpeningForWriting (filename errtext : string)
| ErrorOpeningOutfile (prefix readWrite : string) (passIndex sizeBytes : Z).

(** Undefined behaviour the code can run into. *)
Inductive UB :=
| DivisionByZero
| VectorOutOfRange (vector : string).

Inductive Outcome (A : Type) :=
| Ok (a : A)
| Throw (e : Exception)
| Undefined (u : UB).
Arguments Ok {A} a.
Arguments Throw {A} e.
Arguments Undefined {A} u.

(** [std::optional<uint8_t>]: the engaged flag and the payload byte.  A
    disengaged optional still holds a payload byte of indeterminate value;
    [*pattern] reads it without a check. *)
Record optional_u8 := { has_value : bool; payload : Z }.

Definition engaged (p : Z) : optional_u8 := {| has_value := true; payload := p |}.
Definition nullopt (junk : Z) : optional_u8 := {| has_value := false; payload := junk |}.

(** [{:02x}] of a byte. *)
Definition hexDigit (d : Z) : ascii :=
  nth (Z.to_nat d) (list_ascii_of_string "0123456789abcdef") "?"%char.

Definition hex2 (b : Z) : string :=
  String (hexDigit (b / 16)) (String (hexDigit (b mod 16)) EmptyString).

(** System calls the passes make on the device, as [strace] would show
    them: the requested length and the result. *)
Inductive Syscall :=
| SysOpen (readOnly : bool) (fd : Z)
| SysRead (count result : Z)
| SysWrite (count result : Z)
| SysClose (fd : Z).

Section Engine.
Context `{DoubleOps}.

Definition d_zero : double := d_of_u64 0.
Definition MB : double := d_mul (d_of_u64 1024) (d_of_u64 1024).
Definition GB : double := d_mul (d_mul (d_of_u64 1024) (d_of_u64 1024)) (d_of_u64 1024).

(** [x > y] on doubles. *)
Definition d_gtb (x y : double) : bool := d_ltb y x.

(** The external collaborators: the clock, the device and the output
    file.  [sys_read fd count] answers [None] for a failed call (result
    [-1]) and [Some data] for a call that transferred [data] (the result is
    its length, at most [count]); [sys_write fd data] answers the number of
    bytes written, likewise. *)
Class BlockIO := {
  World : Type;
  getTimeSec : World → double * World;
  getFileSize : string → World → Z;
  sys_open : string → bool → World → Z * World;
  sys_strerror : World → string;
  sys_read : Z → Z → World → option (list Z) * World;
  sys_write : Z → list Z → World → option nat * World;
  sys_close : Z → World → World;
  ofstream_open : World → bool * World;
  indeterminate_u8 : World → Z;
}.
Context `{BlockIO}.

(** *** [struct BlockStats] *)

Record BlockStats := { time : double; errors : Z; bytes : Z }.

Definition BlockStats_zero : BlockStats := {| time := d_zero; errors := 0; bytes := 0 |}.

Definition getRateMB (b : BlockStats) : double :=
  if d_gtb (time b) d_zero then d_div (d_div (d_of_u64 (bytes b)) (time b)) MB else d_zero.

(** *** The fields of [class BlockChecker] *)

Record BlockChecker := {
  filename : string;
  outfile : string;
  blockSize : Z;
  sizeBytes : Z;
  numBlocks : Z;
  patterns : list Z;
  blockStats : list BlockStats;
  totalWrite : BlockStats;
  totalRead : BlockStats;
  lastProgressTime : double;
  passIndex : Z;
  readPassesRemaining : Z;
  writePassesRemaining : Z;
  numPasses : Z;
}.

(** *** Output *)

(** The lines written to [std::cout], by their values. *)
Inductive Output :=
| OutHeader (filename : string) (sizeGB : double) (sizeBytes numBlocks blockSize : Z)
| OutDataError (expected actual blockIndex : Z)
| OutPassPrefix (direction : string) (pass numPasses : Z) (pat : string)
| OutProgress (blockIndex numBlocks : Z)
    (doneMB totalMB percent remainingSec readMBs writeMBs : double)
| OutPassStats (pass numPasses : Z) (readWrite : string) (errors : Z)
    (min avg med max : double)
| OutWarning (percent : double) (num : Z)
| OutTransferRates (readMBs writeMBs : double)
| OutErrors (total readErrors writeErrors : Z)
| OutNoErrors.

(** A per-block CSV file: its name parts and its lines [index,time,errors]. *)
Record Outfile := {
  of_prefix : string; of_readWrite : string; of_passIndex : Z; of_sizeBytes : Z;
  of_lines : list (Z * double * Z);
}.

(** *** The state of a run *)

(** The object, the world outside it, what was printed and written, and
    two observers that are not in the source: the system calls made and
    the number of times [*pattern] was evaluated on a disengaged optional. *)
Record Sys := {
  self : BlockChecker;
  world : World;
  cout : list Output;
  outfiles : list Outfile;
  strace : list Syscall;
  disengagedDerefs : nat;
}.

Definition M (A : Type) : Type := Sys → Outcome (A * Sys).

Definition ret {A} (a : A) : M A := fun s => Ok (a, s).

Definition bind {A B} (m : M A) (k : A → M B) : M B :=
  fun s => match m s with
           | Ok (a, s') => k a s'
           | Throw e => Throw e
           | Undefined u => Undefined u
           end.


Definition throw {A} (e : Exception) : M A := fun _ => Throw e.

Definition undefined {A} (u : UB) : M A := fun _ => Undefined u.

(** A vector access: out of range is undefined behaviour. *)
Definition inRange {A} (vector : string) (o : option A) : M A :=
  match o with
  | Some a => ret a
  | None => undefined (VectorOutOfRange vector)
  end.

Definition getSelf : M BlockChecker := fun s => Ok (self s, s).

Definition modifySelf (f : BlockChecker → BlockChecker) : M unit :=
  fun s => Ok (tt, {| self := f (self s); world := world s; cout := cout s;
                      outfiles := outfiles s; strace := strace s;
                      disengagedDerefs := disengagedDerefs s |}).

Definition getWorld : M World := fun s => Ok (world s, s).

Definition liftW {A} (f : World → A * World) : M A :=
  fun s => let '(a, w) := f (world s) in
           Ok (a, {| self := self s; world := w; cout := cout s;
                     outfiles := outfiles s; strace := strace s;
                     disengagedDerefs := disengagedDerefs s |}).

Definition print (o : Output) : M unit :=
  fun s => Ok (tt, {| self := self s; world := world s; cout := cout s ++ [o];
                      outfiles := outfiles s; strace := strace s;
                      disengagedDerefs := disengagedDerefs s |}).

Definition storeOutfile (f : Outfile) : M unit :=
  fun s => Ok (tt, {| self := self s; world := world s; cout := cout s;
                      outfiles := outfiles s ++ [f]; strace := strace s;
                      disengagedDerefs := disengagedDerefs s |}).

Definition logSyscall (c : Syscall) : M unit :=
  fun s => Ok (tt, {| self := self s; world := world s; cout := cout s;
                      outfiles := outfiles s; strace := strace s ++ [c];
                      disengagedDerefs := disengagedDerefs s |}).

(** [*pattern]: the payload, whether or not the optional is engaged.  On a
    disengaged optional the source has undefined behaviour here; the
    engine counts the evaluation in [disengagedDerefs] and goes on with the
    indeterminate payload byte, as a build without checks does, so that
    what the code does around it can still be stated.  A run that ends in
    [Ok] with a raised count has gone through that undefined behaviour. *)
Definition deref (pattern : optional_u8) : M Z :=
  fun s => Ok (payload pattern,
               {| self := self s; world := world s; cout := cout s;
                  outfiles := outfiles s; strace := strace s;
                  disengagedDerefs :=
                    if has_value pattern then disengagedDerefs s
                    else S (disengagedDerefs s) |}).

End Engine.

Declare Scope engine_scope.
Delimit Scope engine_scope with engine.
Notation "'let*' x ':=' m 'in' k" := (bind m (fun x => k))
  (at level 10, x binder, m at level 200, k at level 200) : engine_scope.
Notation "m ;; k" := (bind m (fun _ => k))
  (at level 100, right associativity) : engine_scope.
Open Scope engine_scope.

Section Checker.
Context `{DoubleOps} `{!BlockIO}.

(** [for (size_t i = from; i < from + n; i++) acc = body(i, acc)]: the
    loop with its local variables [acc]. *)
Fixpoint forRange {Acc} (n : nat) (from : Z) (body : Z → Acc → M Acc) (acc : Acc) : M Acc :=
  match n with
  | O => ret acc
  | S n' => let* acc' := body from acc in forRange n' (from + 1) body acc'
  end.

(** *** Field updates *)

Definition set_blockStats (v : list BlockStats) (c : BlockChecker) : BlockChecker :=
  {| filename := filename c; outfile := outfile c; blockSize := blockSize c;
     sizeBytes := sizeBytes c; numBlocks := numBlocks c; patterns := patterns c;
     blockStats := v; totalWrite := totalWrite c; totalRead := totalRead c;
     lastProgressTime := lastProgressTime c; passIndex := passIndex c;
     readPassesRemaining := readPassesRemaining c;
     writePassesRemaining := writePassesRemaining c; numPasses := numPasses c |}.

Definition set_totalWrite (v : BlockStats) (c : BlockChecker) : BlockChecker :=
  {| filename := filename c; outfile := outfile c; blockSize := blockSize c;
     sizeBytes := sizeBytes c; numBlocks := numBlocks c; patterns := patterns c;
     blockStats := blockStats c; totalWrite := v; totalRead := totalRead c;
     lastProgressTime := lastProgressTime c; passIndex := passIndex c;
     readPassesRemaining := readPassesRemaining c;
     writePassesRemaining := writePassesRemaining c; numPasses := numPasses c |}.

Definition set_totalRead (v : BlockStats) (c : BlockChecker) : BlockChecker :=
  {| filename := filename c; outfile := outfile c; blockSize := blockSize c;
     sizeBytes := sizeBytes c; numBlocks := numBlocks c; patterns := patterns c;
     blockStats := blockStats c; totalWrite := totalWrite c; totalRead := v;
     lastProgressTime := lastProgressTime c; passIndex := passIndex c;
     readPassesRemaining := readPassesRemaining c;
     writePassesRemaining := writePassesRemaining c; numPasses := numPasses c |}.

Definition set_lastProgressTime (v : double) (c : BlockChecker) : BlockChecker :=
  {| filename := filename c; outfile := outfile c; blockSize := blockSize c;
     sizeBytes := sizeBytes c; numBlocks := numBlocks c; patterns := patterns c;
     blockStats := blockStats c; totalWrite := totalWrite c; totalRead := totalRead c;
     lastProgressTime := v; passIndex := passIndex c;
     readPassesRemaining := readPassesRemaining c;
     writePassesRemaining := writePassesRemaining c; numPasses := numPasses c |}.

Definition set_passIndex (v : Z) (c : BlockChecker) : BlockChecker :=
  {| filename := filename c; outfile := outfile c; blockSize := blockSize c;
     sizeBytes := sizeBytes c; numBlocks := numBlocks c; patterns := patterns c;
     blockStats := blockStats c; totalWrite := totalWrite c; totalRead := totalRead c;
     lastProgressTime := lastProgressTime c; passIndex := v;
     readPassesRemaining := readPassesRemaining c;
     writePassesRemaining := writePassesRemaining c; numPasses := numPasses c |}.

Definition set_readPassesRemaining (v : Z) (c : BlockChecker) : BlockChecker :=
  {| filename := filename c; outfile := outfile c; blockSize := blockSize c;
     sizeBytes := sizeBytes c; numBlocks := numBlocks c; patterns := patterns c;
     blockStats := blockStats c; totalWrite := totalWrite c; totalRead := totalRead c;
     lastProgressTime := lastProgressTime c; passIndex := passIndex c;
     readPassesRemaining := v;
     writePassesRemaining := writePassesRemaining c; numPasses := numPasses c |}.

Definition set_writePassesRemaining (v : Z) (c : BlockChecker) : BlockChecker :=
  {| filename := filename c; outfile := outfile c; blockSize := blockSize c;
     sizeBytes := sizeBytes c; numBlocks := numBlocks c; patterns := patterns c;
     blockStats := blockStats c; totalWrite := totalWrite c; totalRead := totalRead c;
     lastProgressTime := lastProgressTime c; passIndex := passIndex c;
     readPassesRemaining := readPassesRemaining c;
     writePassesRemaining := v; numPasses := numPasses c |}.

Definition set_numPasses (v : Z) (c : BlockChecker) : BlockChecker :=
  {| filename := filename c; outfile := outfile c; blockSize := blockSize c;
     sizeBytes := sizeBytes c; numBlocks := numBlocks c; patterns := patterns c;
     blockStats := blockStats c; totalWrite := totalWrite c; totalRead := totalRead c;
     lastProgressTime := lastProgressTime c; passIndex := passIndex c;
     readPassesRemaining := readPassesRemaining c;
     writePassesRemaining := writePassesRemaining c; numPasses := v |}.

(** [s.errors++] *)
Definition incErrors (b : BlockStats) : BlockStats :=
  {| time := time b; errors := wrap64 (errors b + 1); bytes := bytes b |}.

(** [s.time += elapsed; s.bytes += accessSize;] *)
Definition addTransfer (elapsed : double) (accessSize : Z) (b : BlockStats) : BlockStats :=
  {| time := d_add (time b) elapsed; errors := errors b; bytes := wrap64 (bytes b + accessSize) |}.

(** [blockStats[blockIndex]] updated in place by [f]. *)
Definition modifyBlock (blockIndex : Z) (f : BlockStats → BlockStats) : M unit :=
  let* c := getSelf in
  let* b := inRange "blockStats" (vec_get (blockStats c) blockIndex) in
  let* v := inRange "blockStats" (vec_set (blockStats c) blockIndex (f b)) in
  modifySelf (set_blockStats v).


(** *** Throughput so far *)

Definition getReadBytesPerSecond (c : BlockChecker) : double :=
  if d_gtb (time (totalRead c)) d_zero && d_gtb (d_of_u64 (bytes (totalRead c))) d_zero
  then d_div (d_of_u64 (bytes (totalRead c))) (time (totalRead c))
  else d_zero.

Definition getWriteBytesPerSecond (c : BlockChecker) : double :=
  if d_gtb (time (totalWrite c)) d_zero && d_gtb (d_of_u64 (bytes (totalWrite c))) d_zero
  then d_div (d_of_u64 (bytes (totalWrite c))) (time (totalWrite c))
  else d_zero.

(** *** Progress reporter: [printProgress] *)

Definition printProgress (blockIndex : Z) : M unit :=
  let* now := liftW getTimeSec in
  let* c := getSelf in
  let elapsed := d_sub now (lastProgressTime c) in
  if d_ltb elapsed d_half then ret tt
  else
    let totalBytesOnePass := d_mul (d_of_u64 (numBlocks c)) (d_of_u64 (blockSize c)) in
    let* '(totalReadBytes, totalWriteBytes) :=
      (if decide (numPasses c > 1) then
         let* pat := inRange "patterns" (vec_get (patterns c) (passIndex c)) in
         print (OutPassPrefix
                  (if decide (Z.land (passIndex c) 1 ≠ 0) then "read"%string else "write"%string)
                  (wrap64 (passIndex c + 1)) (numPasses c) (hex2 pat)) ;;
         ret (d_mul (d_of_u64 (numPasses c / 2)) totalBytesOnePass,
              d_mul (d_of_u64 (numPasses c / 2)) totalBytesOnePass)
       else ret (totalBytesOnePass, d_zero)) in
    let done := d_mul (d_of_u64 blockIndex) (d_of_u64 (blockSize c)) in
    let percent :=
      d_mul (d_div (d_add (d_mul (d_of_u64 (passIndex c)) totalBytesOnePass) done)
                   (d_add totalReadBytes totalWriteBytes))
            (d_of_u64 100) in
    let rd := getReadBytesPerSecond c in
    let wr := getWriteBytesPerSecond c in
    let remainingSec := d_zero in
    let remainingSec :=
      if d_gtb rd d_zero then
        d_add remainingSec (d_div (d_sub totalReadBytes (d_of_u64 (bytes (totalRead c)))) rd)
      else if d_gtb wr d_zero then
        d_add remainingSec (d_div (d_sub totalReadBytes (d_of_u64 (bytes (totalRead c)))) wr)
      else remainingSec in
    let remainingSec :=
      if d_gtb wr d_zero then
        d_add remainingSec (d_div (d_sub totalWriteBytes (d_of_u64 (bytes (totalWrite c)))) wr)
      else remainingSec in
    print (OutProgress blockIndex (numBlocks c) (d_div done MB) (d_div totalBytesOnePass MB)
             percent remainingSec (d_div rd MB) (d_div wr MB)) ;;
    modifySelf (set_lastProgressTime now).

(** *** Statistics aggregator: [printPassStats] *)

(** [std::sort(first, last, comp)], specified by its result: a
    permutation of the input, ascending by [comp].  Insertion is one such
    algorithm; where it puts elements that compare equal is its own
    choice ([std::sort] leaves that order open), and the properties below
    use of the result only that it is such a permutation. *)
Fixpoint sort_insert {A} (comp : A → A → bool) (x : A) (l : list A) : list A :=
  match l with
  | [] => [x]
  | y :: l' => if comp x y then x :: l else y :: sort_insert comp x l'
  end.

Definition std_sort {A} (comp : A → A → bool) (l : list A) : list A :=
  foldr (sort_insert comp) [] l.

(** The comparison the sort is called with. *)
Definition slowerThan (a b : BlockStats) : bool := d_ltb (getRateMB a) (getRateMB b).

(** [for (; num < numBlocks && blockStats[num].getRateMB() < limit; num++);]
    with [rest] the records from index [num] on. *)
Fixpoint slowerPrefix (rest : list BlockStats) (numBlocks : Z) (limit : double) (num : Z)
  : option Z :=
  if decide (num < numBlocks) then
    match rest with
    | [] => None
    | b :: rest' =>
        if d_ltb (getRateMB b) limit
        then slowerPrefix rest' numBlocks limit (wrap64 (num + 1))
        else Some num
    end
  else Some num.

Definition percentiles : list Z := [50; 20; 10; 5].

Fixpoint forEach {A} (l : list A) (body : A → M unit) : M unit :=
  match l with
  | [] => ret tt
  | x :: l' => body x ;; forEach l' body
  end.

(** The limit [med * percent / 100.0]. *)
Definition slowLimit (med : double) (percent : Z) : double :=
  d_div (d_mul med (d_of_u64 percent)) (d_of_u64 100).

(** The block of [printPassStats] under [// Write outfile.] *)
Definition writeTimingData (readWrite : string) : M unit :=
  let* c := getSelf in
  if String.eqb (outfile c) EmptyString then ret tt
  else
    let* opened := liftW ofstream_open in
    if negb opened
    then throw (ErrorOpeningOutfile (outfile c) readWrite (passIndex c) (sizeBytes c))
    else
      let* lines :=
        forRange (Z.to_nat (numBlocks c)) 0
          (fun i acc =>
             let* b := inRange "blockStats" (vec_get (blockStats c) i) in
             ret (acc ++ [(i, time b, errors b)])) [] in
      storeOutfile {| of_prefix := outfile c; of_readWrite := readWrite;
                      of_passIndex := passIndex c; of_sizeBytes := sizeBytes c;
                      of_lines := lines |}.

(** One round of the loop over the percentiles. *)
Definition warnSlower (sorted : list BlockStats) (numBlocks : Z) (med : double)
    (percent : Z) : M unit :=
  let* num := inRange "blockStats"
                (slowerPrefix sorted numBlocks (slowLimit med percent) 0) in
  if decide (num ≠ 0) then print (OutWarning (d_of_u64 percent) num) else ret tt.

Definition printPassStats (read : bool) : M unit :=
  let readWrite := if read then "read"%string else "write"%string in
  writeTimingData readWrite ;;
  let* c := getSelf in
  let sorted := std_sort slowerThan (blockStats c) in
  modifySelf (set_blockStats sorted) ;;
  let* first := inRange "blockStats" (vec_get sorted 0) in
  let min := getRateMB first in
  let* last := inRange "blockStats" (vec_get sorted (wrap64 (numBlocks c - 1))) in
  let max := getRateMB last in
  let* middle := inRange "blockStats" (vec_get sorted (numBlocks c / 2)) in
  let med := getRateMB middle in
  let totalTime := fold_left (fun acc r => d_add acc (time r)) sorted d_zero in
  let errs :=
    wrap64 (fold_left (fun acc r => to_int32 (wrap64 (wrap64 acc + errors r))) sorted 0) in
  let avg :=
    if d_gtb totalTime d_zero
    then d_div (d_div (d_of_u64 (sizeBytes c)) totalTime) MB
    else d_zero in
  print (OutPassStats (wrap64 (passIndex c + 1)) (numPasses c) readWrite errs min avg med max) ;;
  forEach percentiles (warnSlower sorted (numBlocks c) med).

(** *** Pass executor: [readPass] and [writePass] *)

(** What [::read] leaves when the device answers [r]: the result and the
    buffer.  A failed call leaves the buffer as it was; a successful one
    overwrites its first [result] bytes. *)
Definition readOutcome (r : option (list Z)) (count : Z) (buffer : list Z) : Z * list Z :=
  match r with
  | None => (-1, buffer)
  | Some data =>
      let d := take (Z.to_nat count) (map u8 data) in
      (Z.of_nat (length d), d ++ drop (length d) buffer)
  end.

(** [::read(fd, buffer.data(), count)]: the result and the buffer after
    the call. *)
Definition posix_read (fd : Z) (buffer : list Z) (count : Z) : M (Z * list Z) :=
  let* r := liftW (sys_read fd count) in
  let '(result, buffer') := readOutcome r count buffer in
  logSyscall (SysRead count result) ;;
  ret (result, buffer').

(** [::write(fd, buffer.data(), count)]: the result. *)
Definition posix_write (fd : Z) (buffer : list Z) (count : Z) : M Z :=
  let* r := liftW (sys_write fd (take (Z.to_nat count) buffer)) in
  let result :=
    match r with
    | None => -1
    | Some n => Z.of_nat (Nat.min n (Z.to_nat count))
    end in
  logSyscall (SysWrite count result) ;;
  ret result.

(** The comparison loop of [readPass]:
    [for (i = from; i < from + n; i++) if (buffer[i] != expected[i]) { ...; break; }] *)
Fixpoint verifyBlock (n : nat) (from : Z) (buffer expected : list Z) (blockIndex : Z) : M unit :=
  match n with
  | O => ret tt
  | S n' =>
      let* actual := inRange "buffer" (vec_get buffer from) in
      let* wanted := inRange "expected" (vec_get expected from) in
      if decide (actual ≠ wanted) then
        print (OutDataError wanted actual blockIndex) ;;
        modifyBlock blockIndex incErrors ;;
        modifySelf (fun c => set_totalRead (incErrors (totalRead c)) c)
      else verifyBlock n' (from + 1) buffer expected blockIndex
  end.

(** The body of the block loop of [readPass]; [buffer] and [expected] are
    the pass's two local vectors. *)
Definition readBlock (pattern : optional_u8) (fd : Z) (blockIndex : Z)
    (locals : list Z * list Z) : M (list Z * list Z) :=
  let '(buffer, expected) := locals in
  let* p := deref pattern in
  let* expected := inRange "buffer" (initBlock expected blockIndex p) in
  let* c := getSelf in
  let accessSize := accessSizeAt (blockSize c) (sizeBytes c) blockIndex in
  let* startTime := liftW getTimeSec in
  let* '(result, buffer) := posix_read fd buffer accessSize in
  let* stopTime := liftW getTimeSec in
  let elapsed := d_sub stopTime startTime in
  (if decide (result < 0) then
     modifyBlock blockIndex incErrors ;;
     modifySelf (fun c => set_totalRead (incErrors (totalRead c)) c)
   else
     (if has_value pattern
      then verifyBlock (Z.to_nat (blockSize c)) 0 buffer expected blockIndex
      else ret tt) ;;
     modifyBlock blockIndex (addTransfer elapsed accessSize) ;;
     modifySelf (fun c => set_totalRead (addTransfer elapsed accessSize (totalRead c)) c)) ;;
  printProgress blockIndex ;;
  ret (buffer, expected).

Definition readPass (pattern : optional_u8) : M unit :=
  modifySelf (fun c => set_readPassesRemaining (wrap64 (readPassesRemaining c - 1)) c) ;;
  let* c := getSelf in
  modifySelf (set_blockStats (replicate (Z.to_nat (numBlocks c)) BlockStats_zero)) ;;
  let* now := liftW getTimeSec in
  modifySelf (set_lastProgressTime now) ;;
  let* fd := liftW (sys_open (filename c) true) in
  logSyscall (SysOpen true fd) ;;
  (if decide (fd < 0) then
     let* w := getWorld in
     throw (ErrorOpeningForReading (filename c) (sys_strerror w))
   else ret tt) ;;
  let buffer := replicate (Z.to_nat (blockSize c)) 0 in
  let* p := deref pattern in
  let expected := replicate (Z.to_nat (blockSize c)) p in
  forRange (Z.to_nat (numBlocks c)) 0 (readBlock pattern fd) (buffer, expected) ;;
  liftW (fun w => (tt, sys_close fd w)) ;;
  logSyscall (SysClose fd) ;;
  printPassStats true ;;
  modifySelf (fun c => set_passIndex (wrap64 (passIndex c + 1)) c).

(** The body of the block loop of [writePass]. *)
Definition writeBlock (pattern : Z) (fd : Z) (blockIndex : Z) (buffer : list Z)
  : M (list Z) :=
  let* buffer := inRange "buffer" (initBlock buffer blockIndex pattern) in
  let* c := getSelf in
  let accessSize := accessSizeAt (blockSize c) (sizeBytes c) blockIndex in
  let* startTime := liftW getTimeSec in
  let* result := posix_write fd buffer accessSize in
  let* stopTime := liftW getTimeSec in
  let elapsed := d_sub stopTime startTime in
  (if decide (result < 0) then
     modifyBlock blockIndex incErrors ;;
     modifySelf (fun c => set_totalWrite (incErrors (totalWrite c)) c)
   else
     modifyBlock blockIndex (addTransfer elapsed accessSize) ;;
     modifySelf (fun c => set_totalWrite (addTransfer elapsed accessSize (totalWrite c)) c)) ;;
  printProgress blockIndex ;;
  ret buffer.

Definition writePass (pattern : Z) : M unit :=
  modifySelf (fun c => set_writePassesRemaining (wrap64 (writePassesRemaining c - 1)) c) ;;
  let* c := getSelf in
  modifySelf (set_blockStats (replicate (Z.to_nat (numBlocks c)) BlockStats_zero)) ;;
  let* now := liftW getTimeSec in
  modifySelf (set_lastProgressTime now) ;;
  let* fd := liftW (sys_open (filename c) false) in
  logSyscall (SysOpen false fd) ;;
  (if decide (fd < 0) then
     let* w := getWorld in
     throw (ErrorOpeningForWriting (filename c) (sys_strerror w))
   else ret tt) ;;
  let buffer := replicate (Z.to_nat (blockSize c)) pattern in
  forRange (Z.to_nat (numBlocks c)) 0 (writeBlock pattern fd) buffer ;;
  liftW (fun w => (tt, sys_close fd w)) ;;
  logSyscall (SysClose fd) ;;
  printPassStats false ;;
  modifySelf (fun c => set_passIndex (wrap64 (passIndex c + 1)) c).

(** *** Session controller *)

(** [readPass()] is called with the default argument [std::nullopt]: a
    disengaged optional, whose payload byte is whatever the world left
    there. *)
Definition checkReadOnly : M unit :=
  modifySelf (set_numPasses 1) ;;
  modifySelf (set_readPassesRemaining 1) ;;
  modifySelf (set_writePassesRemaining 0) ;;
  let* w := getWorld in
  readPass (nullopt (indeterminate_u8 w)).

Definition checkWriteRead : M unit :=
  modifySelf (fun c => set_numPasses (wrap64 (Z.of_nat (length (patterns c)) * 2)) c) ;;
  modifySelf (fun c => set_readPassesRemaining (numPasses c / 2) c) ;;
  modifySelf (fun c => set_writePassesRemaining (numPasses c / 2) c) ;;
  let* c := getSelf in
  forRange (length (patterns c)) 0
    (fun i _ =>
       let* c := getSelf in
       let* p := inRange "patterns" (vec_get (patterns c) i) in
       writePass p ;;
       let* c := getSelf in
       let* p := inRange "patterns" (vec_get (patterns c) i) in
       readPass (engaged p)) tt.

Definition printResult : M unit :=
  let* c := getSelf in
  print (OutTransferRates (d_div (getReadBytesPerSecond c) MB)
                          (d_div (getWriteBytesPerSecond c) MB)) ;;
  if decide (wrap64 (errors (totalRead c) + errors (totalWrite c)) > 0) then
    print (OutErrors (wrap64 (errors (totalRead c) + errors (totalWrite c)))
                     (errors (totalRead c)) (errors (totalWrite c)))
  else print OutNoErrors.

(** *** Setup: the constructor

    [blockSize_] and [patterns_] are what [ut1::strToU64] and
    [ut1::csvIntegersToVector<uint8_t>] made of the command line (both
    helpers are outside the repository's sources, as is [ut1::getFileSize],
    which is asked of the world).  The statements run in the source's
    order: the division, the header line, then the size check. *)
Definition BlockChecker_new (filename_ : string) (blockSize_ : Z) (patterns_ : list Z)
    (outfile_ : string) (w : World) : Outcome Sys :=
  let sizeBytes_ := getFileSize filename_ w in
  if decide (blockSize_ = 0) then Undefined DivisionByZero
  else
    let numBlocks_ := numBlocksOf sizeBytes_ blockSize_ in
    let c := {| filename := filename_; outfile := outfile_; blockSize := blockSize_;
                sizeBytes := sizeBytes_; numBlocks := numBlocks_; patterns := patterns_;
                blockStats := replicate (Z.to_nat numBlocks_) BlockStats_zero;
                totalWrite := BlockStats_zero; totalRead := BlockStats_zero;
                lastProgressTime := d_zero; passIndex := 0;
                readPassesRemaining := 0; writePassesRemaining := 0; numPasses := 0 |} in
    let line := OutHeader filename_ (d_div (d_of_u64 sizeBytes_) GB)
                          sizeBytes_ numBlocks_ blockSize_ in
    if decide (sizeBytes_ = 0) then Throw CannotDetermineSize
    else Ok {| self := c; world := w; cout := [line]; outfiles := [];
               strace := []; disengagedDerefs := 0 |}.

(** [main] after the command line is parsed and the overwrite confirmed. *)
Definition run (overwrite : bool) (filename_ : string) (blockSize_ : Z)
    (patterns_ : list Z) (outfile_ : string) (w : World) : Outcome (unit * Sys) :=
  match BlockChecker_new filename_ blockSize_ patterns_ outfile_ w with
  | Ok s => ((if overwrite then checkWriteRead else checkReadOnly) ;; printResult) s
  | Throw e => Throw e
  | Undefined u => Undefined u
  end.

End Checker.

(** ** Vocabulary of the properties *)

(** What the specification asks of the geometry for a device of
    [sizeBytes] bytes cut into blocks of [blockSize] bytes. *)
Definition block_geometry_spec (sizeBytes blockSize : Z) : Prop :=
  let r := sizeBytes mod blockSize in
  let n := numBlocksOf sizeBytes blockSize in
  ((n - 1) * blockSize < sizeBytes ≤ n * blockSize) ∧
  (∀ i, 0 ≤ i < n →
     accessSizeAt blockSize sizeBytes i = if decide (r ≠ 0 ∧ i = n - 1) then r else blockSize) ∧
  sumZ (accessSizes blockSize sizeBytes (Z.to_nat n)) = sizeBytes.

(** [l] is ascending for [comp]: no element is less than an earlier one. *)
Definition ascending {A} (comp : A → A → bool) (l : list A) : Prop :=
  StronglySorted (fun a b => comp b a = false) l.

(** The bytes of block [i] as a write pass with the pattern byte [p]
    leaves them in a buffer of [blockSize] bytes: the eight bytes of
    [initBlock], then the pattern. *)
Definition blockImage (blockSize p i : Z) : list Z :=
  prefix8 i p ++ replicate (Z.to_nat blockSize - 8) p.

(** The first [n] blocks of a device written that way. *)
Definition diskImage (blockSize p : Z) (n : nat) : list Z :=
  flat_map (fun i => blockImage blockSize p (Z.of_nat i)) (seq 0 n).

Section Vocabulary.
Context `{DoubleOps} `{!BlockIO}.

(** The number of records of [l] slower than [limit]. *)
Fixpoint countSlower (limit : double) (l : list BlockStats) : Z :=
  match l with
  | [] => 0
  | b :: l' => (if d_ltb (getRateMB b) limit then 1 else 0) + countSlower limit l'
  end.

(** The warnings the aggregator prints for a median [med] over the
    records [stats]: one per percentile, in the order of [percentiles],
    for each percentile with at least one slower record. *)
Definition slowWarnings (med : double) (stats : list BlockStats) (pcts : list Z)
  : list Output :=
  flat_map
    (fun percent =>
       let num := countSlower (slowLimit med percent) stats in
       if decide (num ≠ 0) then [OutWarning (d_of_u64 percent) num] else [])
    pcts.

(** A pass of either direction. *)
Inductive Pass :=
| ReadPass (pattern : optional_u8)
| WritePass (pattern : Z).

Definition runPass (p : Pass) : M unit :=
  match p with
  | ReadPass pattern => readPass pattern
  | WritePass pattern => writePass pattern
  end.

(** The read or write call of a pass, by requested length and result. *)
Definition passCall (p : Pass) (call : Z * Z) : Syscall :=
  match p with
  | ReadPass _ => SysRead call.1 call.2
  | WritePass _ => SysWrite call.1 call.2
  end.

(** The bytes a call adds to its block's record: the requested length
    when the call did not fail. *)
Definition accounted (call : Z * Z) : Z := if decide (call.2 < 0) then 0 else call.1.

(** The three statements around a block's call,
    [startTime = getTimeSec(); result = ::read(...); elapsed = getTimeSec() - startTime]:
    the time measured, what the device answered, and the world after the
    second reading of the clock. *)
Definition timedRead (fd count : Z) (w : World) : double * option (list Z) * World :=
  let '(startTime, w1) := getTimeSec w in
  let '(r, w2) := sys_read fd count w1 in
  let '(stopTime, w3) := getTimeSec w2 in
  (d_sub stopTime startTime, r, w3).

(** The same around [::write(fd, buffer.data(), accessSize)], with [data]
    the bytes handed over. *)
Definition timedWrite (fd : Z) (data : list Z) (w : World) : double * option nat * World :=
  let '(startTime, w1) := getTimeSec w in
  let '(r, w2) := sys_write fd data w1 in
  let '(stopTime, w3) := getTimeSec w2 in
  (d_sub stopTime startTime, r, w3).

(** The result of [::write] for the device's answer [r] to a call of
    [count] bytes. *)
Definition writeResult (r : option nat) (count : Z) : Z :=
  match r with
  | None => -1
  | Some n => Z.of_nat (Nat.min n (Z.to_nat count))
  end.

(** Whether a run completed, and what an observer [f] sees of the state
    it completed in. *)
Definition completed {A} (o : Outcome (A * Sys)) : bool :=
  match o with
  | Ok _ => true
  | _ => false
  end.

Definition observe {A B} (o : Outcome (A * Sys)) (f : Sys → B) : option B :=
  match o with
  | Ok (_, s) => Some (f s)
  | _ => None
  end.

(** The number of calls that failed. *)
Definition failedCount (calls : list (Z * Z)) : Z :=
  sumZ (map (fun call : Z * Z => if decide (call.2 < 0) then 1 else 0) calls).

(** Two states agree on what a pass never assigns. *)
Definition sameDevice (c c' : BlockChecker) : Prop :=
  filename c' = filename c ∧ outfile c' = outfile c ∧ blockSize c' = blockSize c ∧
  sizeBytes c' = sizeBytes c ∧ numBlocks c' = numBlocks c ∧ patterns c' = patterns c.

(** What a step leaves alone when it only prints and moves
    [lastProgressTime]. *)
Definition onlyProgress (s s' : Sys) : Prop :=
  (self s' = self s ∨ ∃ t, self s' = set_lastProgressTime t (self s)) ∧
  (∃ lines, cout s' = cout s ++ lines) ∧
  outfiles s' = outfiles s ∧ strace s' = strace s ∧
  disengagedDerefs s' = disengagedDerefs s.

(** The comparison of [readPass] finds a byte of [buffer] that differs
    from [expected] (it runs only when a pattern is given). *)
Definition dataMismatch (pattern : optional_u8) (blockSize : Z) (buffer expected : list Z)
  : bool :=
  has_value pattern &&
  negb (bool_decide (take (Z.to_nat blockSize) buffer = take (Z.to_nat blockSize) expected)).

(** What a block's I/O does to a record ([blockStats[blockIndex]] or the
    direction's total): a failed call counts an error; any other call adds
    the time and the requested length, after the error of a data mismatch
    if one was found. *)
Definition recordTransfer (result : Z) (elapsed : double) (accessSize : Z) (bad : bool)
    (b : BlockStats) : BlockStats :=
  if decide (result < 0) then incErrors b
  else addTransfer elapsed accessSize (if bad then incErrors b else b).

(** What a block loop never changes: the pass counters and the number of
    records. *)
Definition samePlan (s s' : Sys) : Prop :=
  passIndex (self s') = passIndex (self s) ∧ numPasses (self s') = numPasses (self s) ∧
  numBlocks (self s') = numBlocks (self s) ∧
  length (blockStats (self s')) = length (blockStats (self s)).

(** The sum of [BlockRecord.bytes] over the vector of records. *)
Definition sumBytes (stats : list BlockStats) : Z := sumZ (map bytes stats).

(** What the body of a block loop does at block [blockIndex], whatever
    its local variables: it makes one call [mk (accessSize, result)],
    updates [blockStats[blockIndex]] by [recordTransfer], and leaves the
    device description and the other records alone. *)
Definition blockStep {Acc} (body : Z → Acc → M Acc) (mk : Z * Z → Syscall) : Prop :=
  ∀ blockIndex acc s acc' s',
    body blockIndex acc s = Ok (acc', s') →
    let c := self s in
    let accessSize := accessSizeAt (blockSize c) (sizeBytes c) blockIndex in
    ∃ result elapsed bad b,
      0 ≤ blockIndex < Z.of_nat (length (blockStats c)) ∧
      blockStats c !! Z.to_nat blockIndex = Some b ∧
      strace s' = strace s ++ [mk (accessSize, result)] ∧
      sameDevice c (self s') ∧
      blockStats (self s') =
        <[Z.to_nat blockIndex := recordTransfer result elapsed accessSize bad b]>
          (blockStats c).

End Vocabulary.

(** ** A concrete instance: exact rational arithmetic and a simulated device

    Used to run the engine on concrete inputs.  Rationals stand in for
    doubles whose operations are exact on the values of the examples
    (small integers and halves). *)

Definition Qltb (x y : Q) : bool := (Qnum x * QDen y <? Qnum y * QDen x)%Z.

#[export] Instance QDouble : DoubleOps := {|
  double := Q;
  d_of_u64 := inject_Z;
  d_half := (1 # 2)%Q;
  d_add := fun x y => Qred (x + y);
  d_sub := fun x y => Qred (x - y);
  d_mul := fun x y => Qred (x * y);
  d_div := fun x y => Qred (x / y);
  d_ltb := Qltb;
|}.

(** What the simulated device does on its next read or write. *)
Inductive Fault :=
| NoFault
| Fail
| Short (n : nat).

(** A device of [length disk] bytes with a file offset, a clock, and a
    script consumed one entry per read or write: the fault of the call and
    the seconds it takes.  Once the script is used up a call has no fault
    and takes [latency] seconds. *)
Record SimWorld := {
  disk : list Z;
  pos : nat;
  now : Q;
  latency : Q;
  script : list (Fault * Q);
  junk : Z;
}.

Definition sim_fault (w : SimWorld) : Fault :=
  match script w with
  | (f, _) :: _ => f
  | [] => NoFault
  end.

Definition sim_took (w : SimWorld) : Q :=
  match script w with
  | (_, t) :: _ => t
  | [] => latency w
  end.

Definition sim_step (d : list Z) (p : nat) (w : SimWorld) : SimWorld :=
  {| disk := d; pos := p; now := Qred (now w + sim_took w); latency := latency w;
     script := tail (script w); junk := junk w |}.

Definition sim_open (w : SimWorld) : Z * SimWorld :=
  (3, {| disk := disk w; pos := 0; now := now w; latency := latency w;
         script := script w; junk := junk w |}).

Definition sim_read (count : Z) (w : SimWorld) : option (list Z) * SimWorld :=
  match sim_fault w with
  | Fail => (None, sim_step (disk w) (pos w) w)
  | Short n =>
      let data := take (Nat.min n (Z.to_nat count)) (drop (pos w) (disk w)) in
      (Some data, sim_step (disk w) (pos w + length data) w)
  | NoFault =>
      let data := take (Z.to_nat count) (drop (pos w) (disk w)) in
      (Some data, sim_step (disk w) (pos w + length data) w)
  end.

Definition sim_store (data : list Z) (w : SimWorld) : option nat * SimWorld :=
  let data := take (length (disk w) - pos w) data in
  (Some (length data),
   sim_step (take (pos w) (disk w) ++ data ++ drop (pos w + length data) (disk w))
            (pos w + length data) w).

Definition sim_write (data : list Z) (w : SimWorld) : option nat * SimWorld :=
  match sim_fault w with
  | Fail => (None, sim_step (disk w) (pos w) w)
  | Short n => sim_store (take n data) w
  | NoFault => sim_store data w
  end.

#[export] Instance SimDevice : BlockIO := {|
  World := SimWorld;
  getTimeSec := fun w => (now w, w);
  getFileSize := fun _ w => Z.of_nat (length (disk w));
  sys_open := fun _ _ => sim_open;
  sys_strerror := fun _ => EmptyString;
  sys_read := fun _ => sim_read;
  sys_write := fun _ => sim_write;
  sys_close := fun _ w => w;
  ofstream_open := fun w => (true, w);
  indeterminate_u8 := junk;
|}.

(** A healthy device of [size] zero bytes: no fault scripted. *)
Definition healthy (size : nat) (latency_ : Q) : SimWorld :=
  {| disk := replicate size 0; pos := 0; now := 0%Q; latency := latency_;
     script := []; junk := 0 |}.

(** The same device with a script for its first calls. *)
Definition scripted (size : nat) (latency_ : Q) (calls : list (Fault * Q)) : SimWorld :=
  {| disk := replicate size 0; pos := 0; now := 0%Q; latency := latency_;
     script := calls; junk := 0 |}.

(** A record of a block of 4 MiB read at [rate] MB/s. *)
Definition statsOfRate (rate : Z) : BlockStats :=
  {| time := Qred (4 / inject_Z rate); errors := 0; bytes := 4194304 |}.

(** A checker between the block loop and [printPassStats], on a device of
    [length rates] blocks of 4 MiB whose records have the given rates. *)
Definition checkerWithRates (rates : list Z) : BlockChecker :=
  {| filename := "dev"; outfile := EmptyString; blockSize := 4194304;
     sizeBytes := Z.of_nat (length rates) * 4194304;
     numBlocks := Z.of_nat (length rates); patterns := [0];
     blockStats := map statsOfRate rates;
     totalWrite := BlockStats_zero; totalRead := BlockStats_zero;
     lastProgressTime := 0%Q; passIndex := 0;
     readPassesRemaining := 0; writePassesRemaining := 0; numPasses := 1 |}.

Definition sysWithRates (rates : list Z) : Sys :=
  {| self := checkerWithRates rates;
     world := healthy 0 0%Q;
     cout := []; outfiles := []; strace := []; disengagedDerefs := 0 |}.

(** The state the constructor leaves for a device of [size] zero bytes
    read in blocks of [blockSize_] bytes, with a script for its calls. *)
Definition sysFor (size : nat) (blockSize_ : Z) (patterns_ : list Z)
    (calls : list (Fault * Q)) : Sys :=
  {| self :=
       {| filename := "dev"; outfile := EmptyString; blockSize := blockSize_;
          sizeBytes := Z.of_nat size;
          numBlocks := numBlocksOf (Z.of_nat size) blockSize_;
          patterns := patterns_;
          blockStats :=
            replicate (Z.to_nat (numBlocksOf (Z.of_nat size) blockSize_)) BlockStats_zero;
          totalWrite := BlockStats_zero; totalRead := BlockStats_zero;
          lastProgressTime := 0%Q; passIndex := 0;
          readPassesRemaining := 0; writePassesRemaining := 0; numPasses := 0 |};
     world := scripted size 0%Q calls;
     cout := [OutHeader "dev" (d_div (d_of_u64 (Z.of_nat size)) GB) (Z.of_nat size)
                (numBlocksOf (Z.of_nat size) blockSize_) blockSize_];
     outfiles := []; strace := []; disengagedDerefs := 0 |}.

(** The device with another indeterminate byte for a disengaged optional. *)
Definition withJunk (j : Z) (w : SimWorld) : SimWorld :=
  {| disk := disk w; pos := pos w; now := now w; latency := latency w;
     script := script w; junk := j |}.


(** ** Vocabulary of the passes' records and reports *)

Section Records.
Context `{D : DoubleOps} {IO : BlockIO}.

(** One block of a pass as its loop saw it: the length asked for, the
    result of the call, the time measured, and whether the comparison
    found a mismatch. *)
Record Transfer := {
  t_size : Z;
  t_result : Z;
  t_elapsed : double;
  t_bad : bool;
}.

(** What the block does to a record. *)
Definition account (t : Transfer) (b : BlockStats) : BlockStats :=
  recordTransfer (t_result t) (t_elapsed t) (t_size t) (t_bad t) b.

(** The record of the block in the fresh vector of a pass. *)
Definition recordOf (t : Transfer) : BlockStats := account t BlockStats_zero.

(** The block counts an error: its call failed or its data differed. *)
Definition hasError (t : Transfer) : bool := bool_decide (t_result t < 0) || t_bad t.

(** The total a pass adds to, and the one it leaves alone. *)
Definition dirTotal (p : Pass) (c : BlockChecker) : BlockStats :=
  match p with
  | ReadPass _ => totalRead c
  | WritePass _ => totalWrite c
  end.

Definition otherTotal (p : Pass) (c : BlockChecker) : BlockStats :=
  match p with
  | ReadPass _ => totalWrite c
  | WritePass _ => totalRead c
  end.

Definition passName (p : Pass) : string :=
  match p with
  | ReadPass _ => "read"
  | WritePass _ => "write"
  end.

(** Whether the pass compares what it reads with a pattern. *)
Definition passVerifies (p : Pass) : bool :=
  match p with
  | ReadPass pattern => has_value pattern
  | WritePass _ => false
  end.

Definition passReadOnly (p : Pass) : bool :=
  match p with
  | ReadPass _ => true
  | WritePass _ => false
  end.

(** The lines of the timing file for the records [stats], in their order. *)
Definition csvLines (stats : list BlockStats) : list (Z * double * Z) :=
  imap (fun i b => (Z.of_nat i, time b, errors b)) stats.

(** [std::accumulate(first, last, 0, ...)] over the [errors], as
    [printPassStats] converts it to [size_t] for the summary line. *)
Definition errorsPrinted (stats : list BlockStats) : Z :=
  wrap64 (fold_left (fun acc r => to_int32 (wrap64 (wrap64 acc + errors r))) stats 0).

(** The first position where [buffer] differs from [expected]: the byte
    expected and the byte found. *)
Fixpoint firstMismatch (buffer expected : list Z) : option (Z * Z) :=
  match buffer, expected with
  | actual :: buffer', wanted :: expected' =>
      if decide (actual ≠ wanted) then Some (wanted, actual)
      else firstMismatch buffer' expected'
  | _, _ => None
  end.

(** The lines a block loop prints, and the blocks its data error lines
    name. *)
Definition isBlockLine (o : Output) : bool :=
  match o with
  | OutDataError _ _ _ | OutPassPrefix _ _ _ _ | OutProgress _ _ _ _ _ _ _ _ => true
  | _ => false
  end.

Definition isProgressLine (o : Output) : bool :=
  match o with
  | OutPassPrefix _ _ _ _ | OutProgress _ _ _ _ _ _ _ _ => true
  | _ => false
  end.

Definition isWarning (o : Output) : bool :=
  match o with
  | OutWarning _ _ => true
  | _ => false
  end.

Definition dataErrorBlocks (out : list Output) : list Z :=
  omap (fun o => match o with
                 | OutDataError _ _ blockIndex => Some blockIndex
                 | _ => None
                 end) out.

(** The blocks of [ts], numbered from [from], whose data differed. *)
Fixpoint badBlocks (from : Z) (ts : list Transfer) : list Z :=
  match ts with
  | [] => []
  | t :: ts' => (if t_bad t then [from] else []) ++ badBlocks (from + 1) ts'
  end.

(** One block of a read pass as a function of what the world answers:
    [initBlock] on the expected block, the timed call, the buffer it
    leaves, the comparison, and the reading of the clock in
    [printProgress].  [None] when [initBlock] would store out of range. *)
Definition readTransfer (pattern : optional_u8) (fd blockSize sizeBytes blockIndex : Z)
    (locals : list Z * list Z) (w : World) : option (Transfer * (list Z * list Z) * World) :=
  expected ← initBlock locals.2 blockIndex (payload pattern);
  let accessSize := accessSizeAt blockSize sizeBytes blockIndex in
  let call := timedRead fd accessSize w in
  let out := readOutcome call.1.2 accessSize locals.1 in
  Some ({| t_size := accessSize; t_result := out.1; t_elapsed := call.1.1;
           t_bad := if decide (out.1 < 0) then false
                    else dataMismatch pattern blockSize out.2 expected |},
        (out.2, expected), (getTimeSec call.2).2).

(** One block of a write pass, likewise. *)
Definition writeTransfer (pattern fd blockSize sizeBytes blockIndex : Z)
    (buffer : list Z) (w : World) : option (Transfer * list Z * World) :=
  buffer' ← initBlock buffer blockIndex pattern;
  let accessSize := accessSizeAt blockSize sizeBytes blockIndex in
  let call := timedWrite fd (take (Z.to_nat accessSize) buffer') w in
  Some ({| t_size := accessSize; t_result := writeResult call.1.2 accessSize;
           t_elapsed := call.1.1; t_bad := false |},
        buffer', (getTimeSec call.2).2).

(** The blocks [from .. from + n), one after the other. *)
Fixpoint blockTransfers {Acc} (step : Z → Acc → World → option (Transfer * Acc * World))
    (n : nat) (from : Z) (acc : Acc) (w : World) : option (list Transfer * Acc * World) :=
  match n with
  | O => Some ([], acc, w)
  | S n' =>
      '(t, acc1, w1) ← step from acc w;
      '(ts, acc', w') ← blockTransfers step n' (from + 1) acc1 w1;
      Some (t :: ts, acc', w')
  end.

(** The blocks of the pass [p] of the checker [c] started in the world
    [w]: the descriptor [open] returns, the transfers, and the world after
    the last block.  The pass reads the clock, opens the device and runs
    its loop from fresh buffers. *)
Definition passTransfers (p : Pass) (c : BlockChecker) (w : World)
  : option (Z * list Transfer * World) :=
  let opened := sys_open (filename c) (passReadOnly p) (getTimeSec w).2 in
  let n := Z.to_nat (numBlocks c) in
  let size := Z.to_nat (blockSize c) in
  match p with
  | ReadPass pattern =>
      '(ts, _, w') ← blockTransfers
                       (readTransfer pattern opened.1 (blockSize c) (sizeBytes c)) n 0
                       (replicate size 0, replicate size (payload pattern)) opened.2;
      Some (opened.1, ts, w')
  | WritePass pattern =>
      '(ts, _, w') ← blockTransfers
                       (writeTransfer pattern opened.1 (blockSize c) (sizeBytes c)) n 0
                       (replicate size pattern) opened.2;
      Some (opened.1, ts, w')
  end.

(** The body of a block loop, with what it does to the totals, the
    output and the files as well: as [blockStep], and the direction's
    total [total] gets what the block's record gets, the other total
    [other] and the files written stay as they are, and the lines printed
    are a data error line for this block if its data differed (which
    only a body that verifies finds out, after a call that did not fail),
    and progress lines.  The transfer, the local variables and the world
    it leaves are those of [step]. *)
Definition blockAccount {Acc} (body : Z → Acc → M Acc) (mk : Z * Z → Syscall)
    (total other : BlockChecker → BlockStats) (verifies : bool)
    (step : Z → Z → Z → Acc → World → option (Transfer * Acc * World)) : Prop :=
  ∀ blockIndex acc s acc' s',
    body blockIndex acc s = Ok (acc', s') →
    let c := self s in
    ∃ t b lines,
      t_size t = accessSizeAt (blockSize c) (sizeBytes c) blockIndex ∧
      0 ≤ blockIndex < Z.of_nat (length (blockStats c)) ∧
      blockStats c !! Z.to_nat blockIndex = Some b ∧
      strace s' = strace s ++ [mk (t_size t, t_result t)] ∧
      sameDevice c (self s') ∧ passIndex (self s') = passIndex c ∧
      numPasses (self s') = numPasses c ∧
      blockStats (self s') = <[Z.to_nat blockIndex := account t b]> (blockStats c) ∧
      total (self s') = account t (total c) ∧ other (self s') = other c ∧
      outfiles s' = outfiles s ∧
      cout s' = cout s ++ lines ∧ forallb isBlockLine lines = true ∧
      dataErrorBlocks lines = (if t_bad t then [blockIndex] else []) ∧
      (t_bad t = true → verifies = true ∧ 0 ≤ t_result t) ∧
      step (blockSize c) (sizeBytes c) blockIndex acc (world s) = Some (t, acc', world s').

(** The sum of the records' error counts, and the number of blocks
    that count an error. *)
Definition sumErrors (stats : list BlockStats) : Z := sumZ (map errors stats).

Definition countErrors (ts : list Transfer) : Z :=
  sumZ (map (fun t => if hasError t then 1 else 0) ts).

(** What a completed pass leaves, in terms of its blocks' transfers. *)
Definition passLeaves (p : Pass) (s s' : Sys) (fd : Z) (ts : list Transfer)
    (before after : list Output) (min avg med max : double) : Prop :=
  let c := self s in
  strace s' = strace s ++
    SysOpen (passReadOnly p) fd
    :: map (fun t => passCall p (t_size t, t_result t)) ts ++ [SysClose fd] ∧
  map t_size ts = accessSizes (blockSize c) (sizeBytes c) (Z.to_nat (numBlocks c)) ∧
  Permutation (blockStats (self s')) (map recordOf ts) ∧
  dirTotal p (self s') = fold_left (fun b t => account t b) ts (dirTotal p c) ∧
  otherTotal p (self s') = otherTotal p c ∧
  sameDevice c (self s') ∧
  passIndex (self s') = wrap64 (passIndex c + 1) ∧ numPasses (self s') = numPasses c ∧
  outfiles s' =
    outfiles s ++
      (if String.eqb (outfile c) EmptyString then []
       else [{| of_prefix := outfile c; of_readWrite := passName p;
                of_passIndex := passIndex c; of_sizeBytes := sizeBytes c;
                of_lines := csvLines (map recordOf ts) |}]) ∧
  cout s' = cout s ++ before ++
    OutPassStats (wrap64 (passIndex c + 1)) (numPasses c) (passName p)
      (errorsPrinted (blockStats (self s'))) min avg med max
    :: after ∧
  forallb isBlockLine before = true ∧ dataErrorBlocks before = badBlocks 0 ts ∧
  forallb isWarning after = true ∧
  Forall (fun t => t_bad t = true → passVerifies p = true ∧ 0 ≤ t_result t) ts.

(** The transfers of a completed pass are those the world answers, and
    the world it leaves is the one after the last block, the [close] and,
    with a timing file, its creation. *)
Definition passTimed (p : Pass) (s s' : Sys) (fd : Z) (ts : list Transfer) : Prop :=
  ∃ w,
    passTransfers p (self s) (world s) = Some (fd, ts, w) ∧
    world s' = if String.eqb (outfile (self s)) EmptyString then sys_close fd w
               else (ofstream_open (sys_close fd w)).2.

End Records.

(** The read and write calls of a trace that failed, and the data error
    lines of an output. *)
Definition failedReads (tr : list Syscall) : Z :=
  sumZ (map (fun c => match c with
                      | SysRead _ result => if decide (result < 0) then 1 else 0
                      | _ => 0
                      end) tr).

Definition failedWrites (tr : list Syscall) : Z :=
  sumZ (map (fun c => match c with
                      | SysWrite _ result => if decide (result < 0) then 1 else 0
                      | _ => 0
                      end) tr).

Section Verdict.
Context `{D : DoubleOps} {IO : BlockIO}.

Definition dataErrorLines (out : list Output) : Z := Z.of_nat (length (dataErrorBlocks out)).

(** The two totals count what the run has seen so far: the read errors
    are the failed reads and the data errors reported, the write errors
    the failed writes. *)
Definition errorsAgree (s : Sys) : Prop :=
  errors (totalRead (self s)) = wrap64 (failedReads (strace s) + dataErrorLines (cout s)) ∧
  errors (totalWrite (self s)) = wrap64 (failedWrites (strace s)).

(** The last line of [printResult]. *)
Definition verdict (readErrors writeErrors : Z) : Output :=
  if decide (wrap64 (readErrors + writeErrors) > 0)
  then OutErrors (wrap64 (readErrors + writeErrors)) readErrors writeErrors
  else OutNoErrors.

End Verdict.

(** *** The session *)

(** The calls of a pass: the device is opened, every block is read or
    written, the device is closed. *)
Definition passTrace (p : Pass) (fd : Z) (calls : list (Z * Z)) : list Syscall :=
  SysOpen (passReadOnly p) fd :: map (passCall p) calls ++ [SysClose fd].

(** A round of [checkWriteRead]: the pattern, and the descriptor and the
    calls of its write pass and of its read pass. *)
Record Round := {
  r_pattern : Z;
  r_wfd : Z;
  r_writes : list (Z * Z);
  r_rfd : Z;
  r_reads : list (Z * Z);
}.

Definition roundTrace (r : Round) : list Syscall :=
  passTrace (WritePass (r_pattern r)) (r_wfd r) (r_writes r)
  ++ passTrace (ReadPass (engaged (r_pattern r))) (r_rfd r) (r_reads r).

Section Session.
Context `{D : DoubleOps}.

(** The pass summary lines of an output: pass number, number of passes
    and direction. *)
Definition summaryLines (out : list Output) : list (Z * Z * string) :=
  omap (fun o => match o with
                 | OutPassStats pass numPasses readWrite _ _ _ _ _ =>
                     Some (pass, numPasses, readWrite)
                 | _ => None
                 end) out.

(** The summary lines of [rounds] rounds that start at pass index
    [passIndex], of [numPasses] passes. *)
Definition roundSummaries (passIndex numPasses : Z) (rounds : nat)
  : list (Z * Z * string) :=
  flat_map (fun i => [(wrap64 (passIndex + 2 * Z.of_nat i + 1), numPasses, "write"%string);
                      (wrap64 (passIndex + 2 * Z.of_nat i + 2), numPasses, "read"%string)])
           (seq 0 rounds).

End Session.

Section Rounds.
Context `{D : DoubleOps} {IO : BlockIO}.

(** The state [s'] is reached from [s] by running the rounds one after
    the other: each round is [writePass] with the round's pattern and then
    [readPass] with the same pattern, and the round's descriptors and
    calls are those the two passes made. *)
Fixpoint roundsRun (rounds : list Round) (s s' : Sys) : Prop :=
  match rounds with
  | [] => s' = s
  | r :: rounds' =>
      ∃ s1 s2,
        writePass (r_pattern r) s = Ok (tt, s1) ∧
        strace s1 = strace s ++ passTrace (WritePass (r_pattern r)) (r_wfd r) (r_writes r) ∧
        readPass (engaged (r_pattern r)) s1 = Ok (tt, s2) ∧
        strace s2
          = strace s1 ++ passTrace (ReadPass (engaged (r_pattern r))) (r_rfd r) (r_reads r) ∧
        roundsRun rounds' s2 s'
  end.

(** The state in which [checkWriteRead] enters its loop: the three
    counters are set from the number of patterns. *)
Definition sessionStart (s : Sys) : Sys :=
  let n := wrap64 (Z.of_nat (length (patterns (self s))) * 2) in
  {| self := set_writePassesRemaining (n / 2)
               (set_readPassesRemaining (n / 2) (set_numPasses n (self s)));
     world := world s; cout := cout s; outfiles := outfiles s; strace := strace s;
     disengagedDerefs := disengagedDerefs s |}.

End Rounds.

(** *** What a pass needs to complete *)

Section PassNeeds.
Context `{D : DoubleOps} {IO : BlockIO}.

(** The progress line can be printed: there is one pass, or the pass
    index is inside the pattern list. *)
Definition progressSafe (c : BlockChecker) : Prop :=
  numPasses c ≤ 1 ∨ 0 ≤ passIndex c < Z.of_nat (length (patterns c)).

(** What the block loops keep: the device description, the plan of
    passes, the number of records and the size of the buffers. *)
Definition loopKeeps (s0 : Sys) (buffers : list (list Z)) (s : Sys) : Prop :=
  sameDevice (self s0) (self s) ∧ passIndex (self s) = passIndex (self s0) ∧
  numPasses (self s) = numPasses (self s0) ∧
  length (blockStats (self s)) = length (blockStats (self s0)) ∧
  Forall (fun b => length b = Z.to_nat (blockSize (self s0))) buffers.



End PassNeeds.

(** *** States of the examples *)

(** The state the constructor leaves on the simulated device when timing
    files are asked for under the prefix [outfile_]. *)
Definition sysNamed (outfile_ : string) (size : nat) (blockSize_ : Z) (patterns_ : list Z)
    (calls : list (Fault * Q)) : Sys :=
  {| self :=
       {| filename := "dev"; outfile := outfile_; blockSize := blockSize_;
          sizeBytes := Z.of_nat size;
          numBlocks := numBlocksOf (Z.of_nat size) blockSize_;
          patterns := patterns_;
          blockStats :=
            replicate (Z.to_nat (numBlocksOf (Z.of_nat size) blockSize_)) BlockStats_zero;
          totalWrite := BlockStats_zero; totalRead := BlockStats_zero;
          lastProgressTime := 0%Q; passIndex := 0;
          readPassesRemaining := 0; writePassesRemaining := 0; numPasses := 0 |};
     world := scripted size 0%Q calls;
     cout := [OutHeader "dev" (d_div (d_of_u64 (Z.of_nat size)) GB) (Z.of_nat size)
                (numBlocksOf (Z.of_nat size) blockSize_) blockSize_];
     outfiles := []; strace := []; disengagedDerefs := 0 |}.

(** The state the constructor returns, on any device, when it succeeds. *)
Definition constructed `{D : DoubleOps} {IO : BlockIO} (filename_ : string) (blockSize_ : Z)
    (patterns_ : list Z) (outfile_ : string) (w : World) : Sys :=
  {| self :=
       {| filename := filename_; outfile := outfile_; blockSize := blockSize_;
          sizeBytes := getFileSize filename_ w;
          numBlocks := numBlocksOf (getFileSize filename_ w) blockSize_;
          patterns := patterns_;
          blockStats :=
            replicate (Z.to_nat (numBlocksOf (getFileSize filename_ w) blockSize_))
                      BlockStats_zero;
          totalWrite := BlockStats_zero; totalRead := BlockStats_zero;
          lastProgressTime := d_zero; passIndex := 0;
          readPassesRemaining := 0; writePassesRemaining := 0; numPasses := 0 |};
     world := w;
     cout := [OutHeader filename_ (d_div (d_of_u64 (getFileSize filename_ w)) GB)
                (getFileSize filename_ w)
                (numBlocksOf (getFileSize filename_ w) blockSize_) blockSize_];
     outfiles := []; strace := []; disengagedDerefs := 0 |}.

(** The simulated device behind a file that cannot be opened (when
    [canOpen] is false), or where no timing file can be created (when
    [canLog] is false). *)
Definition Restricted (canOpen canLog : bool) : BlockIO := {|
  World := SimWorld;
  getTimeSec := fun w => (now w, w);
  getFileSize := fun _ w => Z.of_nat (length (disk w));
  sys_open := fun _ _ w => if canOpen then sim_open w else (-1, w);
  sys_strerror := fun _ => "Permission denied"%string;
  sys_read := fun _ => sim_read;
  sys_write := fun _ => sim_write;
  sys_close := fun _ w => w;
  ofstream_open := fun w => (canLog, w);
  indeterminate_u8 := junk;
|}.

(** *** Detection *)

(** Block [i] of a device content, and the blocks among the first [n]
    that differ from what a write pass with pattern [p] stores. *)
Definition blockAt (blockSize : Z) (content : list Z) (i : nat) : list Z :=
  take (Z.to_nat blockSize) (drop (i * Z.to_nat blockSize) content).

Definition differs (blockSize p : Z) (content : list Z) (i : nat) : bool :=
  negb (bool_decide (blockAt blockSize content i = blockImage blockSize p (Z.of_nat i))).

Definition differingBlocks (blockSize p : Z) (content : list Z) (from n : nat) : list Z :=
  map Z.of_nat (filter (fun i => differs blockSize p content i = true) (seq from n)).

(** A simulated device without faults that holds [content]. *)
Definition holding (content : list Z) : SimWorld :=
  {| disk := content; pos := 0; now := 0%Q; latency := 0%Q; script := []; junk := 0 |}.

(** Three blocks of 8 bytes written with the pattern 0x55, the middle one
    zeroed since. *)
Definition staleMiddle : list Z := blockImage 8 85 0 ++ replicate 8 0 ++ blockImage 8 85 2.

(** What a round of [checkWriteRead] keeps on such a device. *)
Definition healthySession (s0 s : Sys) : Prop :=
  sameDevice (self s0) (self s) ∧ script (world s) = [] ∧
  length (disk (world s)) = length (disk (world s0)) ∧
  errors (totalRead (self s)) = errors (totalRead (self s0)) ∧
  errors (totalWrite (self s)) = errors (totalWrite (self s0)) ∧
  dataErrorBlocks (cout s) = dataErrorBlocks (cout s0).
(** * Properties *)

(** ** Vectors *)

Lemma vec_set_Some {A} (v : list A) (i : nat) (x : A) :
  (i < length v)%nat → vec_set v (Z.of_nat i) x = Some (<[i := x]> v).
Proof.
  intros Hi. unfold vec_set. rewrite Nat2Z.id.
  destruct (decide _) as [_|Hn]; [reflexivity | lia].
Qed.

Lemma vec_set_None {A} (v : list A) (i : Z) (x : A) :
  Z.of_nat (length v) ≤ i → vec_set v i x = None.
Proof.
  intros Hi. unfold vec_set. destruct (decide _) as [Hn|_]; [lia | reflexivity].
Qed.

(** ** Pattern generator *)

Lemma initBlock_short (buffer : list Z) (i p : Z) :
  (length buffer < 8)%nat → initBlock buffer i p = None.
Proof.
  intros Hlen.
  do 8 (destruct buffer as [|? buffer]; [reflexivity|]).
  simpl in Hlen. lia.
Qed.

Lemma initBlock_long (buffer : list Z) (i p : Z) :
  (8 ≤ length buffer)%nat →
  initBlock buffer i p = Some (prefix8 i p ++ drop 8 buffer).
Proof.
  intros Hlen.
  do 8 (destruct buffer as [|? buffer]; [simpl in Hlen; lia|]).
  unfold initBlock.
  rewrite (vec_set_Some _ 0) by (simpl; lia); simpl.
  rewrite (vec_set_Some _ 1) by (simpl; lia); simpl.
  rewrite (vec_set_Some _ 2) by (simpl; lia); simpl.
  rewrite (vec_set_Some _ 3) by (simpl; lia); simpl.
  rewrite (vec_set_Some _ 4) by (simpl; lia); simpl.
  rewrite (vec_set_Some _ 5) by (simpl; lia); simpl.
  rewrite (vec_set_Some _ 6) by (simpl; lia); simpl.
  rewrite (vec_set_Some _ 7) by (simpl; lia); simpl.
  reflexivity.
Qed.

Lemma byte_k_testbit (k : nat) (i n : Z) :
  0 ≤ n < 8 → Z.testbit (byte_k k i) n = Z.testbit i (n + 8 * Z.of_nat k).
Proof.
  intros Hn. unfold byte_k.
  rewrite Z.land_spec, Z.shiftr_spec by lia.
  change 255 with (Z.ones 8). rewrite Z.ones_spec_low by lia.
  apply andb_true_r.
Qed.

Lemma byte_k_range (k : nat) (i : Z) : 0 ≤ byte_k k i < 256.
Proof.
  unfold byte_k. change 255 with (Z.ones 8).
  rewrite Z.land_ones by lia. apply Z.mod_pos_bound. lia.
Qed.

Lemma lxor_byte_range (p b : Z) : 0 ≤ p < 256 → 0 ≤ b < 256 → 0 ≤ Z.lxor p b < 256.
Proof.
  intros Hp Hb.
  assert (Hnn : 0 ≤ Z.lxor p b) by (apply Z.lxor_nonneg; lia).
  split; [exact Hnn|].
  destruct (Z.eq_dec (Z.lxor p b) 0) as [->|Hne]; [lia|].
  apply (Z.log2_lt_cancel _ 256). change (Z.log2 256) with 8.
  assert (Hlog : ∀ z, 0 ≤ z < 256 → Z.log2 z < 8).
  { intros z Hz. destruct (Z.eq_dec z 0) as [->|Hz0]; [reflexivity|].
    apply Z.log2_lt_pow2; lia. }
  pose proof (Z.log2_lxor p b ltac:(lia) ltac:(lia)) as Hx.
  pose proof (Hlog p Hp). pose proof (Hlog b Hb). lia.
Qed.

Lemma prefix8_inj (p i j : Z) :
  0 ≤ p < 256 → is_u64 i → is_u64 j → prefix8 i p = prefix8 j p → i = j.
Proof.
  intros Hp Hi Hj Heq.
  assert (Hbytes : ∀ k, (k < 8)%nat → byte_k k i = byte_k k j).
  { intros k Hk.
    assert (Hk' : prefix8 i p !! k = prefix8 j p !! k) by (rewrite Heq; reflexivity).
    unfold prefix8 in Hk'. rewrite !list_lookup_fmap in Hk'.
    rewrite !lookup_seq_lt in Hk' by lia. simpl in Hk'.
    injection Hk' as Hk'. unfold u8 in Hk'.
    rewrite !Z.mod_small in Hk'
      by (apply lxor_byte_range; [lia | apply byte_k_range]).
    apply (f_equal (Z.lxor p)) in Hk'.
    rewrite <- !Z.lxor_assoc, Z.lxor_nilpotent, !Z.lxor_0_l in Hk'. exact Hk'. }
  apply Z.bits_inj'. intros n Hn.
  destruct (Z_lt_le_dec n 64) as [Hlt|Hge].
  - pose proof (Hbytes (Z.to_nat (n / 8)) ltac:(
      apply Nat2Z.inj_lt; rewrite Z2Nat.id by (apply Z.div_pos; lia);
      apply Z.div_lt_upper_bound; lia)) as Hb.
    apply (f_equal (fun z => Z.testbit z (n mod 8))) in Hb.
    rewrite !byte_k_testbit in Hb by (apply Z.mod_pos_bound; lia).
    rewrite Z2Nat.id in Hb by (apply Z.div_pos; lia).
    replace (n mod 8 + 8 * (n / 8)) with n in Hb
      by (rewrite (Z.div_mod n 8) at 1 by lia; lia).
    exact Hb.
  - unfold is_u64, two64 in Hi, Hj.
    rewrite !Z.bits_above_log2; try reflexivity; try lia.
    + destruct (Z.eq_dec j 0) as [->|?]; [simpl; lia|].
      apply Z.lt_le_trans with 64; [|exact Hge].
      apply Z.log2_lt_pow2; lia.
    + destruct (Z.eq_dec i 0) as [->|?]; [simpl; lia|].
      apply Z.lt_le_trans with 64; [|exact Hge].
      apply Z.log2_lt_pow2; lia.
Qed.

(** ** Block geometry *)

Lemma numBlocksOf_exact (S B : Z) :
  0 < S → 0 < B → S + B ≤ two64 →
  numBlocksOf S B = S / B + (if decide (S mod B = 0) then 0 else 1).
Proof.
  intros HS HB Hno. unfold numBlocksOf, wrap64.
  rewrite Z.mod_small by lia.
  pose proof (Z.div_mod S B ltac:(lia)) as Hdm.
  pose proof (Z.mod_pos_bound S B HB) as Hr.
  destruct (decide (S mod B = 0)) as [H0|Hne].
  - symmetry. apply (Z.div_unique _ _ _ (B - 1)); lia.
  - symmetry. apply (Z.div_unique _ _ _ (S mod B - 1)); lia.
Qed.

Lemma accessSizeAt_full (S B i : Z) :
  0 < B → S < two64 → 0 ≤ i → (i + 1) * B ≤ S → accessSizeAt B S i = B.
Proof.
  intros HB HS Hi Hle. unfold accessSizeAt, wrap64.
  assert (i + 1 < two64) by nia.
  rewrite (Z.mod_small (i + 1)) by lia.
  rewrite Z.mod_small by nia.
  destruct (decide _); [lia | reflexivity].
Qed.

Lemma accessSizeAt_partial (S B i : Z) :
  0 < B → 0 ≤ i → S < (i + 1) * B < two64 → accessSizeAt B S i = S mod B.
Proof.
  intros HB Hi Hlt. unfold accessSizeAt, wrap64.
  assert (i + 1 < two64) by nia.
  rewrite (Z.mod_small (i + 1)) by lia.
  rewrite Z.mod_small by nia.
  destruct (decide _); [reflexivity | lia].
Qed.

Lemma sumZ_app (l1 l2 : list Z) : sumZ (l1 ++ l2) = sumZ l1 + sumZ l2.
Proof. induction l1 as [|x l1 IH]; simpl; [reflexivity | rewrite IH; lia]. Qed.

Lemma accessSizes_S (B S : Z) (n : nat) :
  accessSizes B S (Datatypes.S n) = accessSizes B S n ++ [accessSizeAt B S (Z.of_nat n)].
Proof. unfold accessSizes. rewrite seq_S, map_app. reflexivity. Qed.

Lemma accessSizes_full_sum (S B : Z) (n : nat) :
  0 < B → S < two64 → Z.of_nat n * B ≤ S →
  sumZ (accessSizes B S n) = Z.of_nat n * B.
Proof.
  intros HB HS. induction n as [|n IH]; intros Hle; [reflexivity|].
  rewrite accessSizes_S, sumZ_app, IH by nia. simpl.
  rewrite accessSizeAt_full by nia. lia.
Qed.

Lemma block_geometry_holds (S B : Z) :
  0 < S → 0 < B → S + B ≤ two64 → block_geometry_spec S B.
Proof.
  intros HS HB Hno. unfold block_geometry_spec.
  rewrite numBlocksOf_exact by assumption.
  pose proof (Z.div_mod S B ltac:(lia)) as Hdm.
  pose proof (Z.mod_pos_bound S B HB) as Hr.
  assert (Hq : 0 ≤ S / B) by (apply Z.div_pos; lia).
  destruct (decide (S mod B = 0)) as [H0|Hne]; simpl.
  - split; [nia|]. split.
    + intros i Hi. destruct (decide _) as [[? _]|_]; [contradiction|].
      apply accessSizeAt_full; nia.
    + rewrite accessSizes_full_sum; rewrite ?Z2Nat.id; nia.
  - split; [nia|]. split.
    + intros i Hi. destruct (decide _) as [[_ ->]|Hn].
      * apply accessSizeAt_partial; nia.
      * apply accessSizeAt_full; nia.
    + replace (Z.to_nat (S / B + 1)) with (Datatypes.S (Z.to_nat (S / B))) by lia.
      rewrite accessSizes_S, sumZ_app, accessSizes_full_sum;
        rewrite ?Z2Nat.id; try nia.
      simpl. rewrite accessSizeAt_partial by nia. lia.
Qed.

(** With [sizeBytes + blockSize > 2^64] the sum [sizeBytes + blockSize - 1]
    wraps and the engine sees a device of no blocks. *)
Lemma numBlocksOf_wrapped (S B : Z) :
  is_u64 S → is_u64 B → two64 < S + B → numBlocksOf S B = 0.
Proof.
  unfold is_u64, numBlocksOf, wrap64. intros HS HB Hw.
  replace ((S + B - 1) mod two64) with (S + B - 1 - two64).
  - apply Z.div_small. lia.
  - apply (Z.mod_unique _ _ 1); lia.
Qed.

(** C6 (as amended): for all [sizeBytes > 0] and [blockSize > 0] whose sum
    does not exceed [2^64] (so the 64-bit [sizeBytes + blockSize - 1] does
    not wrap), [numBlocks] is the ceiling of [sizeBytes / blockSize]; every
    block has access length [blockSize], except the last when the remainder
    [r = sizeBytes % blockSize] is not zero, which has length [r]; and the
    access lengths add up to [sizeBytes]. *)
Theorem block_geometry_no_wrap (sizeBytes blockSize : Z) :
  0 < sizeBytes → 0 < blockSize → sizeBytes + blockSize ≤ two64 →
  block_geometry_spec sizeBytes blockSize.
Proof. apply block_geometry_holds. Qed.

Lemma block_geometry_no_wrap_witness :
  (0 < 10485760 ∧ 0 < 4194304 ∧ 10485760 + 4194304 ≤ two64) ∧
  block_geometry_spec 10485760 4194304 ∧
  numBlocksOf 10485760 4194304 = 3 ∧
  accessSizes 4194304 10485760 3 = [4194304; 4194304; 2097152].
Proof.
  split; [unfold two64; lia|].
  split; [apply (block_geometry_no_wrap 10485760 4194304); unfold two64; lia|].
  split; reflexivity.
Defined.

(** C6 as stated fails where the 64-bit sum wraps: a device of 2 bytes
    with [blockSize = 2^64 - 1] gets [numBlocks = 0], not 1. *)
Lemma block_geometry_wraps :
  0 < 2 ∧ 0 < two64 - 1 ∧ is_u64 2 ∧ is_u64 (two64 - 1) ∧
  numBlocksOf 2 (two64 - 1) = 0 ∧ ¬ block_geometry_spec 2 (two64 - 1).
Proof.
  assert (Hn : numBlocksOf 2 (two64 - 1) = 0) by reflexivity.
  repeat split; try (unfold two64; lia); try exact Hn.
  unfold block_geometry_spec. rewrite Hn. intros [[_ Hle] _].
  unfold two64 in Hle. lia.
Qed.

(** C9: for a pattern byte [p] and block indices [i ≠ j] below [2^64],
    [initBlock] succeeds on buffers of at least 8 bytes, byte [k < 8] of
    its result is [p XOR byte_k(index)], and the two 8-byte prefixes
    differ in at least one byte. *)
Theorem initBlock_prefix_distinct (p i j : Z) (buf1 buf2 : list Z) :
  0 ≤ p < 256 → is_u64 i → is_u64 j → i ≠ j →
  (8 ≤ length buf1)%nat → (8 ≤ length buf2)%nat →
  ∃ b1 b2,
    initBlock buf1 i p = Some b1 ∧ initBlock buf2 j p = Some b2 ∧
    (∀ k, (k < 8)%nat →
       b1 !! k = Some (Z.lxor p (byte_k k i)) ∧ b2 !! k = Some (Z.lxor p (byte_k k j))) ∧
    take 8 b1 ≠ take 8 b2 ∧
    (∃ k, (k < 8)%nat ∧ b1 !! k ≠ b2 !! k).
Proof.
  intros Hp Hi Hj Hne H1 H2.
  exists (prefix8 i p ++ drop 8 buf1), (prefix8 j p ++ drop 8 buf2).
  rewrite !initBlock_long by assumption.
  assert (Hk : ∀ x k, (k < 8)%nat →
             (prefix8 x p ++ drop 8 buf1) !! k = Some (Z.lxor p (byte_k k x)) ∧
             (prefix8 x p ++ drop 8 buf2) !! k = Some (Z.lxor p (byte_k k x))).
  { intros x k Hlt.
    rewrite !lookup_app_l by (unfold prefix8; rewrite length_map, length_seq; lia).
    unfold prefix8. rewrite list_lookup_fmap, lookup_seq_lt by lia. simpl.
    unfold u8. rewrite Z.mod_small
      by (apply lxor_byte_range; [lia | apply byte_k_range]).
    split; reflexivity. }
  assert (Htake : ∀ x (b : list Z), take 8 (prefix8 x p ++ b) = prefix8 x p).
  { intros x b. apply take_app_length'. reflexivity. }
  assert (Hpre : prefix8 i p ≠ prefix8 j p).
  { intros Heq. apply Hne. exact (prefix8_inj p i j Hp Hi Hj Heq). }
  split; [reflexivity|]. split; [reflexivity|].
  split; [intros k Hlt; split; [apply (Hk i k Hlt) | apply (Hk j k Hlt)]|].
  split; [rewrite !Htake; exact Hpre|].
  destruct (decide (Forall (fun k => (prefix8 i p ++ drop 8 buf1) !! k
                                     = (prefix8 j p ++ drop 8 buf2) !! k) (seq 0 8)))
    as [Hall|Hnot].
  - exfalso. apply Hpre. rewrite Forall_forall in Hall.
    apply list_eq. intros k.
    destruct (decide (k < 8)%nat) as [Hlt|Hge].
    + specialize (Hall k ltac:(apply elem_of_seq; lia)).
      rewrite !lookup_app_l in Hall
        by (unfold prefix8; rewrite length_map, length_seq; lia).
      exact Hall.
    + rewrite !lookup_ge_None_2
        by (unfold prefix8; rewrite length_map, length_seq; lia).
      reflexivity.
  - apply not_Forall_Exists in Hnot; [|intros k; apply _].
    apply Exists_exists in Hnot. destruct Hnot as (k & Hin & Hk').
    exists k. split; [apply elem_of_seq in Hin; lia | exact Hk'].
Qed.

Lemma initBlock_prefix_distinct_witness :
  (0 ≤ 85 < 256 ∧ is_u64 0 ∧ is_u64 256 ∧ 0 ≠ 256 ∧
   (8 ≤ length (replicate 8 85))%nat ∧ (8 ≤ length (replicate 16 0))%nat) ∧
  ∃ b1 b2,
    initBlock (replicate 8 85) 0 85 = Some b1 ∧
    initBlock (replicate 16 0) 256 85 = Some b2 ∧
    (∀ k, (k < 8)%nat →
       b1 !! k = Some (Z.lxor 85 (byte_k k 0)) ∧ b2 !! k = Some (Z.lxor 85 (byte_k k 256))) ∧
    take 8 b1 ≠ take 8 b2 ∧
    (∃ k, (k < 8)%nat ∧ b1 !! k ≠ b2 !! k).
Proof.
  split.
  - unfold is_u64, two64. simpl. lia.
  - apply (initBlock_prefix_distinct 85 0 256); unfold is_u64, two64; simpl; lia.
Defined.

(** ** [std::sort] *)

Lemma sort_insert_perm {A} (comp : A → A → bool) (x : A) (l : list A) :
  Permutation (sort_insert comp x l) (x :: l).
Proof.
  induction l as [|y l IH]; simpl; [reflexivity|].
  destruct (comp x y); [reflexivity|].
  rewrite IH. apply perm_swap.
Qed.

Lemma std_sort_perm {A} (comp : A → A → bool) (l : list A) :
  Permutation (std_sort comp l) l.
Proof.
  induction l as [|x l IH]; simpl; [reflexivity|].
  rewrite sort_insert_perm, IH. reflexivity.
Qed.

Lemma std_sort_length {A} (comp : A → A → bool) (l : list A) :
  length (std_sort comp l) = length l.
Proof. apply Permutation_length, std_sort_perm. Qed.

Section SortOrder.
Context {A : Type} (comp : A → A → bool).
Hypothesis comp_asym : ∀ x y, comp x y = true → comp y x = false.
Hypothesis comp_ntrans : ∀ x y z, comp x y = false → comp y z = false → comp x z = false.

Lemma sort_insert_ascending (x : A) (l : list A) :
  ascending comp l → ascending comp (sort_insert comp x l).
Proof.
  unfold ascending. induction l as [|y l IH]; intros Hs; simpl.
  - constructor; [constructor | constructor].
  - apply StronglySorted_inv in Hs. destruct Hs as [Hl Hy].
    destruct (comp x y) eqn:Hxy.
    + constructor; [constructor; assumption|].
      constructor; [apply comp_asym; exact Hxy|].
      eapply List.Forall_impl; [|exact Hy]. simpl. intros z Hz.
      apply (comp_ntrans z y x Hz). apply comp_asym. exact Hxy.
    + constructor; [apply IH; exact Hl|].
      apply (Permutation_Forall (x:=x :: l)).
      * symmetry. apply sort_insert_perm.
      * constructor; [exact Hxy | exact Hy].
Qed.

Lemma std_sort_ascending (l : list A) : ascending comp (std_sort comp l).
Proof.
  induction l as [|x l IH]; simpl; [constructor|].
  apply sort_insert_ascending, IH.
Qed.

Lemma ascending_lookup (l : list A) (i j : nat) (a b : A) :
  ascending comp l → (i < j)%nat → l !! i = Some a → l !! j = Some b → comp b a = false.
Proof.
  unfold ascending. intros Hs. revert i j.
  induction Hs as [|x l Hl IH Hx]; intros i j Hij Hi Hj; [destruct i; discriminate|].
  destruct j as [|j]; [lia|]. simpl in Hj.
  destruct i as [|i]; simpl in Hi.
  - injection Hi as <-. rewrite List.Forall_forall in Hx. apply Hx.
    apply list_elem_of_In. eapply list_elem_of_lookup_2. exact Hj.
  - apply (IH i j); [lia | exact Hi | exact Hj].
Qed.

End SortOrder.

(** ** Statistics aggregator *)

Section Stats.
Context `{D : DoubleOps} {IO : BlockIO} {O : DoubleOrder}.

Lemma d_ltb_asym (x y : double) : d_ltb x y = true → d_ltb y x = false.
Proof.
  intros Hxy. destruct (d_ltb y x) eqn:Hyx; [|reflexivity].
  pose proof (d_ltb_trans x y x Hxy Hyx) as Hxx.
  rewrite d_ltb_irrefl in Hxx. discriminate.
Qed.

Lemma d_ltb_ntrans (x y z : double) :
  d_ltb x y = false → d_ltb y z = false → d_ltb x z = false.
Proof.
  intros Hxy Hyz. destruct (d_ltb x z) eqn:Hxz; [|reflexivity].
  destruct (d_ltb_cotrans x z y Hxz) as [Hc|Hc]; congruence.
Qed.

Lemma std_sort_slowerThan_ascending (l : list BlockStats) :
  ascending slowerThan (std_sort slowerThan l).
Proof.
  apply std_sort_ascending; unfold slowerThan.
  - intros x y. apply d_ltb_asym.
  - intros x y z. apply d_ltb_ntrans.
Qed.

Lemma countSlower_nonneg (limit : double) (l : list BlockStats) : 0 ≤ countSlower limit l.
Proof. induction l as [|b l IH]; simpl; [lia|]. destruct (d_ltb _ _); lia. Qed.

Lemma countSlower_le_length (limit : double) (l : list BlockStats) :
  countSlower limit l ≤ Z.of_nat (length l).
Proof. induction l as [|b l IH]; simpl; [lia|]. destruct (d_ltb _ _); lia. Qed.

Lemma countSlower_perm (limit : double) (l1 l2 : list BlockStats) :
  Permutation l1 l2 → countSlower limit l1 = countSlower limit l2.
Proof.
  induction 1 as [|x l1 l2 _ IH|x y l|l1 l2 l3 _ IH1 _ IH2]; simpl; lia.
Qed.

Lemma countSlower_none (limit : double) (l : list BlockStats) :
  List.Forall (fun b => d_ltb (getRateMB b) limit = false) l → countSlower limit l = 0.
Proof.
  induction 1 as [|b l Hb _ IH]; simpl; [reflexivity|]. rewrite Hb, IH. reflexivity.
Qed.

Lemma slowWarnings_perm (med : double) (l1 l2 : list BlockStats) (pcts : list Z) :
  Permutation l1 l2 → slowWarnings med l1 pcts = slowWarnings med l2 pcts.
Proof.
  intros Hperm. unfold slowWarnings. apply flat_map_ext. intros pct.
  rewrite (countSlower_perm _ _ _ Hperm). reflexivity.
Qed.

(** On ascending records the scan from the start counts every slower
    record. *)
Lemma slowerPrefix_count (rest : list BlockStats) (n : Z) (limit : double) (num : Z) :
  ascending slowerThan rest → 0 ≤ num → n < two64 →
  Z.of_nat (length rest) = n - num →
  slowerPrefix rest n limit num = Some (num + countSlower limit rest).
Proof.
  unfold ascending. intros Hs. revert num.
  induction Hs as [|b rest Hrest IH Hb]; intros num Hnum Hn Hlen; simpl in *.
  - destruct (decide (num < n)); [lia | f_equal; lia].
  - destruct (decide (num < n)) as [_|Hge]; [|lia].
    destruct (d_ltb (getRateMB b) limit) eqn:Hslow.
    + unfold wrap64. rewrite Z.mod_small by lia.
      rewrite IH by lia. f_equal. lia.
    + rewrite countSlower_none; [f_equal; lia|].
      eapply List.Forall_impl; [|exact Hb]. simpl. intros z Hz.
      unfold slowerThan in Hz. exact (d_ltb_ntrans _ _ _ Hz Hslow).
Qed.

(** The scan stops at the first record that meets or exceeds the limit:
    the records before the count are slower, the one at the count is not. *)
Lemma countSlower_prefix (limit : double) (l : list BlockStats) :
  ascending slowerThan l →
  List.Forall (fun b => d_ltb (getRateMB b) limit = true)
              (take (Z.to_nat (countSlower limit l)) l) ∧
  (∀ b, l !! Z.to_nat (countSlower limit l) = Some b → d_ltb (getRateMB b) limit = false).
Proof.
  unfold ascending. induction 1 as [|b l Hl IH Hb]; simpl.
  - split; [constructor | intros b Hb; discriminate].
  - pose proof (countSlower_nonneg limit l) as Hnn.
    destruct (d_ltb (getRateMB b) limit) eqn:Hslow.
    + replace (Z.to_nat (1 + countSlower limit l))
        with (S (Z.to_nat (countSlower limit l))) by lia.
      simpl. destruct IH as [IH1 IH2]. split; [constructor; assumption | exact IH2].
    + rewrite countSlower_none.
      * simpl. split; [constructor | intros b' Hb'; congruence].
      * eapply List.Forall_impl; [|exact Hb]. simpl. intros z Hz.
        unfold slowerThan in Hz. exact (d_ltb_ntrans _ _ _ Hz Hslow).
Qed.

Lemma vec_get_lookup {A} (v : list A) (i : Z) :
  0 ≤ i → vec_get v i = v !! Z.to_nat i.
Proof. intros Hi. unfold vec_get. destruct (decide _); [reflexivity | lia]. Qed.

Lemma vec_get_in_range {A} (v : list A) (i : Z) :
  0 ≤ i < Z.of_nat (length v) → ∃ a, vec_get v i = Some a ∧ v !! Z.to_nat i = Some a.
Proof.
  intros Hi. rewrite vec_get_lookup by lia.
  destruct (lookup_lt_is_Some_2 v (Z.to_nat i) ltac:(lia)) as [a Ha].
  exists a. split; exact Ha.
Qed.

(** The loop that writes the CSV lines. *)
Lemma csv_lines_ok (stats : list BlockStats) (n : nat) (from : Z)
    (acc : list (Z * double * Z)) (s : Sys) :
  0 ≤ from → from + Z.of_nat n ≤ Z.of_nat (length stats) →
  ∃ lines,
    forRange n from
      (fun i acc =>
         let* b := inRange "blockStats" (vec_get stats i) in
         ret (acc ++ [(i, time b, errors b)])) acc s = Ok (lines, s).
Proof.
  revert from acc. induction n as [|n IH]; intros from acc Hfrom Hlen; simpl.
  - exists acc. reflexivity.
  - destruct (vec_get_in_range stats from ltac:(lia)) as (b & Hb & _).
    unfold bind at 1. unfold bind at 1. rewrite Hb. simpl.
    apply IH; lia.
Qed.


Lemma bind_Ok {A B} (m : M A) (k : A → M B) (s s1 : Sys) (a : A) :
  m s = Ok (a, s1) → bind m k s = k a s1.
Proof. intros Hm. unfold bind. rewrite Hm. reflexivity. Qed.

Lemma writeTimingData_ok (readWrite : string) (s : Sys) :
  0 ≤ numBlocks (self s) ≤ Z.of_nat (length (blockStats (self s))) →
  (outfile (self s) = EmptyString ∨ (ofstream_open (world s)).1 = true) →
  ∃ s1, writeTimingData readWrite s = Ok (tt, s1) ∧
        self s1 = self s ∧ cout s1 = cout s ∧ strace s1 = strace s ∧
        disengagedDerefs s1 = disengagedDerefs s.
Proof.
  intros Hn Hout. unfold writeTimingData.
  unfold bind at 1, getSelf at 1.
  destruct (String.eqb (outfile (self s)) EmptyString) eqn:Hempty.
  - exists s. repeat split; reflexivity.
  - destruct Hout as [Hout|Hout]; [rewrite Hout in Hempty; discriminate|].
    unfold bind at 1, liftW at 1.
    destruct (ofstream_open (world s)) as [opened w1] eqn:Hopen.
    simpl in Hout. subst opened. simpl.
    match goal with |- context [bind _ _ ?s1] =>
      destruct (csv_lines_ok (blockStats (self s)) (Z.to_nat (numBlocks (self s))) 0 [] s1
                  ltac:(lia) ltac:(lia)) as (lines & Hlines)
    end.
    rewrite (bind_Ok _ _ _ _ _ Hlines). unfold storeOutfile. simpl.
    eexists. repeat split; reflexivity.
Qed.

Lemma forEach_warnSlower (sorted : list BlockStats) (n : Z) (med : double)
    (pcts : list Z) (s : Sys) :
  ascending slowerThan sorted → Z.of_nat (length sorted) = n → n < two64 →
  ∃ s', forEach pcts (warnSlower sorted n med) s = Ok (tt, s') ∧
        self s' = self s ∧ cout s' = cout s ++ slowWarnings med sorted pcts ∧
        strace s' = strace s ∧ disengagedDerefs s' = disengagedDerefs s.
Proof.
  intros Hs Hlen Hn. revert s.
  induction pcts as [|pct pcts IH]; intros s; simpl.
  - exists s. rewrite app_nil_r. repeat split; reflexivity.
  - unfold bind at 1, warnSlower at 1, bind at 1.
    rewrite (slowerPrefix_count sorted n _ 0 Hs) by lia.
    rewrite Z.add_0_l. unfold inRange, ret at 1.
    destruct (decide (countSlower (slowLimit med pct) sorted ≠ 0)) as [Hnz|Hz]; simpl.
    + match goal with |- context [forEach _ _ ?s1] => destruct (IH s1) as (s' & Hrun & Hself & Hcout & Hst & Hd) end.
      exists s'. rewrite Hrun, Hself, Hcout, Hst, Hd. simpl.
      rewrite <- app_assoc. repeat split; reflexivity.
    + destruct (IH s) as (s' & Hrun & Hself & Hcout & Hst & Hd).
      exists s'. rewrite Hrun. repeat split; assumption.
Qed.

(** What [printPassStats] does on a state whose vector of records has
    [numBlocks >= 1] entries. *)
Lemma printPassStats_spec (read : bool) (s : Sys) :
  1 ≤ numBlocks (self s) < two64 →
  Z.of_nat (length (blockStats (self s))) = numBlocks (self s) →
  (outfile (self s) = EmptyString ∨ (ofstream_open (world s)).1 = true) →
  let sorted := std_sort slowerThan (blockStats (self s)) in
  ∃ s' first middle last errs avg,
    printPassStats read s = Ok (tt, s') ∧
    self s' = set_blockStats sorted (self s) ∧
    sorted !! 0%nat = Some first ∧
    sorted !! Z.to_nat (numBlocks (self s) - 1) = Some last ∧
    sorted !! Z.to_nat (numBlocks (self s) / 2) = Some middle ∧
    cout s' = cout s ++
      OutPassStats (wrap64 (passIndex (self s) + 1)) (numPasses (self s))
        (if read then "read" else "write")%string errs
        (getRateMB first) avg (getRateMB middle) (getRateMB last)
      :: slowWarnings (getRateMB middle) sorted percentiles ∧
    strace s' = strace s ∧ disengagedDerefs s' = disengagedDerefs s.
Proof.
  intros Hn Hlen Hout sorted.
  destruct (writeTimingData_ok (if read then "read" else "write")%string s ltac:(lia) Hout)
    as (s1 & Hrun1 & Hself1 & Hcout1 & Hst1 & Hd1).
  assert (Hslen : Z.of_nat (length sorted) = numBlocks (self s))
    by (unfold sorted; rewrite std_sort_length; exact Hlen).
  destruct (vec_get_in_range sorted 0 ltac:(lia)) as (first & Hg0 & Hl0).
  destruct (vec_get_in_range sorted (numBlocks (self s) - 1) ltac:(lia))
    as (last & Hg1 & Hl1).
  assert (Hhalf : 0 ≤ numBlocks (self s) / 2 < numBlocks (self s))
    by (split; [apply Z.div_pos; lia | apply Z.div_lt_upper_bound; lia]).
  destruct (vec_get_in_range sorted (numBlocks (self s) / 2) ltac:(lia))
    as (middle & Hg2 & Hl2).
  unfold printPassStats.
  rewrite (bind_Ok _ _ _ _ _ Hrun1).
  unfold bind at 1, getSelf at 1. rewrite Hself1. fold sorted.
  unfold bind at 1, modifySelf at 1.
  unfold wrap64 at 1. rewrite (Z.mod_small (numBlocks (self s) - 1)) by lia.
  rewrite Hg0, Hg1, Hg2. unfold inRange.
  unfold bind at 1, ret at 1. unfold bind at 1, ret at 1. unfold bind at 1, ret at 1.
  unfold bind at 1, print at 1.
  match goal with |- context [forEach _ _ ?s2] =>
    destruct (forEach_warnSlower sorted (numBlocks (self s)) (getRateMB middle)
                percentiles s2 (std_sort_slowerThan_ascending _) Hslen ltac:(lia))
      as (s' & Hrun & Hself & Hcout & Hst & Hd)
  end.
  simpl in Hself, Hcout, Hst, Hd.
  exists s', first, middle, last. eexists. eexists.
  split; [exact Hrun|].
  rewrite Hself, Hcout, Hst, Hd, Hself1, Hcout1, Hst1, Hd1.
  rewrite <- app_assoc. simpl.
  repeat split; try reflexivity; assumption.
Qed.

(** In an ascending vector no record is slower than the first or faster
    than the last. *)
Lemma ascending_extremes (sorted : list BlockStats) (first last : BlockStats) :
  ascending slowerThan sorted →
  sorted !! 0%nat = Some first → sorted !! (length sorted - 1)%nat = Some last →
  ∀ b, b ∈ sorted →
    d_ltb (getRateMB b) (getRateMB first) = false ∧
    d_ltb (getRateMB last) (getRateMB b) = false.
Proof.
  intros Hasc H0 H1 b Hb.
  apply list_elem_of_lookup in Hb. destruct Hb as [k Hk].
  pose proof (lookup_lt_Some _ _ _ Hk) as Hlt.
  split.
  - destruct k as [|k].
    + rewrite H0 in Hk. injection Hk as <-. apply d_ltb_irrefl.
    + exact (ascending_lookup slowerThan _ 0 (S k) first b Hasc ltac:(lia) H0 Hk).
  - destruct (decide (k = (length sorted - 1)%nat)) as [->|Hne].
    + rewrite H1 in Hk. injection Hk as <-. apply d_ltb_irrefl.
    + exact (ascending_lookup slowerThan _ k (length sorted - 1) b last Hasc
               ltac:(lia) Hk H1).
Qed.

End Stats.

(** ** The rational instance is ordered *)

Lemma Qltb_lt (x y : Q) : Qltb x y = true ↔ (x < y)%Q.
Proof. unfold Qltb, Qlt. apply Z.ltb_lt. Qed.

Lemma QDouble_order : @DoubleOrder QDouble.
Proof.
  split; simpl.
  - intros x. unfold Qltb. apply Z.ltb_irrefl.
  - intros x y z Hxy Hyz. apply Qltb_lt. apply Qltb_lt in Hxy, Hyz.
    eapply Qlt_trans; eassumption.
  - intros x z y Hxz. apply Qltb_lt in Hxz.
    destruct (Qlt_le_dec x y) as [Hlt|Hle].
    + left. apply Qltb_lt. exact Hlt.
    + right. apply Qltb_lt. eapply Qle_lt_trans; eassumption.
Qed.


(** ** Running the engine: inversion of completed runs *)

Lemma Ok_inv {A} (a a' : A) : @Ok A a = Ok a' → a = a'.
Proof. intros Heq. injection Heq as ->. reflexivity. Qed.

(** The term a nest of [match]es (applied or not) finally inspects. *)
Ltac spine_scrutinee t :=
  lazymatch t with
  | match ?y with _ => _ end => spine_scrutinee y
  | ?f _ =>
      lazymatch f with
      | match ?y with _ => _ end => spine_scrutinee y
      | _ => t
      end
  | _ => t
  end.

(** One step of the inversion of [H : run = Ok _]: a finished run gives
    its result, a failed run is absurd, a pending one is split on what it
    inspects next. *)
Ltac run_step H :=
  lazymatch type of H with
  | Ok _ = Ok _ => apply Ok_inv in H; try (injection H; clear H; intros); subst
  | Throw _ = Ok _ => discriminate H
  | Undefined _ = Ok _ => discriminate H
  | ?lhs = Ok _ =>
      let y := spine_scrutinee lhs in
      lazymatch y with
      | lhs => fail
      | _ => destruct y eqn:?; simpl in H
      end
  end.

Ltac run_inv H := simpl in H; repeat run_step H.

Section Blocks.
Context `{D : DoubleOps} {IO : BlockIO}.

Lemma bind_Ok_inv {A B} (m : M A) (k : A → M B) (s : Sys) (r : B * Sys) :
  bind m k s = Ok r → ∃ a s1, m s = Ok (a, s1) ∧ k a s1 = Ok r.
Proof.
  unfold bind. destruct (m s) as [[a s1]|e|u]; intros Hk; try discriminate.
  exists a, s1. split; [reflexivity | exact Hk].
Qed.

Lemma printProgress_inv (blockIndex : Z) (s s' : Sys) :
  printProgress blockIndex s = Ok (tt, s') → onlyProgress s s'.
Proof.
  unfold printProgress, bind, liftW, getSelf, print, modifySelf, ret, inRange, undefined.
  intros Hrun. run_inv Hrun; unfold onlyProgress; simpl.
  all: split; [first [left; reflexivity | right; eexists; reflexivity]|].
  all: split; [first [exists []; rewrite app_nil_r; reflexivity
                     | eexists; rewrite <- ?app_assoc; reflexivity]|].
  all: repeat split; reflexivity.
Qed.

Lemma modifyBlock_inv (blockIndex : Z) (f : BlockStats → BlockStats) (s s' : Sys) :
  modifyBlock blockIndex f s = Ok (tt, s') →
  ∃ b, 0 ≤ blockIndex < Z.of_nat (length (blockStats (self s))) ∧
       blockStats (self s) !! Z.to_nat blockIndex = Some b ∧
       s' = {| self := set_blockStats (<[Z.to_nat blockIndex := f b]> (blockStats (self s)))
                                      (self s);
               world := world s; cout := cout s; outfiles := outfiles s;
               strace := strace s; disengagedDerefs := disengagedDerefs s |}.
Proof.
  unfold modifyBlock, bind, getSelf, modifySelf, inRange, ret, undefined, vec_get, vec_set.
  intros Hrun. run_inv Hrun.
  eexists. split; [assumption|]. split; reflexivity.
Qed.

Lemma verifyBlock_inv (n : nat) (from : Z) (buffer expected : list Z) (blockIndex : Z)
    (s s' : Sys) :
  0 ≤ from →
  verifyBlock n from buffer expected blockIndex s = Ok (tt, s') →
  (take n (drop (Z.to_nat from) buffer) = take n (drop (Z.to_nat from) expected) ∧ s' = s) ∨
  (take n (drop (Z.to_nat from) buffer) ≠ take n (drop (Z.to_nat from) expected) ∧
   ∃ b wanted actual,
     0 ≤ blockIndex < Z.of_nat (length (blockStats (self s))) ∧
     blockStats (self s) !! Z.to_nat blockIndex = Some b ∧
     s' = {| self := set_totalRead (incErrors (totalRead (self s)))
                       (set_blockStats (<[Z.to_nat blockIndex := incErrors b]>
                                          (blockStats (self s))) (self s));
             world := world s; cout := cout s ++ [OutDataError wanted actual blockIndex];
             outfiles := outfiles s; strace := strace s;
             disengagedDerefs := disengagedDerefs s |}).
Proof.
  revert from. induction n as [|n IH]; intros from Hfrom Hrun; simpl in Hrun.
  - unfold ret in Hrun. apply Ok_inv in Hrun. injection Hrun as <-.
    left. split; reflexivity.
  - apply bind_Ok_inv in Hrun. destruct Hrun as (actual & s1 & Hact & Hrun).
    unfold inRange, ret, undefined in Hact.
    destruct (vec_get buffer from) as [a|] eqn:Ha; [|discriminate].
    apply Ok_inv in Hact. injection Hact as <- <-.
    apply bind_Ok_inv in Hrun. destruct Hrun as (wanted & s1 & Hwant & Hrun).
    unfold inRange, ret, undefined in Hwant.
    destruct (vec_get expected from) as [e|] eqn:He; [|discriminate].
    apply Ok_inv in Hwant. injection Hwant as <- <-.
    rewrite vec_get_lookup in Ha, He by lia.
    rewrite (drop_S _ _ _ Ha), (drop_S _ _ _ He). simpl.
    destruct (decide (a ≠ e)) as [Hne|Heq].
    + right. split; [congruence|].
      apply bind_Ok_inv in Hrun. destruct Hrun as ([] & s1 & Hpr & Hrun).
      unfold print in Hpr. apply Ok_inv in Hpr. injection Hpr as <-.
      apply bind_Ok_inv in Hrun. destruct Hrun as ([] & s2 & Hmod & Hrun).
      apply modifyBlock_inv in Hmod.
      destruct Hmod as (b & Hi & Hb & ->). simpl in *.
      unfold modifySelf in Hrun. apply Ok_inv in Hrun. injection Hrun as <-.
      exists b, e, a. simpl. split; [exact Hi|]. split; [exact Hb | reflexivity].
    + assert (a = e) as -> by (destruct (decide (a = e)); [assumption | contradiction]).
      specialize (IH (from + 1) ltac:(lia) Hrun).
      replace (Z.to_nat (from + 1)) with (S (Z.to_nat from)) in IH by lia.
      destruct IH as [[Hsame ->]|[Hdiff Hrest]].
      * left. split; [rewrite Hsame; reflexivity | reflexivity].
      * right. split; [congruence | exact Hrest].
Qed.

Lemma onlyProgress_fields (s s' : Sys) :
  onlyProgress s s' →
  blockStats (self s') = blockStats (self s) ∧ totalRead (self s') = totalRead (self s) ∧
  totalWrite (self s') = totalWrite (self s) ∧ sameDevice (self s) (self s') ∧
  passIndex (self s') = passIndex (self s) ∧ numPasses (self s') = numPasses (self s) ∧
  strace s' = strace s ∧ disengagedDerefs s' = disengagedDerefs s.
Proof.
  intros ([Hself|[t Hself]] & _ & _ & Hst & Hd); rewrite Hself; unfold sameDevice; simpl;
    repeat split; assumption.
Qed.

Lemma posix_read_inv (fd : Z) (buffer : list Z) (count result : Z) (buffer' : list Z)
    (s s' : Sys) :
  posix_read fd buffer count s = Ok ((result, buffer'), s') →
  self s' = self s ∧ cout s' = cout s ∧ outfiles s' = outfiles s ∧
  strace s' = strace s ++ [SysRead count result] ∧
  disengagedDerefs s' = disengagedDerefs s ∧
  (result < 0 → buffer' = buffer).
Proof.
  unfold posix_read, readOutcome, bind, liftW, logSyscall, ret.
  intros Hrun. run_inv Hrun; simpl; repeat split; try reflexivity; lia.
Qed.

Lemma posix_write_inv (fd : Z) (buffer : list Z) (count result : Z) (s s' : Sys) :
  posix_write fd buffer count s = Ok (result, s') →
  self s' = self s ∧ cout s' = cout s ∧ outfiles s' = outfiles s ∧
  strace s' = strace s ++ [SysWrite count result] ∧
  disengagedDerefs s' = disengagedDerefs s.
Proof.
  unfold posix_write, bind, liftW, logSyscall, ret.
  intros Hrun. run_inv Hrun; simpl; repeat split; reflexivity.
Qed.

Lemma readBlock_spec (pattern : optional_u8) (fd blockIndex : Z)
    (buffer expected buffer' expected' : list Z) (s s' : Sys) :
  readBlock pattern fd blockIndex (buffer, expected) s = Ok ((buffer', expected'), s') →
  let c := self s in
  let accessSize := accessSizeAt (blockSize c) (sizeBytes c) blockIndex in
  ∃ result elapsed b,
    0 ≤ blockIndex < Z.of_nat (length (blockStats c)) ∧
    blockStats c !! Z.to_nat blockIndex = Some b ∧
    initBlock expected blockIndex (payload pattern) = Some expected' ∧
    strace s' = strace s ++ [SysRead accessSize result] ∧
    disengagedDerefs s' =
      (if has_value pattern then disengagedDerefs s else S (disengagedDerefs s)) ∧
    sameDevice c (self s') ∧ passIndex (self s') = passIndex c ∧
    numPasses (self s') = numPasses c ∧ totalWrite (self s') = totalWrite c ∧
    (result < 0 → buffer' = buffer) ∧
    let bad := dataMismatch pattern (blockSize c) buffer' expected' in
    blockStats (self s') =
      <[Z.to_nat blockIndex := recordTransfer result elapsed accessSize bad b]> (blockStats c) ∧
    totalRead (self s') = recordTransfer result elapsed accessSize bad (totalRead c).
Proof.
  unfold readBlock, deref, bind, liftW, getSelf, modifySelf, ret, inRange, undefined.
  intros Hrun. run_inv Hrun.
  all: repeat match goal with
       | u : unit |- _ => destruct u
       | H : verifyBlock _ _ _ _ _ _ = Ok _ |- _ =>
           apply verifyBlock_inv in H; [|lia]; simpl in H
       | H : posix_read _ _ _ _ = Ok _ |- _ =>
           apply posix_read_inv in H; simpl in H;
           destruct H as (Hr_self & _ & _ & Hr_st & Hr_d & Hr_buf)
       | H : modifyBlock _ _ _ = Ok _ |- _ =>
           apply modifyBlock_inv in H; simpl in H; destruct H as (bm & Hm_i & Hm_b & Hm_s)
       | H : printProgress _ _ = Ok _ |- _ =>
           apply printProgress_inv, onlyProgress_fields in H; simpl in H;
           destruct H as (Hp_bs & Hp_tr & Hp_tw & Hp_dev & Hp_pi & Hp_np & Hp_st & Hp_d)
       end.
  - (* the read failed *)
    subst s1. simpl in *. rewrite Hr_self in *.
    exists z, d_zero, bm. unfold recordTransfer. rewrite Heqs1.
    rewrite Hp_st, Hp_d, Hp_bs, Hp_tr, Hp_tw, Hp_pi, Hp_np.
    destruct Hp_dev as (? & ? & ? & ? & ? & ?). unfold sameDevice. simpl in *.
    repeat split; first [assumption | lia].
  - (* the read returned; a pattern is verified *)
    replace (Z.to_nat 0) with 0%nat in Heqo1 by reflexivity. rewrite !drop_0 in Heqo1.
    destruct Heqo1 as [[Hsame ->]|[Hdiff (b0 & wanted & actual & Hi & Hb0 & ->)]];
      subst s2; simpl in *; rewrite Hr_self in *.
    + exists z, (d_sub d0 d), bm. unfold recordTransfer, dataMismatch.
      rewrite Heqs1, Heqb, bool_decide_eq_true_2 by exact Hsame. simpl.
      rewrite Hp_st, Hp_d, Hp_bs, Hp_tr, Hp_tw, Hp_pi, Hp_np.
      destruct Hp_dev as (? & ? & ? & ? & ? & ?). unfold sameDevice. simpl in *.
      repeat split; first [assumption | lia].
    + exists z, (d_sub d0 d), b0. unfold recordTransfer, dataMismatch.
      rewrite Heqs1, Heqb, bool_decide_eq_false_2 by exact Hdiff. simpl.
      rewrite list_lookup_insert_eq in Hm_b by lia. injection Hm_b as <-.
      rewrite list_insert_insert_eq in Hp_bs.
      rewrite length_insert in Hm_i.
      rewrite Hp_st, Hp_d, Hp_bs, Hp_tr, Hp_tw, Hp_pi, Hp_np.
      destruct Hp_dev as (? & ? & ? & ? & ? & ?). unfold sameDevice. simpl in *.
      repeat split; first [assumption | lia].
  - (* the read returned; no pattern *)
    subst s1. simpl in *. rewrite Hr_self in *.
    exists z, (d_sub d0 d), bm. unfold recordTransfer, dataMismatch.
    rewrite Heqs1, Heqb. simpl.
    rewrite Hp_st, Hp_d, Hp_bs, Hp_tr, Hp_tw, Hp_pi, Hp_np.
    destruct Hp_dev as (? & ? & ? & ? & ? & ?). unfold sameDevice. simpl in *.
    repeat split; first [assumption | lia].
Qed.
Lemma writeBlock_spec (pattern fd blockIndex : Z) (buffer buffer' : list Z) (s s' : Sys) :
  writeBlock pattern fd blockIndex buffer s = Ok (buffer', s') →
  let c := self s in
  let accessSize := accessSizeAt (blockSize c) (sizeBytes c) blockIndex in
  ∃ result elapsed b,
    0 ≤ blockIndex < Z.of_nat (length (blockStats c)) ∧
    blockStats c !! Z.to_nat blockIndex = Some b ∧
    initBlock buffer blockIndex pattern = Some buffer' ∧
    strace s' = strace s ++ [SysWrite accessSize result] ∧
    disengagedDerefs s' = disengagedDerefs s ∧
    sameDevice c (self s') ∧ passIndex (self s') = passIndex c ∧
    numPasses (self s') = numPasses c ∧ totalRead (self s') = totalRead c ∧
    blockStats (self s') =
      <[Z.to_nat blockIndex := recordTransfer result elapsed accessSize false b]>
        (blockStats c) ∧
    totalWrite (self s') = recordTransfer result elapsed accessSize false (totalWrite c).
Proof.
  unfold writeBlock, bind, liftW, getSelf, modifySelf, ret, inRange, undefined.
  intros Hrun. run_inv Hrun.
  all: repeat match goal with
       | u : unit |- _ => destruct u
       | H : posix_write _ _ _ _ = Ok _ |- _ =>
           apply posix_write_inv in H; simpl in H;
           destruct H as (Hr_self & _ & _ & Hr_st & Hr_d)
       | H : modifyBlock _ _ _ = Ok _ |- _ =>
           apply modifyBlock_inv in H; simpl in H; destruct H as (bm & Hm_i & Hm_b & Hm_s)
       | H : printProgress _ _ = Ok _ |- _ =>
           apply printProgress_inv, onlyProgress_fields in H; simpl in H;
           destruct H as (Hp_bs & Hp_tr & Hp_tw & Hp_dev & Hp_pi & Hp_np & Hp_st & Hp_d)
       end.
  - subst s1. simpl in *. rewrite Hr_self in *.
    exists z, d_zero, bm. unfold recordTransfer. rewrite Heqs1.
    rewrite Hp_st, Hp_d, Hp_bs, Hp_tr, Hp_tw, Hp_pi, Hp_np.
    destruct Hp_dev as (? & ? & ? & ? & ? & ?). unfold sameDevice. simpl in *.
    repeat split; first [assumption | lia].
  - subst s1. simpl in *. rewrite Hr_self in *.
    exists z, (d_sub d0 d), bm. unfold recordTransfer. rewrite Heqs1.
    rewrite Hp_st, Hp_d, Hp_bs, Hp_tr, Hp_tw, Hp_pi, Hp_np.
    destruct Hp_dev as (? & ? & ? & ? & ? & ?). unfold sameDevice. simpl in *.
    repeat split; first [assumption | lia].
Qed.

End Blocks.

(** ** Pass executor: one block *)

(** [sysFor] is the state the constructor returns on the simulated
    device. *)
Lemma sysFor_constructed (size : nat) (blockSize_ : Z) (patterns_ : list Z)
    (calls : list (Fault * Q)) :
  size ≠ 0%nat → blockSize_ ≠ 0 →
  BlockChecker_new "dev" blockSize_ patterns_ EmptyString (scripted size 0%Q calls)
  = Ok (sysFor size blockSize_ patterns_ calls).
Proof.
  intros Hsize HB. unfold BlockChecker_new, sysFor. simpl.
  rewrite length_replicate.
  destruct (decide (blockSize_ = 0)); [contradiction|].
  destruct (decide (Z.of_nat size = 0)); [lia | reflexivity].
Qed.

(** ** Pass executor: the block loop *)

Section Passes.
Context `{D : DoubleOps} {IO : BlockIO}.

Lemma sumBytes_insert (l : list BlockStats) (i : nat) (b b' : BlockStats) :
  l !! i = Some b → sumBytes (<[i := b']> l) = sumBytes l - bytes b + bytes b'.
Proof.
  unfold sumBytes. revert i. induction l as [|x l IH]; intros i Hi; [discriminate|].
  destruct i as [|i]; simpl in *.
  - injection Hi as ->. lia.
  - rewrite (IH i Hi). lia.
Qed.

Lemma sumBytes_perm (l1 l2 : list BlockStats) :
  Permutation l1 l2 → sumBytes l1 = sumBytes l2.
Proof.
  unfold sumBytes. induction 1 as [|x l1 l2 _ IH|x y l|l1 l2 l3 _ IH1 _ IH2]; simpl; lia.
Qed.

Lemma sumBytes_zero (n : nat) : sumBytes (replicate n BlockStats_zero) = 0.
Proof. unfold sumBytes. induction n as [|n IH]; simpl; [reflexivity | exact IH]. Qed.

Lemma recordTransfer_bytes (result : Z) (elapsed : double) (accessSize : Z) (bad : bool)
    (b : BlockStats) :
  bytes (recordTransfer result elapsed accessSize bad b) =
  if decide (result < 0) then bytes b else wrap64 (bytes b + accessSize).
Proof.
  unfold recordTransfer. destruct (decide (result < 0)); [reflexivity|].
  destruct bad; reflexivity.
Qed.

Lemma accessSizeAt_range (B S i : Z) :
  0 < B < two64 → 0 ≤ accessSizeAt B S i < two64.
Proof.
  intros HB. unfold accessSizeAt. destruct (decide _); [|lia].
  pose proof (Z.mod_pos_bound S B ltac:(lia)). lia.
Qed.

Lemma readBlock_blockStep (pattern : optional_u8) (fd : Z) :
  blockStep (readBlock pattern fd) (passCall (ReadPass pattern)).
Proof.
  intros blockIndex [buffer expected] s [buffer' expected'] s' Hrun.
  destruct (readBlock_spec _ _ _ _ _ _ _ _ _ Hrun)
    as (result & elapsed & b & Hi & Hb & _ & Hst & _ & Hdev & _ & _ & _ & _ & Hbs & _).
  cbv zeta in *. exists result, elapsed. eexists. exists b.
  split; [exact Hi|]. split; [exact Hb|]. split; [exact Hst|]. split; [exact Hdev|].
  exact Hbs.
Qed.

Lemma writeBlock_blockStep (pattern fd : Z) :
  blockStep (writeBlock pattern fd) (passCall (WritePass pattern)).
Proof.
  intros blockIndex buffer s buffer' s' Hrun.
  destruct (writeBlock_spec _ _ _ _ _ _ _ Hrun)
    as (result & elapsed & b & Hi & Hb & _ & Hst & _ & Hdev & _ & _ & _ & Hbs & _).
  cbv zeta in *. exists result, elapsed, false, b.
  split; [exact Hi|]. split; [exact Hb|]. split; [exact Hst|]. split; [exact Hdev|].
  exact Hbs.
Qed.

(** The block loop over fresh records: the calls it makes ask for the
    access lengths of its blocks in order, and the records' bytes grow by
    what the calls that did not fail asked for. *)
Lemma blockLoop_bytes {Acc} (body : Z → Acc → M Acc) (mk : Z * Z → Syscall) (n : nat) :
  blockStep body mk →
  ∀ (from : Z) (acc : Acc) (s : Sys) (acc' : Acc) (s' : Sys),
    0 ≤ from → 0 < blockSize (self s) < two64 →
    (∀ j b, (Z.to_nat from ≤ j)%nat → blockStats (self s) !! j = Some b → bytes b = 0) →
    forRange n from body acc s = Ok (acc', s') →
    ∃ calls,
      strace s' = strace s ++ map mk calls ∧
      map fst calls =
        map (fun k => accessSizeAt (blockSize (self s)) (sizeBytes (self s))
                        (from + Z.of_nat k)) (seq 0 n) ∧
      sumBytes (blockStats (self s')) =
        sumBytes (blockStats (self s)) + sumZ (map accounted calls) ∧
      sameDevice (self s) (self s').
Proof.
  intros Hstep. induction n as [|n IH]; intros from acc s acc' s' Hfrom HB Hfresh Hrun;
    simpl in Hrun.
  - unfold ret in Hrun. apply Ok_inv in Hrun. injection Hrun as <- <-.
    exists []. simpl. rewrite app_nil_r.
    unfold sameDevice. repeat split; try reflexivity; lia.
  - apply bind_Ok_inv in Hrun. destruct Hrun as (acc1 & s1 & Hbody & Hrun).
    destruct (Hstep _ _ _ _ _ Hbody)
      as (result & elapsed & bad & b & Hi & Hb & Hst1 & Hdev1 & Hbs1).
    pose proof Hdev1 as (Hfn & Hof & HB1 & HS1 & Hn1 & Hp1).
    assert (Hb0 : bytes b = 0) by (apply (Hfresh (Z.to_nat from) b); [lia | exact Hb]).
    specialize (IH (from + 1) acc1 s1 acc' s' ltac:(lia) ltac:(rewrite HB1; exact HB)).
    destruct IH as (calls & Hst & Hfst & Hsum & Hdev); [|exact Hrun|].
    { intros j b0 Hj Hlook. rewrite Hbs1 in Hlook.
      rewrite list_lookup_insert_ne in Hlook by lia.
      apply (Hfresh j b0); [lia | exact Hlook]. }
    exists ((accessSizeAt (blockSize (self s)) (sizeBytes (self s)) from, result) :: calls).
    split; [rewrite Hst, Hst1, <- app_assoc; reflexivity|].
    split.
    { simpl. rewrite Z.add_0_r. f_equal. rewrite Hfst, HB1, HS1.
      rewrite <- seq_shift, map_map. apply map_ext. intros k. f_equal. lia. }
    split.
    { rewrite Hsum, Hbs1, (sumBytes_insert _ _ _ _ Hb), recordTransfer_bytes, Hb0.
      simpl. unfold accounted. simpl.
      destruct (decide (result < 0)); [lia|].
      unfold wrap64. rewrite Z.add_0_l.
      rewrite Z.mod_small by (apply accessSizeAt_range; exact HB). lia. }
    destruct Hdev as (? & ? & ? & ? & ? & ?). unfold sameDevice.
    repeat split; congruence.
Qed.

(** *** [printPassStats] only reorders the records *)

Lemma csv_lines_inv (stats : list BlockStats) (n : nat) (from : Z)
    (acc acc' : list (Z * double * Z)) (s s' : Sys) :
  forRange n from
    (fun i acc =>
       let* b := inRange "blockStats" (vec_get stats i) in
       ret (acc ++ [(i, time b, errors b)])) acc s = Ok (acc', s') →
  s' = s.
Proof.
  revert from acc s. induction n as [|n IH]; intros from acc s Hrun; simpl in Hrun.
  - unfold ret in Hrun. apply Ok_inv in Hrun. injection Hrun as _ <-. reflexivity.
  - apply bind_Ok_inv in Hrun. destruct Hrun as (acc1 & s1 & Hbody & Hrun).
    unfold bind, inRange, ret, undefined in Hbody.
    destruct (vec_get stats from); [|discriminate].
    apply Ok_inv in Hbody. injection Hbody as _ <-.
    exact (IH _ _ _ Hrun).
Qed.

Lemma writeTimingData_inv (readWrite : string) (s s' : Sys) :
  writeTimingData readWrite s = Ok (tt, s') →
  self s' = self s ∧ cout s' = cout s ∧ strace s' = strace s ∧
  disengagedDerefs s' = disengagedDerefs s.
Proof.
  unfold writeTimingData, bind, getSelf, liftW, storeOutfile, throw, ret.
  intros Hrun. run_inv Hrun; try (repeat split; reflexivity).
  match goal with H : forRange _ _ _ _ _ = Ok _ |- _ => apply csv_lines_inv in H; subst end.
  repeat split; reflexivity.
Qed.

Lemma forEach_warnSlower_inv (sorted : list BlockStats) (n : Z) (med : double)
    (pcts : list Z) (s s' : Sys) :
  forEach pcts (warnSlower sorted n med) s = Ok (tt, s') →
  self s' = self s ∧ strace s' = strace s ∧ disengagedDerefs s' = disengagedDerefs s.
Proof.
  revert s. induction pcts as [|pct pcts IH]; intros s Hrun; simpl in Hrun.
  - unfold ret in Hrun. apply Ok_inv in Hrun. injection Hrun as <-.
    repeat split; reflexivity.
  - apply bind_Ok_inv in Hrun. destruct Hrun as ([] & s1 & Hwarn & Hrun).
    apply IH in Hrun. destruct Hrun as (Hself & Hst & Hd).
    unfold warnSlower, bind, inRange, print, ret, undefined in Hwarn.
    run_inv Hwarn; simpl in *; repeat split; assumption.
Qed.

Lemma printPassStats_inv (read : bool) (s s' : Sys) :
  printPassStats read s = Ok (tt, s') →
  Permutation (blockStats (self s')) (blockStats (self s)) ∧
  sameDevice (self s) (self s') ∧ passIndex (self s') = passIndex (self s) ∧
  totalRead (self s') = totalRead (self s) ∧ totalWrite (self s') = totalWrite (self s) ∧
  strace s' = strace s ∧ disengagedDerefs s' = disengagedDerefs s.
Proof.
  unfold printPassStats. intros Hrun.
  apply bind_Ok_inv in Hrun. destruct Hrun as ([] & s1 & Hcsv & Hrun).
  apply writeTimingData_inv in Hcsv. destruct Hcsv as (Hself1 & _ & Hst1 & Hd1).
  unfold bind, getSelf, modifySelf, inRange, print, ret, undefined in Hrun.
  run_inv Hrun.
  apply (forEach_warnSlower_inv _ _ _ percentiles) in Hrun. simpl in Hrun.
  destruct Hrun as (Hself & Hst & Hd).
  rewrite Hself, Hst, Hd, Hself1, Hst1, Hd1. unfold sameDevice. simpl.
  split; [apply std_sort_perm|]. repeat split; reflexivity.
Qed.

(** *** A whole pass *)

(** The end of a pass: from the block loop's account to the pass's. *)
Lemma pass_bytes_finish (mk : Z * Z → Syscall) (ro : bool) (fd : Z) (s s0 s1 s2 : Sys)
    (calls : list (Z * Z)) :
  0 < blockSize (self s) < two64 →
  self s0 = self s → blockStats (self s1) = replicate (Z.to_nat (numBlocks (self s)))
                                              BlockStats_zero →
  sameDevice (self s) (self s1) → strace s1 = strace s ++ [SysOpen ro fd] →
  strace s2 = strace s1 ++ map mk calls →
  map fst calls =
    map (fun k => accessSizeAt (blockSize (self s1)) (sizeBytes (self s1)) (0 + Z.of_nat k))
        (seq 0 (Z.to_nat (numBlocks (self s)))) →
  sumBytes (blockStats (self s2)) = sumBytes (blockStats (self s1)) + sumZ (map accounted calls) →
  sameDevice (self s1) (self s2) →
  strace s2 ++ [SysClose fd] =
    strace s ++ SysOpen ro fd :: map mk calls ++ [SysClose fd] ∧
  map fst calls = accessSizes (blockSize (self s)) (sizeBytes (self s))
                    (Z.to_nat (numBlocks (self s))) ∧
  sumBytes (blockStats (self s2)) = sumZ (map accounted calls) ∧
  sameDevice (self s) (self s2).
Proof.
  intros HB _ Hfresh Hdev1 Hst1 Hst2 Hfst Hsum Hdev2.
  destruct Hdev1 as (? & ? & HB1 & HS1 & ? & ?).
  split; [rewrite Hst2, Hst1, <- !app_assoc; reflexivity|].
  split; [rewrite Hfst, HB1, HS1; reflexivity|].
  split; [rewrite Hsum, Hfresh, sumBytes_zero; lia|].
  destruct Hdev2 as (? & ? & ? & ? & ? & ?). unfold sameDevice.
  repeat split; congruence.
Qed.

Lemma readPass_bytes (pattern : optional_u8) (s s' : Sys) :
  0 < blockSize (self s) < two64 →
  readPass pattern s = Ok (tt, s') →
  ∃ fd calls,
    strace s' = strace s ++ SysOpen true fd :: map (passCall (ReadPass pattern)) calls
                  ++ [SysClose fd] ∧
    map fst calls = accessSizes (blockSize (self s)) (sizeBytes (self s))
                      (Z.to_nat (numBlocks (self s))) ∧
    sumBytes (blockStats (self s')) = sumZ (map accounted calls) ∧
    sameDevice (self s) (self s').
Proof.
  intros HB. unfold readPass, deref, bind, liftW, getSelf, getWorld, logSyscall, modifySelf,
    throw, ret.
  intros Hrun. run_inv Hrun. destruct u.
  apply (blockLoop_bytes _ _ _ (readBlock_blockStep pattern z)) in Heqo;
    [| lia | exact HB
     | simpl; intros j b _ Hb; apply lookup_replicate in Hb; destruct Hb as [-> _];
       reflexivity].
  destruct Heqo as (calls & Hst & Hfst & Hsum & Hdev). simpl in Hst, Hfst, Hsum, Hdev.
  apply printPassStats_inv in Heqo0. simpl in Heqo0.
  destruct Heqo0 as (Hperm & Hdev' & _ & _ & _ & Hst' & _).
  exists z, calls. simpl. rewrite Hst', (sumBytes_perm _ _ Hperm).
  match type of Hdev with sameDevice ?c1 _ =>
    destruct (pass_bytes_finish (passCall (ReadPass pattern)) true z s s
                {| self := c1; world := world s; cout := cout s; outfiles := outfiles s;
                   strace := strace s ++ [SysOpen true z];
                   disengagedDerefs := disengagedDerefs s |}
                s0 calls HB eq_refl eq_refl) as (H1 & H2 & H3 & H4);
      try assumption; try reflexivity
  end.
  { unfold sameDevice. simpl. repeat split; reflexivity. }
  split; [exact H1|]. split; [exact H2|]. split; [exact H3|].
  destruct H4 as (? & ? & ? & ? & ? & ?). destruct Hdev' as (? & ? & ? & ? & ? & ?).
  unfold sameDevice. simpl. repeat split; congruence.
Qed.

Lemma writePass_bytes (pattern : Z) (s s' : Sys) :
  0 < blockSize (self s) < two64 →
  writePass pattern s = Ok (tt, s') →
  ∃ fd calls,
    strace s' = strace s ++ SysOpen false fd :: map (passCall (WritePass pattern)) calls
                  ++ [SysClose fd] ∧
    map fst calls = accessSizes (blockSize (self s)) (sizeBytes (self s))
                      (Z.to_nat (numBlocks (self s))) ∧
    sumBytes (blockStats (self s')) = sumZ (map accounted calls) ∧
    sameDevice (self s) (self s').
Proof.
  intros HB. unfold writePass, bind, liftW, getSelf, getWorld, logSyscall, modifySelf,
    throw, ret.
  intros Hrun. run_inv Hrun. destruct u.
  apply (blockLoop_bytes _ _ _ (writeBlock_blockStep pattern z)) in Heqo;
    [| lia | exact HB
     | simpl; intros j b _ Hb; apply lookup_replicate in Hb; destruct Hb as [-> _];
       reflexivity].
  destruct Heqo as (calls & Hst & Hfst & Hsum & Hdev). simpl in Hst, Hfst, Hsum, Hdev.
  apply printPassStats_inv in Heqo0. simpl in Heqo0.
  destruct Heqo0 as (Hperm & Hdev' & _ & _ & _ & Hst' & _).
  exists z, calls. simpl. rewrite Hst', (sumBytes_perm _ _ Hperm).
  match type of Hdev with sameDevice ?c1 _ =>
    destruct (pass_bytes_finish (passCall (WritePass pattern)) false z s s
                {| self := c1; world := world s; cout := cout s; outfiles := outfiles s;
                   strace := strace s ++ [SysOpen false z];
                   disengagedDerefs := disengagedDerefs s |}
                s0 calls HB eq_refl eq_refl) as (H1 & H2 & H3 & H4);
      try assumption; try reflexivity
  end.
  { unfold sameDevice. simpl. repeat split; reflexivity. }
  split; [exact H1|]. split; [exact H2|]. split; [exact H3|].
  destruct H4 as (? & ? & ? & ? & ? & ?). destruct Hdev' as (? & ? & ? & ? & ? & ?).
  unfold sameDevice. simpl. repeat split; congruence.
Qed.

(** *** A read pass without a pattern *)

Lemma wrap64_succ (x k : Z) : wrap64 (wrap64 (x + k) + 1) = wrap64 (x + (1 + k)).
Proof.
  unfold wrap64. rewrite Z.add_mod_idemp_l by (unfold two64; lia). f_equal. lia.
Qed.

Lemma readOnlyLoop (pattern : optional_u8) (fd : Z) (n : nat) :
  has_value pattern = false →
  ∀ (from : Z) (locals : list Z * list Z) (s : Sys) (locals' : list Z * list Z) (s' : Sys),
    forRange n from (readBlock pattern fd) locals s = Ok (locals', s') →
    ∃ calls,
      strace s' = strace s ++ map (passCall (ReadPass pattern)) calls ∧
      disengagedDerefs s' = (n + disengagedDerefs s)%nat ∧
      wrap64 (errors (totalRead (self s')))
        = wrap64 (errors (totalRead (self s)) + failedCount calls) ∧
      numBlocks (self s') = numBlocks (self s).
Proof.
  intros Hnone. induction n as [|n IH]; intros from locals s locals' s' Hrun; simpl in Hrun.
  - unfold ret in Hrun. apply Ok_inv in Hrun. injection Hrun as <- <-.
    exists []. simpl. rewrite app_nil_r, Z.add_0_r. repeat split; reflexivity.
  - apply bind_Ok_inv in Hrun. destruct Hrun as ([buffer1 expected1] & s1 & Hbody & Hrun).
    destruct locals as [buffer expected].
    destruct (readBlock_spec _ _ _ _ _ _ _ _ _ Hbody)
      as (result & elapsed & b & _ & _ & _ & Hst1 & Hd1 & Hdev1 & _ & _ & _ & _ & _ & Htr1).
    cbv zeta in Htr1. rewrite Hnone in Hd1.
    destruct (IH _ _ _ _ _ Hrun) as (calls & Hst & Hd & Herr & Hn).
    exists ((accessSizeAt (blockSize (self s)) (sizeBytes (self s)) from, result) :: calls).
    split; [rewrite Hst, Hst1, <- app_assoc; reflexivity|].
    split; [rewrite Hd, Hd1; lia|].
    split; [|destruct Hdev1 as (_ & _ & _ & _ & Hn1 & _); congruence].
    rewrite Herr, Htr1. unfold recordTransfer, dataMismatch, failedCount.
    rewrite Hnone. simpl.
    destruct (decide (result < 0)); simpl.
    + fold (failedCount calls). unfold wrap64.
      rewrite <- (Z.add_mod_idemp_l (_ mod _)) by (unfold two64; lia).
      rewrite Z.mod_mod by (unfold two64; lia).
      rewrite Z.add_mod_idemp_l by (unfold two64; lia). f_equal. lia.
    + reflexivity.
Qed.

Lemma checkReadOnly_inv (s s' : Sys) :
  checkReadOnly s = Ok (tt, s') →
  ∃ fd calls,
    strace s' = strace s ++ SysOpen true fd :: map (fun call => SysRead call.1 call.2) calls
                  ++ [SysClose fd] ∧
    wrap64 (errors (totalRead (self s')))
      = wrap64 (errors (totalRead (self s)) + failedCount calls) ∧
    disengagedDerefs s' = (S (Z.to_nat (numBlocks (self s))) + disengagedDerefs s)%nat.
Proof.
  unfold checkReadOnly, readPass, deref, bind, liftW, getSelf, getWorld, logSyscall,
    modifySelf, throw, ret.
  intros Hrun. run_inv Hrun. destruct u.
  apply (readOnlyLoop (nullopt (indeterminate_u8 (world s))) _ _ eq_refl) in Heqo.
  destruct Heqo as (calls & Hst & Hd & Herr & Hn). simpl in Hst, Hd, Herr, Hn.
  apply printPassStats_inv in Heqo0. simpl in Heqo0.
  destruct Heqo0 as (_ & _ & _ & Htr & _ & Hst' & Hd').
  exists z, calls. simpl. rewrite Hst', Hd', Htr, Hst, Hd, Herr, <- !app_assoc.
  repeat split; try reflexivity. lia.
Qed.

(** *** A completed pass ends in [printPassStats] *)

Lemma blockLoop_samePlan {Acc} (body : Z → Acc → M Acc) (n : nat) :
  (∀ i acc s acc' s', body i acc s = Ok (acc', s') → samePlan s s') →
  ∀ (from : Z) (acc : Acc) (s : Sys) (acc' : Acc) (s' : Sys),
    forRange n from body acc s = Ok (acc', s') → samePlan s s'.
Proof.
  intros Hstep. induction n as [|n IH]; intros from acc s acc' s' Hrun; simpl in Hrun.
  - unfold ret in Hrun. apply Ok_inv in Hrun. injection Hrun as <- <-.
    unfold samePlan. repeat split; reflexivity.
  - apply bind_Ok_inv in Hrun. destruct Hrun as (acc1 & s1 & Hbody & Hrun).
    apply Hstep in Hbody. apply IH in Hrun.
    destruct Hbody as (? & ? & ? & ?). destruct Hrun as (? & ? & ? & ?).
    unfold samePlan. repeat split; congruence.
Qed.

Lemma readBlock_samePlan (pattern : optional_u8) (fd : Z) i acc s acc' s' :
  readBlock pattern fd i acc s = Ok (acc', s') → samePlan s s'.
Proof.
  destruct acc as [buffer expected], acc' as [buffer' expected']. intros Hrun.
  destruct (readBlock_spec _ _ _ _ _ _ _ _ _ Hrun)
    as (result & elapsed & b & _ & _ & _ & _ & _ & Hdev & Hpi & Hnp & _ & _ & Hbs & _).
  cbv zeta in Hbs. destruct Hdev as (_ & _ & _ & _ & Hn & _).
  unfold samePlan. rewrite Hbs, length_insert. repeat split; assumption.
Qed.

Lemma writeBlock_samePlan (pattern fd : Z) i acc s acc' s' :
  writeBlock pattern fd i acc s = Ok (acc', s') → samePlan s s'.
Proof.
  intros Hrun.
  destruct (writeBlock_spec _ _ _ _ _ _ _ Hrun)
    as (result & elapsed & b & _ & _ & _ & _ & _ & Hdev & Hpi & Hnp & _ & Hbs & _).
  cbv zeta in Hbs. destruct Hdev as (_ & _ & _ & _ & Hn & _).
  unfold samePlan. rewrite Hbs, length_insert. repeat split; assumption.
Qed.

(** A completed pass has run [printPassStats] on the [numBlocks] records
    of its block loop, and ends in the state that leaves but for
    [passIndex]. *)
Lemma pass_reaches_stats (p : Pass) (s s' : Sys) :
  runPass p s = Ok (tt, s') →
  ∃ st s1,
    printPassStats (match p with ReadPass _ => true | WritePass _ => false end) st
      = Ok (tt, s1) ∧
    passIndex (self st) = passIndex (self s) ∧ numPasses (self st) = numPasses (self s) ∧
    numBlocks (self st) = numBlocks (self s) ∧
    length (blockStats (self st)) = Z.to_nat (numBlocks (self s)) ∧
    blockStats (self s') = blockStats (self s1) ∧ cout s' = cout s1.
Proof.
  destruct p as [pattern|pattern]; simpl.
  - unfold readPass, deref, bind, liftW, getSelf, getWorld, logSyscall, modifySelf,
      throw, ret.
    intros Hrun. run_inv Hrun. destruct u.
    apply (blockLoop_samePlan _ _ (readBlock_samePlan pattern z)) in Heqo.
    destruct Heqo as (Hpi & Hnp & Hn & Hlen). simpl in Hpi, Hnp, Hn, Hlen.
    rewrite length_replicate in Hlen.
    eexists. exists s1. split; [exact Heqo0|]. simpl. repeat split; assumption.
  - unfold writePass, bind, liftW, getSelf, getWorld, logSyscall, modifySelf, throw, ret.
    intros Hrun. run_inv Hrun. destruct u.
    apply (blockLoop_samePlan _ _ (writeBlock_samePlan pattern z)) in Heqo.
    destruct Heqo as (Hpi & Hnp & Hn & Hlen). simpl in Hpi, Hnp, Hn, Hlen.
    rewrite length_replicate in Hlen.
    eexists. exists s1. split; [exact Heqo0|]. simpl. repeat split; assumption.
Qed.

(** [printPassStats] completes only if the output file, when asked for,
    could be opened and there is a record to report. *)
Lemma printPassStats_pre (read : bool) (s s' : Sys) :
  printPassStats read s = Ok (tt, s') →
  (outfile (self s) = EmptyString ∨ (ofstream_open (world s)).1 = true) ∧
  (1 ≤ length (blockStats (self s)))%nat.
Proof.
  unfold printPassStats. intros Hrun.
  apply bind_Ok_inv in Hrun. destruct Hrun as ([] & s1 & Hcsv & Hrun).
  split.
  - clear Hrun. unfold writeTimingData, bind, getSelf, liftW, storeOutfile, throw, ret in Hcsv.
    destruct (String.eqb (outfile (self s)) EmptyString) eqn:Hempty.
    + left. apply String.eqb_eq. exact Hempty.
    + right. destruct (ofstream_open (world s)) as [opened w1]. simpl in *.
      destruct opened; [reflexivity | discriminate].
  - apply writeTimingData_inv in Hcsv. destruct Hcsv as (Hself1 & _).
    unfold bind, getSelf, modifySelf, inRange, print, ret, undefined in Hrun.
    simpl in Hrun. rewrite Hself1 in Hrun.
    destruct (vec_get (std_sort slowerThan (blockStats (self s))) 0) as [b|] eqn:Hb;
      [|discriminate].
    rewrite vec_get_lookup in Hb by lia. apply lookup_lt_Some in Hb.
    rewrite std_sort_length in Hb. simpl in Hb. lia.
Qed.

Lemma completed_pass_has_block (p : Pass) (s s' : Sys) :
  runPass p s = Ok (tt, s') → 1 ≤ numBlocks (self s).
Proof.
  intros Hrun.
  destruct (pass_reaches_stats p s s' Hrun) as (st & s1 & Hstats & _ & _ & _ & Hlen & _).
  destruct (printPassStats_pre _ _ _ Hstats) as [_ Hone]. rewrite Hlen in Hone. lia.
Qed.

Lemma completed_pass_stats {O : DoubleOrder} (p : Pass) (s s' : Sys) :
  is_u64 (numBlocks (self s)) →
  runPass p s = Ok (tt, s') →
  ∃ st first middle last errs avg,
    let sorted := std_sort slowerThan (blockStats (self st)) in
    1 ≤ numBlocks (self s) ∧
    Z.of_nat (length (blockStats (self st))) = numBlocks (self s) ∧
    blockStats (self s') = sorted ∧
    sorted !! 0%nat = Some first ∧
    sorted !! Z.to_nat (numBlocks (self s) - 1) = Some last ∧
    sorted !! Z.to_nat (numBlocks (self s) / 2) = Some middle ∧
    cout s' = cout st ++
      OutPassStats (wrap64 (passIndex (self s) + 1)) (numPasses (self s))
        (match p with ReadPass _ => "read" | WritePass _ => "write" end)%string errs
        (getRateMB first) avg (getRateMB middle) (getRateMB last)
      :: slowWarnings (getRateMB middle) sorted percentiles.
Proof.
  intros [Hn0 Hn1] Hrun.
  destruct (pass_reaches_stats p s s' Hrun)
    as (st & s1 & Hstats & Hpi & Hnp & Hn & Hlen & Hbs & Hcout).
  destruct (printPassStats_pre _ _ _ Hstats) as [Hout Hone].
  assert (Hlen' : Z.of_nat (length (blockStats (self st))) = numBlocks (self st))
    by (rewrite Hn; lia).
  destruct (printPassStats_spec (match p with ReadPass _ => true | WritePass _ => false end)
              st ltac:(lia) Hlen' Hout)
    as (s1' & first & middle & last & errs & avg & Hrun' & Hself & H0 & H1 & H2 & Hc & _).
  rewrite Hstats in Hrun'. apply Ok_inv in Hrun'. injection Hrun' as <-.
  exists st, first, middle, last, errs, avg. cbv zeta.
  rewrite Hbs, Hcout, Hself, Hc, <- Hn, <- Hpi, <- Hnp. simpl.
  split; [lia|]. split; [exact Hlen'|]. split; [reflexivity|].
  split; [exact H0|]. split; [exact H1|]. split; [exact H2|].
  destruct p; reflexivity.
Qed.

End Passes.

(** ** A completed pass accounts for the bytes of the calls that did not fail *)

Lemma accounted_le (calls : list (Z * Z)) :
  List.Forall (fun z => 0 ≤ z) (map fst calls) →
  sumZ (map accounted calls) ≤ sumZ (map fst calls).
Proof.
  induction calls as [|[count result] calls IH]; simpl; intros Hall; [lia|].
  apply List.Forall_cons_iff in Hall. destruct Hall as [Hc Hall].
  specialize (IH Hall). unfold accounted at 1. simpl in *.
  destruct (decide (result < 0)); lia.
Qed.

Lemma accounted_all (calls : list (Z * Z)) :
  List.Forall (fun call => 0 ≤ call.2) calls →
  sumZ (map accounted calls) = sumZ (map fst calls).
Proof.
  induction 1 as [|[count result] calls Hc _ IH]; simpl; [reflexivity|].
  unfold accounted at 1. simpl in *. destruct (decide (result < 0)); lia.
Qed.

(** With positive lengths, the account is complete only if no call
    failed. *)
Lemma accounted_all_inv (calls : list (Z * Z)) :
  List.Forall (fun z => 0 < z) (map fst calls) →
  sumZ (map accounted calls) = sumZ (map fst calls) →
  List.Forall (fun call => 0 ≤ call.2) calls.
Proof.
  induction calls as [|[count result] calls IH]; simpl; intros Hall Hsum; [constructor|].
  apply List.Forall_cons_iff in Hall. destruct Hall as [Hc Hall]. simpl in Hc.
  assert (Hle : sumZ (map accounted calls) ≤ sumZ (map fst calls)).
  { apply accounted_le. eapply List.Forall_impl; [|exact Hall]. simpl. intros; lia. }
  unfold accounted at 1 in Hsum. simpl in Hsum.
  destruct (decide (result < 0)); [lia|].
  constructor; [simpl; lia|]. apply IH; [exact Hall | lia].
Qed.

Lemma accessSizes_nonneg (B S : Z) (n : nat) :
  0 < B < two64 → List.Forall (fun z => 0 ≤ z) (accessSizes B S n).
Proof.
  intros HB. unfold accessSizes. apply List.Forall_forall. intros z Hz.
  apply in_map_iff in Hz. destruct Hz as (i & <- & _).
  pose proof (accessSizeAt_range B S (Z.of_nat i) HB). lia.
Qed.

Lemma accessSizes_pos (B S : Z) :
  0 < S → 0 < B → S + B ≤ two64 →
  List.Forall (fun z => 0 < z) (accessSizes B S (Z.to_nat (numBlocksOf S B))).
Proof.
  intros HS HB Hno.
  destruct (block_geometry_holds _ _ HS HB Hno) as (Hceil & Hlens & _).
  unfold accessSizes. apply List.Forall_forall. intros z Hz.
  apply in_map_iff in Hz. destruct Hz as (i & <- & Hi). apply in_seq in Hi.
  rewrite (Hlens (Z.of_nat i)) by lia.
  pose proof (Z.mod_pos_bound S B HB).
  destruct (decide _) as [[Hr _]|_]; lia.
Qed.

(** C2 (as amended): for a completed pass (read or write) over a device
    with [sizeBytes > 0] and [blockSize > 0], the pass makes one read or
    write call per block, asking for the block's access length, and these
    lengths add up to [sizeBytes]; the sum of [BlockRecord.bytes] over all
    blocks is the sum of the lengths of the calls that did not fail (a
    failed block counts no bytes), so it is at most [sizeBytes] and equals
    [sizeBytes] exactly when no call failed. *)
Theorem pass_bytes_accounting (D : DoubleOps) (IO : BlockIO) (p : Pass) (s s' : Sys) :
  0 < sizeBytes (self s) < two64 → 0 < blockSize (self s) < two64 →
  numBlocks (self s) = numBlocksOf (sizeBytes (self s)) (blockSize (self s)) →
  runPass p s = Ok (tt, s') →
  ∃ fd calls,
    strace s' = strace s ++
      SysOpen (match p with ReadPass _ => true | WritePass _ => false end) fd
      :: map (passCall p) calls ++ [SysClose fd] ∧
    map fst calls = accessSizes (blockSize (self s)) (sizeBytes (self s))
                      (Z.to_nat (numBlocks (self s))) ∧
    sumZ (map fst calls) = sizeBytes (self s) ∧
    sumBytes (blockStats (self s')) = sumZ (map accounted calls) ∧
    sumBytes (blockStats (self s')) ≤ sizeBytes (self s) ∧
    (List.Forall (fun call => 0 ≤ call.2) calls ↔
     sumBytes (blockStats (self s')) = sizeBytes (self s)).
Proof.
  intros HS HB' Hn Hrun.
  assert (Hno : sizeBytes (self s) + blockSize (self s) ≤ two64).
  { destruct (Z_le_gt_dec (sizeBytes (self s) + blockSize (self s)) two64) as [Hle|Hgt];
      [exact Hle|].
    pose proof (completed_pass_has_block p s s' Hrun) as Hone.
    rewrite Hn, numBlocksOf_wrapped in Hone; unfold is_u64; lia. }
  assert (Hpass : ∃ fd calls,
            strace s' = strace s ++
              SysOpen (match p with ReadPass _ => true | WritePass _ => false end) fd
              :: map (passCall p) calls ++ [SysClose fd] ∧
            map fst calls = accessSizes (blockSize (self s)) (sizeBytes (self s))
                              (Z.to_nat (numBlocks (self s))) ∧
            sumBytes (blockStats (self s')) = sumZ (map accounted calls)).
  { destruct p as [pattern|pattern]; simpl in Hrun.
    - destruct (readPass_bytes pattern s s' HB' Hrun) as (fd & calls & H1 & H2 & H3 & _).
      exists fd, calls. repeat split; assumption.
    - destruct (writePass_bytes pattern s s' HB' Hrun) as (fd & calls & H1 & H2 & H3 & _).
      exists fd, calls. repeat split; assumption. }
  destruct Hpass as (fd & calls & Hst & Hfst & Hsum).
  destruct (block_geometry_holds (sizeBytes (self s)) (blockSize (self s))
              ltac:(lia) ltac:(lia) Hno) as (_ & Hlens & Hgeo).
  rewrite <- Hn in Hgeo.
  assert (Htotal : sumZ (map fst calls) = sizeBytes (self s)) by (rewrite Hfst; exact Hgeo).
  exists fd, calls.
  split; [exact Hst|]. split; [exact Hfst|]. split; [exact Htotal|]. split; [exact Hsum|].
  split.
  - rewrite Hsum, <- Htotal. apply accounted_le. rewrite Hfst.
    apply accessSizes_nonneg. exact HB'.
  - rewrite Hsum, <- Htotal. split; [apply accounted_all|].
    apply accounted_all_inv. rewrite Hfst, Hn.
    apply accessSizes_pos; lia.
Qed.

Lemma read_pass_completes : completed (runPass (ReadPass (nullopt 0)) (sysFor 20 8 [0] [])) = true.
Proof. vm_compute. reflexivity. Qed.

Lemma pass_bytes_accounting_witness :
  (0 < sizeBytes (self (sysFor 20 8 [0] [])) < two64 ∧
   0 < blockSize (self (sysFor 20 8 [0] [])) < two64 ∧
   numBlocks (self (sysFor 20 8 [0] []))
     = numBlocksOf (sizeBytes (self (sysFor 20 8 [0] [])))
                   (blockSize (self (sysFor 20 8 [0] [])))) ∧
  ∃ s' fd calls,
    runPass (ReadPass (nullopt 0)) (sysFor 20 8 [0] []) = Ok (tt, s') ∧
    strace s' = SysOpen true fd :: map (passCall (ReadPass (nullopt 0))) calls
                  ++ [SysClose fd] ∧
    map fst calls = [8; 8; 4] ∧
    sumBytes (blockStats (self s')) = sumZ (map accounted calls) ∧
    sumBytes (blockStats (self s')) ≤ 20.
Proof.
  assert (Hhyp : 0 < sizeBytes (self (sysFor 20 8 [0] [])) < two64 ∧
                 0 < blockSize (self (sysFor 20 8 [0] [])) < two64 ∧
                 numBlocks (self (sysFor 20 8 [0] []))
                   = numBlocksOf (sizeBytes (self (sysFor 20 8 [0] [])))
                                 (blockSize (self (sysFor 20 8 [0] [])))).
  { simpl. unfold two64. repeat split; lia. }
  split; [exact Hhyp|].
  destruct Hhyp as (HS & HB & Hn).
  pose proof read_pass_completes as Hdone.
  destruct (runPass (ReadPass (nullopt 0)) (sysFor 20 8 [0] [])) as [[[] s']|e|u] eqn:Hrun;
    [|discriminate Hdone|discriminate Hdone].
  destruct (pass_bytes_accounting QDouble SimDevice _ _ _ HS HB Hn Hrun)
    as (fd & calls & Hst & Hfst & _ & Hsum & Hle & _).
  exists s', fd, calls.
  split; [reflexivity|]. split; [exact Hst|]. split; [exact Hfst|].
  split; [exact Hsum | exact Hle].
Defined.

(** C2 as stated fails when a call fails: in a read pass over a device
    of 20 bytes in blocks of 8 whose first read fails, the pass completes
    and the records hold 12 bytes, not 20. *)
Lemma failed_block_counts_no_bytes :
  observe (runPass (ReadPass (nullopt 0)) (sysFor 20 8 [0] [(Fail, 0%Q)]))
    (fun s => (sizeBytes (self s), blockSize (self s), strace s,
               sumBytes (blockStats (self s))))
  = Some (20, 8, [SysOpen true 3; SysRead 8 (-1); SysRead 8 8; SysRead 4 4; SysClose 3], 12).
Proof. vm_compute. reflexivity. Qed.

(** ** Setup *)

(** C5 (code defect): with [blockSize = 0] the constructor divides by zero
    before it reaches its only check, the one of [sizeBytes]; no
    [InvalidDevice] error is raised for [blockSize = 0].  With a non-zero
    [blockSize] and [sizeBytes = 0] it throws "Cannot determine size!", and
    otherwise it returns before any pass has made a system call. *)
Theorem setup_blockSize_zero_divides :
  (∀ (D : DoubleOps) (IO : BlockIO) filename_ patterns_ outfile_ (w : World),
     BlockChecker_new filename_ 0 patterns_ outfile_ w = Undefined DivisionByZero) ∧
  (∀ (D : DoubleOps) (IO : BlockIO) filename_ blockSize_ patterns_ outfile_ (w : World),
     blockSize_ ≠ 0 → getFileSize filename_ w = 0 →
     BlockChecker_new filename_ blockSize_ patterns_ outfile_ w = Throw CannotDetermineSize) ∧
  (∀ (D : DoubleOps) (IO : BlockIO) filename_ blockSize_ patterns_ outfile_ (w : World),
     blockSize_ ≠ 0 → getFileSize filename_ w ≠ 0 →
     ∃ s, BlockChecker_new filename_ blockSize_ patterns_ outfile_ w = Ok s ∧
          strace s = [] ∧ world s = w ∧
          blockSize (self s) = blockSize_ ∧ sizeBytes (self s) = getFileSize filename_ w ∧
          numBlocks (self s) = numBlocksOf (getFileSize filename_ w) blockSize_) ∧
  run false "dev" 0 [0] EmptyString (healthy 20 0%Q) = Undefined DivisionByZero ∧
  run false "dev" 0 [0] EmptyString (healthy 0 0%Q) = Undefined DivisionByZero ∧
  run false "dev" 8 [0] EmptyString (healthy 0 0%Q) = Throw CannotDetermineSize.
Proof.
  split; [|split; [|split; [|split; [|split]]]]; try reflexivity.
  - intros D IO filename_ blockSize_ patterns_ outfile_ w HB HS.
    unfold BlockChecker_new. rewrite HS.
    destruct (decide (blockSize_ = 0)); [contradiction | reflexivity].
  - intros D IO filename_ blockSize_ patterns_ outfile_ w HB HS.
    unfold BlockChecker_new.
    destruct (decide (blockSize_ = 0)); [contradiction|].
    destruct (decide (getFileSize filename_ w = 0)); [contradiction|].
    eexists. split; [reflexivity|]. repeat split; reflexivity.
Qed.

(** ** Progress reporter *)

(** C4 (code defect): in write/read mode a progress line names the
    direction by the parity of [passIndex] (even: write, odd: read), but
    the pattern byte it shows is [patterns[passIndex]], not
    [patterns[passIndex / 2]]: with the patterns 0x55, 0xaa the read pass
    of 0x55 ([passIndex = 1]) is reported with pattern aa, and from
    [passIndex = patterns.size()] on the index is outside the vector (with
    one pattern, already in its read pass). *)
Theorem progress_line_pattern_index :
  (∀ (D : DoubleOps) (IO : BlockIO) (blockIndex : Z) (s : Sys),
     numPasses (self s) > 1 →
     d_ltb (d_sub (getTimeSec (world s)).1 (lastProgressTime (self s))) d_half = false →
     match printProgress blockIndex s with
     | Ok (_, s') =>
         ∃ pat line,
           vec_get (patterns (self s)) (passIndex (self s)) = Some pat ∧
           cout s' = cout s ++
             [OutPassPrefix
                (if decide (Z.land (passIndex (self s)) 1 ≠ 0) then "read" else "write")%string
                (wrap64 (passIndex (self s) + 1)) (numPasses (self s)) (hex2 pat);
              line]
     | Undefined u =>
         vec_get (patterns (self s)) (passIndex (self s)) = None ∧
         u = VectorOutOfRange "patterns"
     | Throw _ => False
     end) ∧
  observe (run true "dev" 8 [85; 170] EmptyString
             (scripted 16 0%Q [(NoFault, 0%Q); (NoFault, 0%Q); (NoFault, 1%Q)]))
    (fun s => (cout s !! 1%nat, cout s !! 2%nat,
               hex2 <$> vec_get (patterns (self s)) (1 / 2)))
  = Some (Some (OutPassStats 1 4 "write" 0 0%Q 0%Q 0%Q 0%Q),
          Some (OutPassPrefix "read" 2 4 "aa"), Some "55"%string) ∧
  run true "dev" 8 [85] EmptyString (healthy 16 1%Q) = Undefined (VectorOutOfRange "patterns").
Proof.
  split; [|split].
  - intros D IO blockIndex s Hpasses Hdue.
    unfold printProgress, bind, liftW, getSelf, print, modifySelf, ret, inRange, undefined.
    destruct (getTimeSec (world s)) as [t w1]. simpl in *. rewrite Hdue.
    destruct (decide (numPasses (self s) > 1)) as [_|Hn]; [|contradiction].
    destruct (vec_get (patterns (self s)) (passIndex (self s))) as [pat|]; simpl.
    + exists pat. eexists. split; [reflexivity|].
      rewrite <- app_assoc. reflexivity.
    + split; reflexivity.
  - vm_compute. reflexivity.
  - vm_compute. reflexivity.
Qed.

(** ** Session controller *)

(** C1 (code defect): a read-only run verifies nothing (a completed
    [checkReadOnly] counts exactly the failed reads as errors), but it
    does evaluate [*pattern] on the disengaged optional: once to fill the
    expected buffer and once per block for [initBlock], [numBlocks + 1]
    times in all.  On a device of three blocks whose content (zeros)
    differs from the indeterminate byte 0xcc, with one failed read, the
    run reports that one error, no data error, and four such
    evaluations. *)
Theorem readOnly_dereferences_absent_pattern :
  (∀ (D : DoubleOps) (IO : BlockIO) (s s' : Sys),
     checkReadOnly s = Ok (tt, s') →
     ∃ fd calls,
       strace s' = strace s ++
         SysOpen true fd :: map (fun call => SysRead call.1 call.2) calls ++ [SysClose fd] ∧
       wrap64 (errors (totalRead (self s')))
         = wrap64 (errors (totalRead (self s)) + failedCount calls) ∧
       disengagedDerefs s'
         = (S (Z.to_nat (numBlocks (self s))) + disengagedDerefs s)%nat) ∧
  observe (run false "dev" 8 [0] EmptyString
             (withJunk 204 (scripted 20 0%Q [(NoFault, 0%Q); (Fail, 0%Q)])))
    (fun s => (strace s, tail (cout s), errors (totalRead (self s)), numBlocks (self s),
               disengagedDerefs s))
  = Some ([SysOpen true 3; SysRead 8 8; SysRead 8 (-1); SysRead 4 4; SysClose 3],
          [OutPassStats 1 1 "read" 1 0%Q 0%Q 0%Q 0%Q; OutTransferRates 0%Q 0%Q;
           OutErrors 1 1 0],
          1, 3, 4%nat).
Proof.
  split.
  - intros D IO s s'. apply checkReadOnly_inv.
  - vm_compute. reflexivity.
Qed.

(** C3 (code defect): [readPass] compares all [blockSize] bytes of the
    buffer with the expected block although the read of a partial last
    block fills only [accessSize] of them.  On a healthy device of 10
    bytes with [blockSize = 16] and pattern 0x55, the write pass stores the
    10 bytes, the read pass gets the same 10 bytes back, and the rest of
    the zero-initialised buffer is reported as a data error:
    [totalRead.errors = 1].  Likewise on a healthy device of 2049 bytes
    with [blockSize = 8]: the one-byte block 256 is compared against what
    block 255 left in the buffer. *)
Theorem roundtrip_partial_block_error :
  observe (run true "dev" 16 [85] EmptyString (healthy 10 0%Q))
    (fun s => (strace s, disk (world s), tail (cout s),
               errors (totalWrite (self s)), errors (totalRead (self s))))
  = Some ([SysOpen false 3; SysWrite 10 10; SysClose 3;
           SysOpen true 3; SysRead 10 10; SysClose 3],
          replicate 10 85,
          [OutPassStats 1 2 "write" 0 0%Q 0%Q 0%Q 0%Q; OutDataError 85 0 0;
           OutPassStats 2 2 "read" 1 0%Q 0%Q 0%Q 0%Q; OutTransferRates 0%Q 0%Q;
           OutErrors 1 1 0],
          0, 1) ∧
  observe (run true "dev" 8 [85] EmptyString (healthy 2049 0%Q))
    (fun s => (numBlocks (self s), cout s !! 2%nat,
               errors (totalWrite (self s)), errors (totalRead (self s))))
  = Some (257, Some (OutDataError 84 85 256), 0, 1) ∧
  observe (run true "dev" 8 [85] EmptyString (healthy 2048 0%Q))
    (fun s => (numBlocks (self s), errors (totalWrite (self s)), errors (totalRead (self s))))
  = Some (256, 0, 0).
Proof.
  split; [|split]; vm_compute; reflexivity.
Qed.

(** ** Statistics aggregator: the claims *)

(** C7: every completed pass leaves its records sorted ascending by rate
    and has printed a summary whose min is the rate of record 0, max the
    rate of record [numBlocks - 1] and med the rate of record
    [numBlocks / 2] (integer division) of the sorted vector; no record is
    slower than min or faster than max.  The same holds of
    [printPassStats] on any [numBlocks >= 1] records, whose sorted vector
    is a permutation of them.  For the rates 10, 20, 30, 40, 50 MB/s (in
    any order) the summary shows min 10, med 30, max 50, and for the four
    rates 10..40 the med is the upper-middle 30. *)
Theorem pass_summary_min_med_max :
  (∀ (D : DoubleOps) (IO : BlockIO) (O : DoubleOrder) (p : Pass) (s s' : Sys),
     is_u64 (numBlocks (self s)) →
     runPass p s = Ok (tt, s') →
     ∃ before first middle last errs avg warnings,
       1 ≤ numBlocks (self s) ∧
       Z.of_nat (length (blockStats (self s'))) = numBlocks (self s) ∧
       ascending slowerThan (blockStats (self s')) ∧
       blockStats (self s') !! 0%nat = Some first ∧
       blockStats (self s') !! Z.to_nat (numBlocks (self s) - 1) = Some last ∧
       blockStats (self s') !! Z.to_nat (numBlocks (self s) / 2) = Some middle ∧
       cout s' = before ++
         OutPassStats (wrap64 (passIndex (self s) + 1)) (numPasses (self s))
           (match p with ReadPass _ => "read" | WritePass _ => "write" end)%string errs
           (getRateMB first) avg (getRateMB middle) (getRateMB last)
         :: warnings ∧
       (∀ b, b ∈ blockStats (self s') →
          d_ltb (getRateMB b) (getRateMB first) = false ∧
          d_ltb (getRateMB last) (getRateMB b) = false)) ∧
  (∀ (D : DoubleOps) (IO : BlockIO) (O : DoubleOrder) (read : bool) (s : Sys),
     1 ≤ numBlocks (self s) < two64 →
     Z.of_nat (length (blockStats (self s))) = numBlocks (self s) →
     (outfile (self s) = EmptyString ∨ (ofstream_open (world s)).1 = true) →
     ∃ s' first middle last errs avg warnings,
       printPassStats read s = Ok (tt, s') ∧
       Permutation (blockStats (self s')) (blockStats (self s)) ∧
       ascending slowerThan (blockStats (self s')) ∧
       blockStats (self s') !! 0%nat = Some first ∧
       blockStats (self s') !! Z.to_nat (numBlocks (self s) - 1) = Some last ∧
       blockStats (self s') !! Z.to_nat (numBlocks (self s) / 2) = Some middle ∧
       cout s' = cout s ++
         OutPassStats (wrap64 (passIndex (self s) + 1)) (numPasses (self s))
           (if read then "read" else "write")%string errs
           (getRateMB first) avg (getRateMB middle) (getRateMB last)
         :: warnings) ∧
  observe (printPassStats true (sysWithRates [30; 10; 50; 20; 40]))
    (fun s => (map getRateMB (blockStats (self s)), head (cout s)))
  = Some ([10; 20; 30; 40; 50]%Q,
          Some (OutPassStats 1 1 "read" 0 10%Q (3000 # 137)%Q 30%Q 50%Q)) ∧
  observe (printPassStats true (sysWithRates [40; 10; 30; 20]))
    (fun s => (map getRateMB (blockStats (self s)), head (cout s)))
  = Some ([10; 20; 30; 40]%Q,
          Some (OutPassStats 1 1 "read" 0 10%Q (96 # 5)%Q 30%Q 40%Q)).
Proof.
  split; [|split; [|split]].
  - intros D IO O p s s' Hu64 Hrun.
    destruct (completed_pass_stats p s s' Hu64 Hrun)
      as (st & first & middle & last & errs & avg & Hone & Hlen & Hbs & H0 & H1 & H2 & Hcout).
    cbv zeta in *.
    assert (Hslen : Z.of_nat (length (blockStats (self s'))) = numBlocks (self s))
      by (rewrite Hbs, std_sort_length; exact Hlen).
    pose proof (std_sort_slowerThan_ascending (blockStats (self st))) as Hasc.
    rewrite <- Hbs in Hasc, H0, H1, H2.
    exists (cout st), first, middle, last, errs, avg. eexists.
    split; [exact Hone|]. split; [exact Hslen|]. split; [exact Hasc|].
    split; [exact H0|]. split; [exact H1|]. split; [exact H2|].
    split; [exact Hcout|].
    apply (ascending_extremes _ first last Hasc H0).
    replace (length (blockStats (self s')) - 1)%nat
      with (Z.to_nat (numBlocks (self s) - 1)) by lia.
    exact H1.
  - intros D IO O read s Hn Hlen Hout.
    destruct (printPassStats_spec read s Hn Hlen Hout)
      as (s' & first & middle & last & errs & avg & Hrun & Hself & H0 & H1 & H2 & Hcout & _).
    exists s', first, middle, last, errs, avg.
    eexists. split; [exact Hrun|]. rewrite Hself. cbn [blockStats set_blockStats].
    split; [apply std_sort_perm|].
    split; [apply std_sort_slowerThan_ascending|].
    split; [exact H0|]. split; [exact H1|]. split; [exact H2|]. exact Hcout.
  - vm_compute. reflexivity.
  - vm_compute. reflexivity.
Qed.

Lemma timed_pass_completes :
  completed (runPass (ReadPass (nullopt 0))
               (sysFor 20 8 [0] [(NoFault, 2%Q); (NoFault, 1%Q); (NoFault, 4%Q)])) = true.
Proof. vm_compute. reflexivity. Qed.

Lemma pass_summary_min_med_max_witness :
  is_u64 (numBlocks (self (sysFor 20 8 [0] [(NoFault, 2%Q); (NoFault, 1%Q); (NoFault, 4%Q)]))) ∧
  ∃ s' before first middle last errs avg warnings,
    runPass (ReadPass (nullopt 0))
      (sysFor 20 8 [0] [(NoFault, 2%Q); (NoFault, 1%Q); (NoFault, 4%Q)]) = Ok (tt, s') ∧
    blockStats (self s') !! 0%nat = Some first ∧
    blockStats (self s') !! 2%nat = Some last ∧
    blockStats (self s') !! 1%nat = Some middle ∧
    cout s' = before ++
      OutPassStats 1 0 "read" errs (getRateMB first) avg (getRateMB middle) (getRateMB last)
      :: warnings ∧
    (∀ b, b ∈ blockStats (self s') →
       d_ltb (getRateMB b) (getRateMB first) = false ∧
       d_ltb (getRateMB last) (getRateMB b) = false).
Proof.
  assert (Hu64 : is_u64 (numBlocks (self (sysFor 20 8 [0]
                   [(NoFault, 2%Q); (NoFault, 1%Q); (NoFault, 4%Q)]))))
    by (unfold is_u64, two64; change (numBlocks _) with 3; lia).
  split; [exact Hu64|].
  pose proof timed_pass_completes as Hdone.
  destruct (runPass (ReadPass (nullopt 0))
              (sysFor 20 8 [0] [(NoFault, 2%Q); (NoFault, 1%Q); (NoFault, 4%Q)]))
    as [[[] s']|e|u] eqn:Hrun; [|discriminate Hdone|discriminate Hdone].
  destruct (proj1 pass_summary_min_med_max QDouble SimDevice QDouble_order _ _ _ Hu64 Hrun)
    as (before & first & middle & last & errs & avg & warnings
        & _ & _ & _ & H0 & H1 & H2 & Hcout & Hall).
  exists s', before, first, middle, last, errs, avg, warnings.
  split; [reflexivity|]. split; [exact H0|]. split; [exact H1|]. split; [exact H2|].
  split; [exact Hcout | exact Hall].
Defined.

(** C8: after the summary, every completed pass has printed, for each
    percentile of 50, 20, 10, 5 (in this order, each counted on its own
    over all records), a warning naming the percentile and the number of
    blocks whose rate is strictly below [med * percentile / 100], exactly
    when that number is not zero, and nothing else.  The number is what the
    scan of the sorted records from the start yields: the records before it
    are below the limit and the record at it, if any, is not.  The same
    holds of [printPassStats] on any [numBlocks >= 1] records.  For the
    rates 10..50 only the 50% limit (15 MB/s) has a slower block, exactly
    one. *)
Theorem pass_outlier_warnings :
  (∀ (D : DoubleOps) (IO : BlockIO) (O : DoubleOrder) (p : Pass) (s s' : Sys),
     is_u64 (numBlocks (self s)) →
     runPass p s = Ok (tt, s') →
     ∃ before middle summary,
       blockStats (self s') !! Z.to_nat (numBlocks (self s) / 2) = Some middle ∧
       cout s' = before ++
         summary :: slowWarnings (getRateMB middle) (blockStats (self s')) percentiles ∧
       (∀ percent,
          let limit := slowLimit (getRateMB middle) percent in
          let num := countSlower limit (blockStats (self s')) in
          slowerPrefix (blockStats (self s')) (numBlocks (self s)) limit 0 = Some num ∧
          List.Forall (fun b => d_ltb (getRateMB b) limit = true)
                      (take (Z.to_nat num) (blockStats (self s'))) ∧
          (∀ b, blockStats (self s') !! Z.to_nat num = Some b →
                d_ltb (getRateMB b) limit = false))) ∧
  (∀ (D : DoubleOps) (IO : BlockIO) (O : DoubleOrder) (read : bool) (s : Sys),
     1 ≤ numBlocks (self s) < two64 →
     Z.of_nat (length (blockStats (self s))) = numBlocks (self s) →
     (outfile (self s) = EmptyString ∨ (ofstream_open (world s)).1 = true) →
     ∃ s' middle summary,
       printPassStats read s = Ok (tt, s') ∧
       blockStats (self s') !! Z.to_nat (numBlocks (self s) / 2) = Some middle ∧
       cout s' = cout s ++
         summary :: slowWarnings (getRateMB middle) (blockStats (self s)) percentiles ∧
       (∀ percent,
          let limit := slowLimit (getRateMB middle) percent in
          let num := countSlower limit (blockStats (self s)) in
          slowerPrefix (blockStats (self s')) (numBlocks (self s)) limit 0 = Some num ∧
          List.Forall (fun b => d_ltb (getRateMB b) limit = true)
                      (take (Z.to_nat num) (blockStats (self s'))) ∧
          (∀ b, blockStats (self s') !! Z.to_nat num = Some b →
                d_ltb (getRateMB b) limit = false))) ∧
  percentiles = [50; 20; 10; 5] ∧
  (∀ (D : DoubleOps) (IO : BlockIO) med stats,
     slowWarnings med stats percentiles =
       flat_map (fun percent =>
                   if decide (countSlower (slowLimit med percent) stats ≠ 0)
                   then [OutWarning (d_of_u64 percent)
                                    (countSlower (slowLimit med percent) stats)]
                   else []) [50; 20; 10; 5]) ∧
  slowLimit 30%Q 50 = 15%Q ∧
  observe (printPassStats true (sysWithRates [30; 10; 50; 20; 40]))
    (fun s => tail (cout s)) = Some [OutWarning 50%Q 1].
Proof.
  split; [|split; [|split; [|split; [|split]]]].
  - intros D IO O p s s' Hu64 Hrun.
    destruct (completed_pass_stats p s s' Hu64 Hrun)
      as (st & first & middle & last & errs & avg & Hone & Hlen & Hbs & H0 & H1 & H2 & Hcout).
    cbv zeta in *.
    pose proof (std_sort_slowerThan_ascending (blockStats (self st))) as Hasc.
    rewrite <- Hbs in Hasc, H2, Hcout.
    exists (cout st), middle. eexists.
    split; [exact H2|]. split; [exact Hcout|].
    intros pct.
    split; [|apply countSlower_prefix; exact Hasc].
    rewrite (slowerPrefix_count _ (numBlocks (self s)) _ 0 Hasc); try (destruct Hu64; lia).
    + f_equal.
    + rewrite Hbs, std_sort_length. lia.
  - intros D IO O read s Hn Hlen Hout.
    destruct (printPassStats_spec read s Hn Hlen Hout)
      as (s' & first & middle & last & errs & avg & Hrun & Hself & H0 & H1 & H2 & Hcout & _).
    pose proof (std_sort_perm slowerThan (blockStats (self s))) as Hperm.
    pose proof (std_sort_slowerThan_ascending (blockStats (self s))) as Hasc.
    exists s', middle. eexists.
    split; [exact Hrun|]. rewrite Hself.
    cbn [blockStats set_blockStats].
    split; [exact H2|]. split.
    + rewrite Hcout. rewrite (slowWarnings_perm _ _ _ percentiles Hperm). reflexivity.
    + intros pct. cbv zeta.
      rewrite <- (countSlower_perm _ _ _ Hperm).
      split; [|apply countSlower_prefix; exact Hasc].
      rewrite (slowerPrefix_count _ (numBlocks (self s)) _ 0 Hasc); try lia.
      * f_equal.
      * rewrite std_sort_length. lia.
  - reflexivity.
  - intros D IO med stats. reflexivity.
  - vm_compute. reflexivity.
  - vm_compute. reflexivity.
Qed.

Lemma pass_outlier_warnings_witness :
  is_u64 (numBlocks (self (sysFor 20 8 [0] [(NoFault, 2%Q); (NoFault, 1%Q); (NoFault, 4%Q)]))) ∧
  ∃ s' before middle summary,
    runPass (ReadPass (nullopt 0))
      (sysFor 20 8 [0] [(NoFault, 2%Q); (NoFault, 1%Q); (NoFault, 4%Q)]) = Ok (tt, s') ∧
    blockStats (self s') !! 1%nat = Some middle ∧
    cout s' = before ++
      summary :: slowWarnings (getRateMB middle) (blockStats (self s')) percentiles.
Proof.
  assert (Hu64 : is_u64 (numBlocks (self (sysFor 20 8 [0]
                   [(NoFault, 2%Q); (NoFault, 1%Q); (NoFault, 4%Q)]))))
    by (unfold is_u64, two64; change (numBlocks _) with 3; lia).
  split; [exact Hu64|].
  pose proof timed_pass_completes as Hdone.
  destruct (runPass (ReadPass (nullopt 0))
              (sysFor 20 8 [0] [(NoFault, 2%Q); (NoFault, 1%Q); (NoFault, 4%Q)]))
    as [[[] s']|e|u] eqn:Hrun; [|discriminate Hdone|discriminate Hdone].
  destruct (proj1 pass_outlier_warnings QDouble SimDevice QDouble_order _ _ _ Hu64 Hrun)
    as (before & middle & summary & H2 & Hcout & _).
  exists s', before, middle, summary.
  split; [reflexivity|]. split; [exact H2 | exact Hcout].
Defined.

(** ** Round trip: what a pass does to the device *)

(** *** The world a completed step leaves *)

Section Worlds.
Context `{D : DoubleOps} {IO : BlockIO}.

Lemma printProgress_world (blockIndex : Z) (s s' : Sys) :
  printProgress blockIndex s = Ok (tt, s') → world s' = (getTimeSec (world s)).2.
Proof.
  unfold printProgress, bind, liftW, getSelf, print, modifySelf, ret, inRange, undefined.
  intros Hrun. run_inv Hrun; reflexivity.
Qed.

Lemma modifyBlock_world (blockIndex : Z) (f : BlockStats → BlockStats) (s s' : Sys) :
  modifyBlock blockIndex f s = Ok (tt, s') → world s' = world s.
Proof.
  intros Hrun. apply modifyBlock_inv in Hrun. destruct Hrun as (b & _ & _ & ->).
  reflexivity.
Qed.

Lemma verifyBlock_world (n : nat) (from : Z) (buffer expected : list Z) (blockIndex : Z)
    (s s' : Sys) :
  0 ≤ from → verifyBlock n from buffer expected blockIndex s = Ok (tt, s') → world s' = world s.
Proof.
  intros Hfrom Hrun. apply verifyBlock_inv in Hrun; [|exact Hfrom].
  destruct Hrun as [[_ ->]|[_ (b & wanted & actual & _ & _ & ->)]]; reflexivity.
Qed.

Lemma posix_read_world (fd : Z) (buffer : list Z) (count result : Z) (buffer' : list Z)
    (s s' : Sys) :
  posix_read fd buffer count s = Ok ((result, buffer'), s') →
  world s' = (sys_read fd count (world s)).2 ∧
  (result, buffer') = readOutcome (sys_read fd count (world s)).1 count buffer.
Proof.
  unfold posix_read, bind, liftW, logSyscall, ret, readOutcome.
  intros Hrun. run_inv Hrun; simpl; split; reflexivity.
Qed.

Lemma posix_write_world (fd : Z) (buffer : list Z) (count result : Z) (s s' : Sys) :
  posix_write fd buffer count s = Ok (result, s') →
  world s' = (sys_write fd (take (Z.to_nat count) buffer) (world s)).2 ∧
  result = match (sys_write fd (take (Z.to_nat count) buffer) (world s)).1 with
           | None => -1
           | Some n => Z.of_nat (Nat.min n (Z.to_nat count))
           end.
Proof.
  unfold posix_write, bind, liftW, logSyscall, ret.
  intros Hrun. run_inv Hrun; simpl; split; reflexivity.
Qed.

Lemma readBlock_world (pattern : optional_u8) (fd blockIndex : Z)
    (buffer expected buffer' expected' : list Z) (s s' : Sys) :
  readBlock pattern fd blockIndex (buffer, expected) s = Ok ((buffer', expected'), s') →
  let accessSize := accessSizeAt (blockSize (self s)) (sizeBytes (self s)) blockIndex in
  let rd := sys_read fd accessSize (getTimeSec (world s)).2 in
  world s' = (getTimeSec (getTimeSec rd.2).2).2 ∧
  ∃ result,
    strace s' = strace s ++ [SysRead accessSize result] ∧
    (result, buffer') = readOutcome rd.1 accessSize buffer.
Proof.
  unfold readBlock, deref, bind, liftW, getSelf, modifySelf, ret, inRange, undefined.
  intros Hrun. run_inv Hrun.
  all: repeat match goal with
       | u : unit |- _ => destruct u
       | H : verifyBlock _ _ _ _ _ _ = Ok _ |- _ =>
           apply verifyBlock_inv in H; [|lia]; simpl in H;
           destruct H as [[_ ->]|[_ (bv & wanted & actual & _ & _ & ->)]]
       | H : modifyBlock _ _ _ = Ok _ |- _ =>
           apply modifyBlock_inv in H; simpl in H; destruct H as (bm & _ & _ & ->)
       | H : printProgress _ _ = Ok _ |- _ =>
           pose proof (printProgress_world _ _ _ H) as Hp_w;
           apply printProgress_inv, onlyProgress_fields in H; simpl in H;
           destruct H as (_ & _ & _ & _ & _ & _ & Hp_st & _)
       | H : posix_read _ _ _ _ = Ok _ |- _ =>
           pose proof (posix_read_world _ _ _ _ _ _ _ H) as (Hr_w & Hr_out);
           apply posix_read_inv in H; simpl in H;
           destruct H as (_ & _ & _ & Hr_st & _ & _)
       end.
  all: simpl in *.
  all: rewrite <- Hr_w;
       match goal with Ht : getTimeSec (world _) = _ |- _ => rewrite Ht end; simpl.
  all: split; [exact Hp_w|]; eexists; split; [rewrite Hp_st; exact Hr_st | exact Hr_out].
Qed.

Lemma writeBlock_world (pattern fd blockIndex : Z) (buffer buffer' : list Z) (s s' : Sys) :
  writeBlock pattern fd blockIndex buffer s = Ok (buffer', s') →
  let accessSize := accessSizeAt (blockSize (self s)) (sizeBytes (self s)) blockIndex in
  let wr := sys_write fd (take (Z.to_nat accessSize) buffer') (getTimeSec (world s)).2 in
  world s' = (getTimeSec (getTimeSec wr.2).2).2 ∧
  ∃ result,
    strace s' = strace s ++ [SysWrite accessSize result] ∧
    result = match wr.1 with
             | None => -1
             | Some n => Z.of_nat (Nat.min n (Z.to_nat accessSize))
             end.
Proof.
  unfold writeBlock, bind, liftW, getSelf, modifySelf, ret, inRange, undefined.
  intros Hrun. run_inv Hrun.
  all: repeat match goal with
       | u : unit |- _ => destruct u
       | H : modifyBlock _ _ _ = Ok _ |- _ =>
           apply modifyBlock_inv in H; simpl in H; destruct H as (bm & _ & _ & ->)
       | H : printProgress _ _ = Ok _ |- _ =>
           pose proof (printProgress_world _ _ _ H) as Hp_w;
           apply printProgress_inv, onlyProgress_fields in H; simpl in H;
           destruct H as (_ & _ & _ & _ & _ & _ & Hp_st & _)
       | H : posix_write _ _ _ _ = Ok _ |- _ =>
           pose proof (posix_write_world _ _ _ _ _ _ H) as (Hw_w & Hw_out);
           apply posix_write_inv in H; simpl in H;
           destruct H as (_ & _ & _ & Hw_st & _)
       end.
  all: simpl in *.
  all: rewrite <- Hw_w;
       match goal with Ht : getTimeSec (world _) = _ |- _ => rewrite Ht end; simpl.
  all: split; [exact Hp_w|]; eexists; split; [rewrite Hp_st; exact Hw_st | exact Hw_out].
Qed.

Lemma writeTimingData_world (readWrite : string) (s s' : Sys) :
  writeTimingData readWrite s = Ok (tt, s') →
  world s' = if String.eqb (outfile (self s)) EmptyString then world s
             else (ofstream_open (world s)).2.
Proof.
  unfold writeTimingData, bind, getSelf, liftW, storeOutfile, throw, ret.
  intros Hrun. run_inv Hrun; try reflexivity.
  match goal with H : forRange _ _ _ _ _ = Ok _ |- _ => apply csv_lines_inv in H; subst end.
  reflexivity.
Qed.

Lemma forEach_warnSlower_world (sorted : list BlockStats) (n : Z) (med : double)
    (pcts : list Z) (s s' : Sys) :
  forEach pcts (warnSlower sorted n med) s = Ok (tt, s') → world s' = world s.
Proof.
  revert s. induction pcts as [|pct pcts IH]; intros s Hrun; simpl in Hrun.
  - unfold ret in Hrun. apply Ok_inv in Hrun. injection Hrun as <-. reflexivity.
  - apply bind_Ok_inv in Hrun. destruct Hrun as ([] & s1 & Hwarn & Hrun).
    apply IH in Hrun. rewrite Hrun.
    unfold warnSlower, bind, inRange, print, ret, undefined in Hwarn.
    run_inv Hwarn; reflexivity.
Qed.

Lemma printPassStats_world (read : bool) (s s' : Sys) :
  printPassStats read s = Ok (tt, s') →
  world s' = if String.eqb (outfile (self s)) EmptyString then world s
             else (ofstream_open (world s)).2.
Proof.
  unfold printPassStats. intros Hrun.
  apply bind_Ok_inv in Hrun. destruct Hrun as ([] & s1 & Hcsv & Hrun).
  apply writeTimingData_world in Hcsv. rewrite <- Hcsv.
  unfold bind, getSelf, modifySelf, inRange, print, ret, undefined in Hrun.
  run_inv Hrun.
  apply (forEach_warnSlower_world _ _ _ percentiles) in Hrun. exact Hrun.
Qed.

(** A completed read pass, opened up at its block loop. *)
Lemma readPass_loop (pattern : optional_u8) (s s' : Sys) :
  readPass pattern s = Ok (tt, s') →
  ∃ fd s0 locals s1,
    forRange (Z.to_nat (numBlocks (self s))) 0 (readBlock pattern fd)
      (replicate (Z.to_nat (blockSize (self s))) 0,
       replicate (Z.to_nat (blockSize (self s))) (payload pattern)) s0 = Ok (locals, s1) ∧
    sameDevice (self s) (self s0) ∧
    totalRead (self s0) = totalRead (self s) ∧ totalWrite (self s0) = totalWrite (self s) ∧
    world s0 = (sys_open (filename (self s)) true (getTimeSec (world s)).2).2 ∧
    sameDevice (self s1) (self s') ∧
    totalRead (self s') = totalRead (self s1) ∧ totalWrite (self s') = totalWrite (self s1) ∧
    world s' = if String.eqb (outfile (self s1)) EmptyString then sys_close fd (world s1)
               else (ofstream_open (sys_close fd (world s1))).2.
Proof.
  unfold readPass, deref, bind, liftW, getSelf, getWorld, logSyscall, modifySelf, throw, ret.
  intros Hrun. run_inv Hrun. destruct u.
  pose proof (printPassStats_world _ _ _ Heqo0) as Hw. simpl in Hw.
  apply printPassStats_inv in Heqo0. simpl in Heqo0.
  destruct Heqo0 as (_ & Hdev & _ & Htr & Htw & _ & _).
  eexists z, _, p, s0. split; [exact Heqo|]. simpl.
  split; [unfold sameDevice; simpl; repeat split; reflexivity|].
  split; [reflexivity|]. split; [reflexivity|]. split; [rewrite Heqp0; reflexivity|].
  split; [exact Hdev|]. split; [exact Htr|]. split; [exact Htw|]. exact Hw.
Qed.

Lemma writePass_loop (pattern : Z) (s s' : Sys) :
  writePass pattern s = Ok (tt, s') →
  ∃ fd s0 buffer s1,
    forRange (Z.to_nat (numBlocks (self s))) 0 (writeBlock pattern fd)
      (replicate (Z.to_nat (blockSize (self s))) pattern) s0 = Ok (buffer, s1) ∧
    sameDevice (self s) (self s0) ∧
    totalRead (self s0) = totalRead (self s) ∧ totalWrite (self s0) = totalWrite (self s) ∧
    world s0 = (sys_open (filename (self s)) false (getTimeSec (world s)).2).2 ∧
    sameDevice (self s1) (self s') ∧
    totalRead (self s') = totalRead (self s1) ∧ totalWrite (self s') = totalWrite (self s1) ∧
    world s' = if String.eqb (outfile (self s1)) EmptyString then sys_close fd (world s1)
               else (ofstream_open (sys_close fd (world s1))).2.
Proof.
  unfold writePass, bind, liftW, getSelf, getWorld, logSyscall, modifySelf, throw, ret.
  intros Hrun. run_inv Hrun. destruct u.
  pose proof (printPassStats_world _ _ _ Heqo0) as Hw. simpl in Hw.
  apply printPassStats_inv in Heqo0. simpl in Heqo0.
  destruct Heqo0 as (_ & Hdev & _ & Htr & Htw & _ & _).
  eexists z, _, l, s0. split; [exact Heqo|]. simpl.
  split; [unfold sameDevice; simpl; repeat split; reflexivity|].
  split; [reflexivity|]. split; [reflexivity|]. split; [rewrite Heqp0; reflexivity|].
  split; [exact Hdev|]. split; [exact Htr|]. split; [exact Htw|]. exact Hw.
Qed.

End Worlds.

(** *** Block images *)

Lemma length_prefix8 (i p : Z) : length (prefix8 i p) = 8%nat.
Proof. reflexivity. Qed.

Lemma length_blockImage (B p i : Z) : 8 ≤ B → length (blockImage B p i) = Z.to_nat B.
Proof.
  intros HB. unfold blockImage. rewrite length_app, length_prefix8, length_replicate. lia.
Qed.

Lemma drop_blockImage (B p i : Z) : drop 8 (blockImage B p i) = replicate (Z.to_nat B - 8) p.
Proof. unfold blockImage. rewrite (drop_app_length' _ _ 8) by reflexivity. reflexivity. Qed.

Lemma initBlock_image (B p i : Z) (buffer : list Z) :
  8 ≤ B → length buffer = Z.to_nat B → drop 8 buffer = replicate (Z.to_nat B - 8) p →
  initBlock buffer i p = Some (blockImage B p i).
Proof.
  intros HB Hlen Htail. rewrite initBlock_long by lia. unfold blockImage. rewrite Htail.
  reflexivity.
Qed.

Lemma blockImage_bytes (B p i : Z) :
  0 ≤ p < 256 → map u8 (blockImage B p i) = blockImage B p i.
Proof.
  intros Hp. unfold blockImage, prefix8. rewrite map_app, map_map.
  f_equal.
  - apply map_ext. intros k. unfold u8. apply Z.mod_mod. lia.
  - induction (Z.to_nat B - 8)%nat as [|n IH]; simpl; [reflexivity|].
    rewrite IH. unfold u8. rewrite Z.mod_small by lia. reflexivity.
Qed.

Lemma diskImage_S (B p : Z) (n : nat) :
  diskImage B p (S n) = diskImage B p n ++ blockImage B p (Z.of_nat n).
Proof.
  unfold diskImage. rewrite seq_S, flat_map_app. simpl. rewrite app_nil_r. reflexivity.
Qed.

Lemma length_diskImage (B p : Z) (n : nat) :
  8 ≤ B → length (diskImage B p n) = (n * Z.to_nat B)%nat.
Proof.
  intros HB. induction n as [|n IH]; [reflexivity|].
  rewrite diskImage_S, length_app, IH, length_blockImage by exact HB. lia.
Qed.

Lemma diskImage_block (B p : Z) (n k : nat) :
  8 ≤ B → (k < n)%nat →
  take (Z.to_nat B) (drop (k * Z.to_nat B) (diskImage B p n)) = blockImage B p (Z.of_nat k).
Proof.
  intros HB Hk. induction n as [|n IH]; [lia|].
  rewrite diskImage_S.
  destruct (decide (k = n)) as [->|Hne].
  - rewrite drop_app_length' by (symmetry; apply length_diskImage; exact HB).
    apply take_ge. rewrite length_blockImage by exact HB. lia.
  - assert (Hlt : (k < n)%nat) by lia. specialize (IH Hlt).
    rewrite drop_app_le by (rewrite length_diskImage by exact HB; nia).
    rewrite take_app_le; [exact IH|].
    rewrite length_drop, length_diskImage by exact HB. nia.
Qed.

(** *** Passes over the simulated device without faults *)

Lemma sim_write_healthy (data : list Z) (w : SimWorld) :
  script w = [] → (pos w + length data ≤ length (disk w))%nat →
  (sim_write data w).1 = Some (length data) ∧
  script (sim_write data w).2 = [] ∧
  pos (sim_write data w).2 = (pos w + length data)%nat ∧
  disk (sim_write data w).2 =
    take (pos w) (disk w) ++ data ++ drop (pos w + length data) (disk w).
Proof.
  intros Hs Hfit. unfold sim_write, sim_fault. rewrite Hs. unfold sim_store. simpl.
  rewrite take_ge by lia. rewrite Hs. repeat split; reflexivity.
Qed.

Lemma sim_read_healthy (count : Z) (w : SimWorld) :
  script w = [] →
  (sim_read count w).1 = Some (take (Z.to_nat count) (drop (pos w) (disk w))) ∧
  script (sim_read count w).2 = [] ∧
  pos (sim_read count w).2 =
    (pos w + length (take (Z.to_nat count) (drop (pos w) (disk w))))%nat ∧
  disk (sim_read count w).2 = disk w.
Proof.
  intros Hs. unfold sim_read, sim_fault. rewrite Hs. simpl. rewrite Hs.
  repeat split; reflexivity.
Qed.

Lemma recordTransfer_done (result : Z) (elapsed : double) (accessSize : Z) (b : BlockStats) :
  0 ≤ result → errors (recordTransfer result elapsed accessSize false b) = errors b.
Proof.
  intros Hr. unfold recordTransfer. destruct (decide (result < 0)); [lia | reflexivity].
Qed.

Lemma writeBlock_image (p fd : Z) (i : nat) (buffer buffer' : list Z) (s s' : Sys) :
  8 ≤ blockSize (self s) → sizeBytes (self s) < two64 →
  (Z.of_nat i + 1) * blockSize (self s) ≤ sizeBytes (self s) →
  length (disk (world s)) = Z.to_nat (sizeBytes (self s)) →
  script (world s) = [] → pos (world s) = (i * Z.to_nat (blockSize (self s)))%nat →
  take (pos (world s)) (disk (world s)) = diskImage (blockSize (self s)) p i →
  length buffer = Z.to_nat (blockSize (self s)) →
  drop 8 buffer = replicate (Z.to_nat (blockSize (self s)) - 8) p →
  writeBlock p fd (Z.of_nat i) buffer s = Ok (buffer', s') →
  buffer' = blockImage (blockSize (self s)) p (Z.of_nat i) ∧
  script (world s') = [] ∧ pos (world s') = (S i * Z.to_nat (blockSize (self s)))%nat ∧
  length (disk (world s')) = length (disk (world s)) ∧
  take (pos (world s')) (disk (world s')) = diskImage (blockSize (self s)) p (S i) ∧
  sameDevice (self s) (self s') ∧
  errors (totalWrite (self s')) = errors (totalWrite (self s)) ∧
  totalRead (self s') = totalRead (self s).
Proof.
  intros HB HS Hfit Hlen Hscript Hpos Hdisk Hbuf Htail Hrun.
  destruct (writeBlock_world _ _ _ _ _ _ _ Hrun) as (Hw & result & Hst & Hres).
  destruct (writeBlock_spec _ _ _ _ _ _ _ Hrun)
    as (result' & elapsed & b & _ & _ & Hinit & Hst' & _ & Hdev & _ & _ & Htr & _ & Htw).
  cbv zeta in *. simpl in Hw, Hres.
  rewrite Hst in Hst'. apply app_inv_head in Hst'. injection Hst' as <-.
  rewrite (initBlock_image (blockSize (self s))) in Hinit by assumption.
  injection Hinit as <-.
  rewrite accessSizeAt_full in Hw, Hres, Htw by lia.
  pose proof (length_blockImage (blockSize (self s)) p (Z.of_nat i) HB) as Himg.
  rewrite take_ge in Hw, Hres by lia.
  destruct (sim_write_healthy (blockImage (blockSize (self s)) p (Z.of_nat i)) (world s) Hscript)
    as (Hn & Hscript' & Hpos' & Hdisk'); [rewrite Himg, Hpos, Hlen; nia|].
  rewrite Hn in Hres. rewrite Hw, Hscript', Hpos', Hdisk', Himg, Hpos.
  split; [reflexivity|]. split; [reflexivity|]. split; [simpl; lia|].
  split.
  { rewrite !length_app, length_take, length_drop, Himg. lia. }
  split.
  { replace (i * Z.to_nat (blockSize (self s)) + Z.to_nat (blockSize (self s)))%nat
      with (length (take (i * Z.to_nat (blockSize (self s))) (disk (world s))
                    ++ blockImage (blockSize (self s)) p (Z.of_nat i)))
      by (rewrite length_app, length_take, Himg; lia).
    rewrite app_assoc, take_app_length, diskImage_S, <- Hpos, Hdisk. reflexivity. }
  split; [exact Hdev|]. split; [|exact Htr].
  rewrite Htw. apply recordTransfer_done. lia.
Qed.

Lemma writeLoop_image (p fd : Z) (m : nat) :
  ∀ (from : nat) (buffer buffer' : list Z) (s s' : Sys),
    8 ≤ blockSize (self s) → sizeBytes (self s) < two64 →
    Z.of_nat (from + m) * blockSize (self s) ≤ sizeBytes (self s) →
    length (disk (world s)) = Z.to_nat (sizeBytes (self s)) →
    script (world s) = [] → pos (world s) = (from * Z.to_nat (blockSize (self s)))%nat →
    take (pos (world s)) (disk (world s)) = diskImage (blockSize (self s)) p from →
    length buffer = Z.to_nat (blockSize (self s)) →
    drop 8 buffer = replicate (Z.to_nat (blockSize (self s)) - 8) p →
    forRange m (Z.of_nat from) (writeBlock p fd) buffer s = Ok (buffer', s') →
    script (world s') = [] ∧
    pos (world s') = ((from + m) * Z.to_nat (blockSize (self s)))%nat ∧
    length (disk (world s')) = length (disk (world s)) ∧
    take (pos (world s')) (disk (world s')) = diskImage (blockSize (self s)) p (from + m) ∧
    sameDevice (self s) (self s') ∧
    errors (totalWrite (self s')) = errors (totalWrite (self s)) ∧
    totalRead (self s') = totalRead (self s).
Proof.
  induction m as [|m IH];
    intros from buffer buffer' s s' HB HS Hfit Hlen Hscript Hpos Hdisk Hbuf Htail Hrun;
    simpl in Hrun.
  - unfold ret in Hrun. apply Ok_inv in Hrun. injection Hrun as _ <-.
    rewrite Nat.add_0_r. unfold sameDevice. repeat split; assumption.
  - apply bind_Ok_inv in Hrun. destruct Hrun as (buffer1 & s1 & Hbody & Hrun).
    destruct (writeBlock_image p fd from buffer buffer1 s s1)
      as (-> & Hscript1 & Hpos1 & Hlen1 & Hdisk1 & Hdev1 & Htw1 & Htr1);
      try assumption; [lia|].
    pose proof Hdev1 as (_ & _ & HB1 & HS1 & _ & _).
    replace (Z.of_nat from + 1) with (Z.of_nat (S from)) in Hrun by lia.
    destruct (IH (S from) (blockImage (blockSize (self s)) p (Z.of_nat from)) buffer' s1 s') as (H1 & H2 & H3 & H4 & H5 & H6 & H7);
      rewrite ?HB1, ?HS1; try assumption.
    + lia.
    + lia.
    + apply length_blockImage. exact HB.
    + apply drop_blockImage.
    + replace (S from + m)%nat with (from + S m)%nat in * by lia.
      rewrite HB1 in *.
      split; [exact H1|]. split; [exact H2|]. split; [congruence|]. split; [exact H4|].
      split; [|split; congruence].
      destruct H5 as (? & ? & ? & ? & ? & ?). destruct Hdev1 as (? & ? & ? & ? & ? & ?).
      unfold sameDevice. repeat split; congruence.
Qed.

Lemma readBlock_image (p fd : Z) (n i : nat) (buffer expected buffer' expected' : list Z)
    (s s' : Sys) :
  0 ≤ p < 256 → 8 ≤ blockSize (self s) → sizeBytes (self s) < two64 →
  (Z.of_nat i + 1) * blockSize (self s) ≤ sizeBytes (self s) → (i < n)%nat →
  disk (world s) = diskImage (blockSize (self s)) p n →
  script (world s) = [] → pos (world s) = (i * Z.to_nat (blockSize (self s)))%nat →
  length buffer = Z.to_nat (blockSize (self s)) →
  length expected = Z.to_nat (blockSize (self s)) →
  drop 8 expected = replicate (Z.to_nat (blockSize (self s)) - 8) p →
  readBlock (engaged p) fd (Z.of_nat i) (buffer, expected) s = Ok ((buffer', expected'), s') →
  buffer' = blockImage (blockSize (self s)) p (Z.of_nat i) ∧
  expected' = blockImage (blockSize (self s)) p (Z.of_nat i) ∧
  script (world s') = [] ∧ pos (world s') = (S i * Z.to_nat (blockSize (self s)))%nat ∧
  disk (world s') = disk (world s) ∧
  sameDevice (self s) (self s') ∧
  errors (totalRead (self s')) = errors (totalRead (self s)) ∧
  totalWrite (self s') = totalWrite (self s).
Proof.
  intros Hp HB HS Hfit Hi Hdisk Hscript Hpos Hbuf Hexp Htail Hrun.
  destruct (readBlock_world _ _ _ _ _ _ _ _ _ Hrun) as (Hw & result & Hst & Hres).
  destruct (readBlock_spec _ _ _ _ _ _ _ _ _ Hrun)
    as (result' & elapsed & b & _ & _ & Hinit & Hst' & _ & Hdev & _ & _ & Htw & _ & _ & Htr).
  cbv zeta in *. simpl in Hw, Hres, Hinit.
  rewrite Hst in Hst'. apply app_inv_head in Hst'. injection Hst' as <-.
  rewrite (initBlock_image (blockSize (self s))) in Hinit by assumption.
  injection Hinit as <-.
  rewrite accessSizeAt_full in Hw, Hres, Htr by lia.
  pose proof (length_blockImage (blockSize (self s)) p (Z.of_nat i) HB) as Himg.
  destruct (sim_read_healthy (blockSize (self s)) (world s) Hscript)
    as (Hdata & Hscript' & Hpos' & Hdisk').
  rewrite Hdisk, Hpos, (diskImage_block _ _ n i) in Hdata, Hpos' by assumption.
  rewrite Hdata in Hres. unfold readOutcome in Hres.
  rewrite blockImage_bytes, take_ge, Himg, drop_ge, app_nil_r in Hres by lia.
  injection Hres as -> ->.
  rewrite Hw, Hscript', Hpos', Hdisk', Himg.
  split; [reflexivity|]. split; [reflexivity|]. split; [reflexivity|].
  split; [simpl; lia|]. split; [reflexivity|]. split; [exact Hdev|]. split; [|exact Htw].
  rewrite Htr. unfold dataMismatch. rewrite bool_decide_eq_true_2 by reflexivity. simpl.
  apply recordTransfer_done. lia.
Qed.

Lemma readLoop_image (p fd : Z) (n m : nat) :
  ∀ (from : nat) (locals locals' : list Z * list Z) (s s' : Sys),
    0 ≤ p < 256 → 8 ≤ blockSize (self s) → sizeBytes (self s) < two64 →
    Z.of_nat (from + m) * blockSize (self s) ≤ sizeBytes (self s) → (from + m ≤ n)%nat →
    disk (world s) = diskImage (blockSize (self s)) p n →
    script (world s) = [] → pos (world s) = (from * Z.to_nat (blockSize (self s)))%nat →
    length locals.1 = Z.to_nat (blockSize (self s)) →
    length locals.2 = Z.to_nat (blockSize (self s)) →
    drop 8 locals.2 = replicate (Z.to_nat (blockSize (self s)) - 8) p →
    forRange m (Z.of_nat from) (readBlock (engaged p) fd) locals s = Ok (locals', s') →
    disk (world s') = disk (world s) ∧ script (world s') = [] ∧
    sameDevice (self s) (self s') ∧
    errors (totalRead (self s')) = errors (totalRead (self s)) ∧
    totalWrite (self s') = totalWrite (self s).
Proof.
  induction m as [|m IH];
    intros from [buffer expected] locals' s s' Hp HB HS Hfit Hn Hdisk Hscript Hpos
      Hbuf Hexp Htail Hrun; cbn [forRange fst snd] in Hrun, Hbuf, Hexp, Htail.
  - unfold ret in Hrun. apply Ok_inv in Hrun. injection Hrun as _ <-.
    unfold sameDevice. repeat split; assumption.
  - apply bind_Ok_inv in Hrun. destruct Hrun as ([buffer1 expected1] & s1 & Hbody & Hrun).
    destruct (readBlock_image p fd n from buffer expected buffer1 expected1 s s1)
      as (-> & -> & Hscript1 & Hpos1 & Hdisk1 & Hdev1 & Htr1 & Htw1);
      try assumption; [lia | lia |].
    pose proof Hdev1 as (_ & _ & HB1 & HS1 & _ & _).
    replace (Z.of_nat from + 1) with (Z.of_nat (S from)) in Hrun by lia.
    destruct (IH (S from) (blockImage (blockSize (self s)) p (Z.of_nat from),
                           blockImage (blockSize (self s)) p (Z.of_nat from)) locals' s1 s')
      as (H1 & H2 & H3 & H4 & H5);
      rewrite ?HB1, ?HS1; cbn [fst snd];
      try first [assumption | lia | congruence
                | apply length_blockImage; exact HB | apply drop_blockImage].
    split; [congruence|]. split; [exact H2|].
    split; [|split; congruence].
    destruct H3 as (? & ? & ? & ? & ? & ?). destruct Hdev1 as (? & ? & ? & ? & ? & ?).
    unfold sameDevice. repeat split; congruence.
Qed.

Lemma pass_world_closed (fd : Z) (name : string) (w : SimWorld) :
  (if String.eqb name EmptyString then sys_close fd w else (ofstream_open (sys_close fd w)).2)
  = w.
Proof. destruct (String.eqb name EmptyString); reflexivity. Qed.

(** X1: on a healthy device (no call fails, a read returns what was
    written) whose size is a whole number of blocks of at least 8 bytes,
    a completed write pass with the pattern byte [p] followed by a read
    pass with [p] counts no error, neither a read nor a write error, and
    leaves every block of the device holding its image. *)
Theorem roundtrip_whole_blocks (p : Z) (s s' : Sys) :
  0 ≤ p < 256 →
  8 ≤ blockSize (self s) < two64 →
  0 < sizeBytes (self s) < two64 →
  sizeBytes (self s) mod blockSize (self s) = 0 →
  numBlocks (self s) = numBlocksOf (sizeBytes (self s)) (blockSize (self s)) →
  length (disk (world s)) = Z.to_nat (sizeBytes (self s)) →
  script (world s) = [] →
  (writePass p ;; readPass (engaged p)) s = Ok (tt, s') →
  errors (totalRead (self s')) = errors (totalRead (self s)) ∧
  errors (totalWrite (self s')) = errors (totalWrite (self s)) ∧
  disk (world s') = diskImage (blockSize (self s)) p (Z.to_nat (numBlocks (self s))).
Proof.
  intros Hp HB HS Hmod Hn Hlen Hscript Hrun.
  apply bind_Ok_inv in Hrun. destruct Hrun as ([] & s1 & Hwrite & Hread).
  pose proof (completed_pass_has_block (WritePass p) s s1 Hwrite) as Hone.
  assert (Hno : sizeBytes (self s) + blockSize (self s) ≤ two64).
  { destruct (Z_le_gt_dec (sizeBytes (self s) + blockSize (self s)) two64) as [Hle|Hgt];
      [exact Hle|].
    rewrite Hn, numBlocksOf_wrapped in Hone; unfold is_u64; lia. }
  assert (Hwhole : numBlocks (self s) * blockSize (self s) = sizeBytes (self s)).
  { rewrite Hn, numBlocksOf_exact by lia.
    destruct (decide _) as [_|Hne]; [|contradiction].
    pose proof (Z.div_mod (sizeBytes (self s)) (blockSize (self s)) ltac:(lia)). lia. }
  apply writePass_loop in Hwrite.
  destruct Hwrite
    as (fd & s0 & buffer & s2 & Hloop & Hdev0 & Htr0 & Htw0 & Hw0 & Hdev2 & Htr2 & Htw2 & Hw1).
  rewrite pass_world_closed in Hw1. simpl in Hw0.
  pose proof Hdev0 as (_ & _ & HB0 & HS0 & Hn0 & _).
  apply (writeLoop_image p fd _ 0%nat) in Hloop;
    [ | rewrite HB0; lia | rewrite HS0; lia | rewrite HB0, HS0; lia
      | rewrite Hw0, HS0; exact Hlen | rewrite Hw0; exact Hscript
      | rewrite Hw0; reflexivity | rewrite Hw0; reflexivity
      | rewrite length_replicate, HB0; reflexivity
      | rewrite drop_replicate, HB0; reflexivity ].
  destruct Hloop
    as (Hscript2 & Hpos2 & Hlen2 & Hdisk2 & Hdev02 & Htw02 & Htr02).
  rewrite HB0 in *. rewrite Hw0 in Hlen2. simpl in Hlen2, Hpos2, Hdisk2.
  rewrite Hpos2, take_ge in Hdisk2 by (rewrite Hlen2, Hlen; nia).
  assert (Hdev1 : sameDevice (self s) (self s1)).
  { destruct Hdev02 as (? & ? & ? & ? & ? & ?). destruct Hdev2 as (? & ? & ? & ? & ? & ?).
    destruct Hdev0 as (? & ? & ? & ? & ? & ?). unfold sameDevice. repeat split; congruence. }
  pose proof Hdev1 as (_ & _ & HB1 & HS1 & Hn1 & _).
  apply readPass_loop in Hread.
  destruct Hread
    as (fd' & s3 & locals & s4 & Hloop' & Hdev3 & Htr3 & Htw3 & Hw3 & Hdev4 & Htr4 & Htw4 & Hw4).
  rewrite pass_world_closed in Hw4. simpl in Hw3, Hloop'.
  pose proof Hdev3 as (_ & _ & HB3 & HS3 & Hn3 & _).
  rewrite Hn1, HB1 in Hloop'.
  apply (readLoop_image p fd' (Z.to_nat (numBlocks (self s))) _ 0%nat) in Hloop';
    [ | exact Hp | rewrite HB3, HB1; lia | rewrite HS3, HS1; lia
      | rewrite HB3, HS3, HB1, HS1; lia | lia
      | rewrite Hw3, HB3, HB1, Hw1; exact Hdisk2
      | rewrite Hw3, Hw1; exact Hscript2 | rewrite Hw3; reflexivity
      | cbn [fst]; rewrite length_replicate, HB3, HB1; reflexivity
      | cbn [snd]; rewrite length_replicate, HB3, HB1; reflexivity
      | cbn [snd]; rewrite drop_replicate, HB3, HB1; reflexivity ].
  destruct Hloop'
    as (Hdisk4 & _ & _ & Htr34 & Htw34).
  split; [congruence|]. split; [congruence|].
  rewrite Hw4, Hdisk4, Hw3. simpl. rewrite Hw1. exact Hdisk2.
Qed.

Lemma roundtrip_run_completes :
  completed ((writePass 85 ;; readPass (engaged 85)) (sysFor 24 8 [85] [])) = true.
Proof. vm_compute. reflexivity. Qed.

Lemma roundtrip_whole_blocks_witness :
  ∃ s', (writePass 85 ;; readPass (engaged 85)) (sysFor 24 8 [85] []) = Ok (tt, s') ∧
        errors (totalRead (self s')) = 0 ∧ errors (totalWrite (self s')) = 0 ∧
        disk (world s') = diskImage 8 85 3.
Proof.
  pose proof roundtrip_run_completes as Hdone.
  destruct ((writePass 85 ;; readPass (engaged 85)) (sysFor 24 8 [85] []))
    as [[[] s']|e|u] eqn:Hrun; [|discriminate Hdone|discriminate Hdone].
  exists s'. split; [reflexivity|].
  apply (roundtrip_whole_blocks 85 (sysFor 24 8 [85] []) s'); try exact Hrun.
  - lia.
  - simpl. unfold two64. lia.
  - simpl. unfold two64. lia.
  - reflexivity.
  - reflexivity.
  - reflexivity.
  - reflexivity.
Defined.

(** ** One block, with the clock

    What a block's record gets is the time between the two readings of
    the clock around its call. *)

Section Timed.
Context `{D : DoubleOps} {IO : BlockIO}.

Lemma readBlock_timed (pattern : optional_u8) (fd blockIndex : Z)
    (buffer expected buffer' expected' : list Z) (s s' : Sys) :
  readBlock pattern fd blockIndex (buffer, expected) s = Ok ((buffer', expected'), s') →
  let c := self s in
  let accessSize := accessSizeAt (blockSize c) (sizeBytes c) blockIndex in
  let call := timedRead fd accessSize (world s) in
  let out := readOutcome call.1.2 accessSize buffer in
  let bad := dataMismatch pattern (blockSize c) buffer' expected' in
  ∃ b,
    blockStats c !! Z.to_nat blockIndex = Some b ∧
    initBlock expected blockIndex (payload pattern) = Some expected' ∧
    buffer' = out.2 ∧
    strace s' = strace s ++ [SysRead accessSize out.1] ∧
    world s' = (getTimeSec call.2).2 ∧
    blockStats (self s') =
      <[Z.to_nat blockIndex := recordTransfer out.1 call.1.1 accessSize bad b]> (blockStats c) ∧
    totalRead (self s') = recordTransfer out.1 call.1.1 accessSize bad (totalRead c).
Proof.
  intros Hrun c accessSize call out bad.
  pose proof (readBlock_world _ _ _ _ _ _ _ _ _ Hrun) as Hworld.
  cbv zeta in Hworld. destruct Hworld as (Hw & result0 & Hst0 & Hout).
  fold c accessSize in Hw, Hst0, Hout.
  assert (Hcall : call = (d_sub (getTimeSec (sys_read fd accessSize (getTimeSec (world s)).2).2).1
                                (getTimeSec (world s)).1,
                          (sys_read fd accessSize (getTimeSec (world s)).2).1,
                          (getTimeSec (sys_read fd accessSize (getTimeSec (world s)).2).2).2)).
  { subst call. unfold timedRead. destruct (getTimeSec (world s)) as [t0 w1]. simpl.
    destruct (sys_read fd accessSize w1) as [r w2]. simpl.
    destruct (getTimeSec w2) as [t1 w3]. reflexivity. }
  assert (Hout' : out = (result0, buffer')).
  { subst out. rewrite Hcall. simpl. symmetry. exact Hout. }
  revert Hrun.
  unfold readBlock, deref, bind, liftW, getSelf, modifySelf, ret, inRange, undefined.
  intros Hrun. run_inv Hrun.
  all: repeat match goal with
       | u : unit |- _ => destruct u
       | H : verifyBlock _ _ _ _ _ _ = Ok _ |- _ =>
           apply verifyBlock_inv in H; [|lia]; simpl in H
       | H : posix_read _ _ _ _ = Ok _ |- _ =>
           pose proof (posix_read_world _ _ _ _ _ _ _ H) as (Hr_w & Hr_out);
           apply posix_read_inv in H; simpl in H;
           destruct H as (Hr_self & _ & _ & Hr_st & Hr_d & Hr_buf)
       | H : modifyBlock _ _ _ = Ok _ |- _ =>
           apply modifyBlock_inv in H; simpl in H; destruct H as (bm & Hm_i & Hm_b & Hm_s)
       | H : printProgress _ _ = Ok _ |- _ =>
           apply printProgress_inv, onlyProgress_fields in H; simpl in H;
           destruct H as (Hp_bs & Hp_tr & Hp_tw & Hp_dev & Hp_pi & Hp_np & Hp_st & Hp_d)
       end.
  all: simpl in Hr_w, Hr_out, Hcall, Hout, Hw.
  all: fold c accessSize in Hr_w, Hr_out.
  all: rewrite <- Hr_out in Hout; injection Hout as ->.
  all: rewrite <- Hr_w, Heqp2 in Hcall, Hw; simpl in Hcall, Hw.
  all: rewrite Hout', Hcall; simpl.
  - (* the read failed *)
    subst s1. simpl in *. rewrite Hr_self in *.
    exists bm. unfold recordTransfer. rewrite Heqs1.
    rewrite Hp_bs, Hp_tr.
    repeat split; first [assumption | reflexivity].
  - (* the read returned; a pattern is verified *)
    replace (Z.to_nat 0) with 0%nat in Heqo1 by reflexivity. rewrite !drop_0 in Heqo1.
    destruct Heqo1 as [[Hsame ->]|[Hdiff (b0 & wanted & actual & Hi & Hb0 & ->)]];
      subst s2; simpl in *; rewrite Hr_self in *.
    + exists bm. subst bad. unfold recordTransfer, dataMismatch.
      rewrite Heqs1, Heqb, bool_decide_eq_true_2 by exact Hsame. simpl.
      rewrite Hp_bs, Hp_tr.
      repeat split; first [assumption | reflexivity].
    + exists b0. subst bad. unfold recordTransfer, dataMismatch.
      rewrite Heqs1, Heqb, bool_decide_eq_false_2 by exact Hdiff. simpl.
      rewrite list_lookup_insert_eq in Hm_b by lia. injection Hm_b as <-.
      rewrite list_insert_insert_eq in Hp_bs.
      rewrite Hp_bs, Hp_tr.
      repeat split; first [assumption | reflexivity].
  - (* the read returned; no pattern *)
    subst s1. simpl in *. rewrite Hr_self in *.
    exists bm. subst bad. unfold recordTransfer, dataMismatch.
    rewrite Heqs1, Heqb. simpl.
    rewrite Hp_bs, Hp_tr.
    repeat split; first [assumption | reflexivity].
Qed.

Lemma writeBlock_timed (pattern fd blockIndex : Z) (buffer buffer' : list Z) (s s' : Sys) :
  writeBlock pattern fd blockIndex buffer s = Ok (buffer', s') →
  let c := self s in
  let accessSize := accessSizeAt (blockSize c) (sizeBytes c) blockIndex in
  let call := timedWrite fd (take (Z.to_nat accessSize) buffer') (world s) in
  let result := writeResult call.1.2 accessSize in
  ∃ b,
    blockStats c !! Z.to_nat blockIndex = Some b ∧
    initBlock buffer blockIndex pattern = Some buffer' ∧
    strace s' = strace s ++ [SysWrite accessSize result] ∧
    world s' = (getTimeSec call.2).2 ∧
    blockStats (self s') =
      <[Z.to_nat blockIndex := recordTransfer result call.1.1 accessSize false b]>
        (blockStats c) ∧
    totalWrite (self s') = recordTransfer result call.1.1 accessSize false (totalWrite c).
Proof.
  intros Hrun c accessSize call result.
  pose proof (writeBlock_world _ _ _ _ _ _ _ Hrun) as Hworld.
  cbv zeta in Hworld. destruct Hworld as (Hw & result0 & Hst0 & Hout).
  fold c accessSize in Hw, Hst0, Hout.
  assert (Hcall : call
            = (d_sub (getTimeSec (sys_write fd (take (Z.to_nat accessSize) buffer')
                                    (getTimeSec (world s)).2).2).1
                     (getTimeSec (world s)).1,
               (sys_write fd (take (Z.to_nat accessSize) buffer') (getTimeSec (world s)).2).1,
               (getTimeSec (sys_write fd (take (Z.to_nat accessSize) buffer')
                              (getTimeSec (world s)).2).2).2)).
  { subst call. unfold timedWrite. destruct (getTimeSec (world s)) as [t0 w1]. simpl.
    destruct (sys_write fd _ w1) as [r w2]. simpl.
    destruct (getTimeSec w2) as [t1 w3]. reflexivity. }
  assert (Hres : result = result0).
  { subst result. rewrite Hcall. simpl. symmetry. exact Hout. }
  revert Hrun.
  unfold writeBlock, bind, liftW, getSelf, modifySelf, ret, inRange, undefined.
  intros Hrun. run_inv Hrun.
  all: repeat match goal with
       | u : unit |- _ => destruct u
       | H : posix_write _ _ _ _ = Ok _ |- _ =>
           pose proof (posix_write_world _ _ _ _ _ _ H) as (Hr_w & Hr_out);
           apply posix_write_inv in H; simpl in H;
           destruct H as (Hr_self & _ & _ & Hr_st & Hr_d)
       | H : modifyBlock _ _ _ = Ok _ |- _ =>
           apply modifyBlock_inv in H; simpl in H; destruct H as (bm & Hm_i & Hm_b & Hm_s)
       | H : printProgress _ _ = Ok _ |- _ =>
           apply printProgress_inv, onlyProgress_fields in H; simpl in H;
           destruct H as (Hp_bs & Hp_tr & Hp_tw & Hp_dev & Hp_pi & Hp_np & Hp_st & Hp_d)
       end.
  all: simpl in Hr_w, Hr_out, Hcall, Hres, Hst0, Hw.
  all: fold c accessSize in Hr_w, Hr_out.
  all: rewrite <- Hr_out in Hres, Hst0.
  all: rewrite <- Hr_w, Heqp1 in Hcall, Hw; simpl in Hcall, Hw.
  all: rewrite Hres, Hcall; simpl.
  - subst s1. simpl in *. rewrite Hr_self in *.
    exists bm. unfold recordTransfer. rewrite Heqs1.
    rewrite Hp_bs, Hp_tw.
    repeat split; first [assumption | reflexivity].
  - subst s1. simpl in *. rewrite Hr_self in *.
    exists bm. unfold recordTransfer. rewrite Heqs1.
    rewrite Hp_bs, Hp_tw.
    repeat split; first [assumption | reflexivity].
Qed.
End Timed.

(** ** Pass executor: one block *)

(** C10 (as amended): whatever non-negative result a block's read or
    write returns, short or not, the requested access length is added to
    the block's and the direction's bytes, and the time measured around
    the call (the reading of the clock after the call minus the reading
    before it) to their times.  The transfer itself counts no error: in a
    write pass and in a read pass without a pattern the error counts stay
    as they were; in a read pass with a pattern, for a block of full
    length, they rise by one exactly when the block in the buffer after
    the read differs from the expected block.  A negative result counts
    one error in the block and the direction and adds neither bytes nor
    time. *)
Theorem short_transfer_accounting :
  (∀ (D : DoubleOps) (IO : BlockIO) (pattern : optional_u8) (fd blockIndex : Z)
     (buffer expected buffer' expected' : list Z) (s s' : Sys),
     readBlock pattern fd blockIndex (buffer, expected) s = Ok ((buffer', expected'), s') →
     let c := self s in
     let accessSize := accessSizeAt (blockSize c) (sizeBytes c) blockIndex in
     let call := timedRead fd accessSize (world s) in
     let elapsed := call.1.1 in
     let result := (readOutcome call.1.2 accessSize buffer).1 in
     let differs :=
       negb (bool_decide (take (Z.to_nat accessSize) buffer'
                          = take (Z.to_nat accessSize) expected')) in
     ∃ b b',
       strace s' = strace s ++ [SysRead accessSize result] ∧
       buffer' = (readOutcome call.1.2 accessSize buffer).2 ∧
       initBlock expected blockIndex (payload pattern) = Some expected' ∧
       blockStats c !! Z.to_nat blockIndex = Some b ∧
       blockStats (self s') !! Z.to_nat blockIndex = Some b' ∧
       (0 ≤ result →
          time b' = d_add (time b) elapsed ∧
          bytes b' = wrap64 (bytes b + accessSize) ∧
          time (totalRead (self s')) = d_add (time (totalRead c)) elapsed ∧
          bytes (totalRead (self s')) = wrap64 (bytes (totalRead c) + accessSize) ∧
          (has_value pattern = false →
             errors b' = errors b ∧
             errors (totalRead (self s')) = errors (totalRead c)) ∧
          (has_value pattern = true → accessSize = blockSize c →
             errors b' = (if differs then wrap64 (errors b + 1) else errors b) ∧
             errors (totalRead (self s'))
               = (if differs then wrap64 (errors (totalRead c) + 1)
                  else errors (totalRead c)))) ∧
       (result < 0 →
          b' = incErrors b ∧ totalRead (self s') = incErrors (totalRead c))) ∧
  (∀ (D : DoubleOps) (IO : BlockIO) (pattern fd blockIndex : Z)
     (buffer buffer' : list Z) (s s' : Sys),
     writeBlock pattern fd blockIndex buffer s = Ok (buffer', s') →
     let c := self s in
     let accessSize := accessSizeAt (blockSize c) (sizeBytes c) blockIndex in
     let call := timedWrite fd (take (Z.to_nat accessSize) buffer') (world s) in
     let elapsed := call.1.1 in
     let result := writeResult call.1.2 accessSize in
     ∃ b b',
       strace s' = strace s ++ [SysWrite accessSize result] ∧
       initBlock buffer blockIndex pattern = Some buffer' ∧
       blockStats c !! Z.to_nat blockIndex = Some b ∧
       blockStats (self s') !! Z.to_nat blockIndex = Some b' ∧
       (0 ≤ result →
          b' = {| time := d_add (time b) elapsed; errors := errors b;
                  bytes := wrap64 (bytes b + accessSize) |} ∧
          totalWrite (self s') =
            {| time := d_add (time (totalWrite c)) elapsed;
               errors := errors (totalWrite c);
               bytes := wrap64 (bytes (totalWrite c) + accessSize) |}) ∧
       (result < 0 →
          b' = incErrors b ∧ totalWrite (self s') = incErrors (totalWrite c))).
Proof.
  split.
  - intros D IO pattern fd blockIndex buffer expected buffer' expected' s s' Hrun.
    destruct (readBlock_spec _ _ _ _ _ _ _ _ _ Hrun)
      as (result0 & elapsed0 & b0 & Hi & _).
    destruct (readBlock_timed _ _ _ _ _ _ _ _ _ Hrun)
      as (b & Hb & Hinit & Hbuf & Hst & _ & Hbs & Htr).
    cbv zeta in *.
    eexists b, _.
    split; [exact Hst|]. split; [exact Hbuf|]. split; [exact Hinit|]. split; [exact Hb|].
    split; [rewrite Hbs; apply list_lookup_insert_eq; lia|].
    rewrite Htr. unfold recordTransfer, dataMismatch.
    split; intros Hres; (destruct (decide (_ < 0)); [try lia|try lia]).
    + split; [destruct (_ && _); reflexivity|]. split; [destruct (_ && _); reflexivity|].
      split; [destruct (_ && _); reflexivity|]. split; [destruct (_ && _); reflexivity|].
      split.
      * intros ->. split; reflexivity.
      * intros -> ->. simpl. destruct (negb _); split; reflexivity.
    + split; reflexivity.
  - intros D IO pattern fd blockIndex buffer buffer' s s' Hrun.
    destruct (writeBlock_spec _ _ _ _ _ _ _ Hrun)
      as (result0 & elapsed0 & b0 & Hi & _).
    destruct (writeBlock_timed _ _ _ _ _ _ _ Hrun)
      as (b & Hb & Hinit & Hst & _ & Hbs & Htw).
    cbv zeta in *.
    eexists b, _.
    split; [exact Hst|]. split; [exact Hinit|]. split; [exact Hb|].
    split; [rewrite Hbs; apply list_lookup_insert_eq; lia|].
    rewrite Htw. unfold recordTransfer.
    split; intros Hres; (destruct (decide (_ < 0)); [try lia|try lia]);
      split; reflexivity.
Qed.

Lemma short_read_run :
  observe (readBlock (engaged 85) 3 0 (replicate 8 0, replicate 8 85)
             (sysFor 8 8 [85] [(Short 4, (1 # 4)%Q)]))
    (fun s => (strace s, blockStats (self s), totalRead (self s)))
  = Some ([SysRead 8 4],
          [{| time := (1 # 4)%Q; errors := 1; bytes := 8 |}],
          {| time := (1 # 4)%Q; errors := 1; bytes := 8 |}).
Proof. vm_compute. reflexivity. Qed.

Lemma short_transfer_accounting_witness :
  ∃ buffer' expected' s',
    readBlock (engaged 85) 3 0 (replicate 8 0, replicate 8 85)
      (sysFor 8 8 [85] [(Short 4, (1 # 4)%Q)]) = Ok ((buffer', expected'), s') ∧
    ∃ b',
      strace s' = [SysRead 8 4] ∧ buffer' = replicate 8 0 ∧
      blockStats (self s') !! 0%nat = Some b' ∧
      time b' = (1 # 4)%Q ∧ bytes b' = 8 ∧ errors b' = 1.
Proof.
  pose proof short_read_run as Hobs.
  destruct (readBlock (engaged 85) 3 0 (replicate 8 0, replicate 8 85)
              (sysFor 8 8 [85] [(Short 4, (1 # 4)%Q)]))
    as [[[buffer' expected'] s']|e|u] eqn:Hrun; [|discriminate Hobs|discriminate Hobs].
  exists buffer', expected', s'. split; [reflexivity|].
  destruct (proj1 short_transfer_accounting QDouble SimDevice _ _ _ _ _ _ _ _ _ Hrun)
    as (b & b' & Hst & Hbuf & Hinit & Hb & Hb' & Hok & _).
  exists b'.
  vm_compute in Hb. injection Hb as <-.
  vm_compute in Hinit. injection Hinit as <-.
  vm_compute in Hbuf. subst buffer'.
  destruct (Hok ltac:(vm_compute; discriminate)) as (Ht & Hby & _ & _ & _ & Herr).
  destruct (Herr eq_refl eq_refl) as [Herr' _].
  split; [exact Hst|]. split; [reflexivity|]. split; [exact Hb'|].
  split; [exact Ht|]. split; [exact Hby | exact Herr'].
Defined.

(** C10 as stated fails in a read pass with a pattern: on a one-block
    device written correctly, a read that returns 4 of the 8 bytes asked
    for (a non-negative result) leaves the zero-initialised rest of the
    buffer in place, the comparison finds a mismatch, and an error is
    recorded for the block and the direction. *)
Lemma short_read_records_data_error :
  observe (run true "dev" 8 [85] EmptyString (scripted 8 0%Q [(NoFault, 0%Q); (Short 4, 0%Q)]))
    (fun s => (strace s, map errors (blockStats (self s)), map bytes (blockStats (self s)),
               errors (totalRead (self s)), cout s !! 2%nat))
  = Some ([SysOpen false 3; SysWrite 8 8; SysClose 3;
           SysOpen true 3; SysRead 8 4; SysClose 3],
          [1], [8], 1, Some (OutDataError 85 0 0)).
Proof. vm_compute. reflexivity. Qed.

(** ** What a pass leaves: records, totals, output and files *)

Section BlockOutput.
Context `{D : DoubleOps} {IO : BlockIO}.

Lemma printProgress_lines (blockIndex : Z) (s s' : Sys) :
  printProgress blockIndex s = Ok (tt, s') →
  ∃ lines, cout s' = cout s ++ lines ∧ forallb isProgressLine lines = true.
Proof.
  unfold printProgress, bind, liftW, getSelf, print, modifySelf, ret, inRange, undefined.
  intros Hrun. run_inv Hrun; simpl.
  - exists []. rewrite app_nil_r. split; reflexivity.
  - eexists [_; _]. rewrite <- app_assoc. split; reflexivity.
  - eexists [_]. split; reflexivity.
Qed.

(** The comparison loop stops at the first byte that differs, reports
    it, and counts one error in the block's record and in the total. *)
Lemma verifyBlock_first (n : nat) :
  ∀ (from : nat) (buffer expected : list Z) (blockIndex : Z) (s s' : Sys),
    verifyBlock n (Z.of_nat from) buffer expected blockIndex s = Ok (tt, s') →
    match firstMismatch (take n (drop from buffer)) (take n (drop from expected)) with
    | None =>
        take n (drop from buffer) = take n (drop from expected) ∧ s' = s
    | Some (wanted, actual) =>
        take n (drop from buffer) ≠ take n (drop from expected) ∧
        cout s' = cout s ++ [OutDataError wanted actual blockIndex] ∧
        strace s' = strace s
    end.
Proof.
  induction n as [|n IH]; intros from buffer expected blockIndex s s' Hrun;
    cbn [verifyBlock] in Hrun.
  - unfold ret in Hrun. apply Ok_inv in Hrun. injection Hrun as <-.
    rewrite !take_0. simpl. split; reflexivity.
  - apply bind_Ok_inv in Hrun. destruct Hrun as (actual & s1 & Hact & Hrun).
    unfold inRange, ret, undefined in Hact.
    destruct (vec_get buffer (Z.of_nat from)) as [a|] eqn:Ha; [|discriminate].
    apply Ok_inv in Hact. injection Hact as <- <-.
    apply bind_Ok_inv in Hrun. destruct Hrun as (wanted & s1 & Hwant & Hrun).
    unfold inRange, ret, undefined in Hwant.
    destruct (vec_get expected (Z.of_nat from)) as [e|] eqn:He; [|discriminate].
    apply Ok_inv in Hwant. injection Hwant as <- <-.
    rewrite vec_get_lookup, Nat2Z.id in Ha, He by lia.
    rewrite (drop_S _ _ _ Ha), (drop_S _ _ _ He). cbn [take firstMismatch].
    destruct (decide (a ≠ e)) as [Hne|Heq].
    + split; [congruence|].
      apply bind_Ok_inv in Hrun. destruct Hrun as ([] & s1 & Hpr & Hrun).
      unfold print in Hpr. apply Ok_inv in Hpr. injection Hpr as <-.
      apply bind_Ok_inv in Hrun. destruct Hrun as ([] & s2 & Hmod & Hrun).
      apply modifyBlock_inv in Hmod. destruct Hmod as (b & _ & _ & ->).
      unfold modifySelf in Hrun. apply Ok_inv in Hrun. injection Hrun as <-.
      split; reflexivity.
    + assert (a = e) as -> by (destruct (decide (a = e)); [assumption | contradiction]).
      replace (Z.of_nat from + 1) with (Z.of_nat (S from)) in Hrun by lia.
      apply IH in Hrun.
      destruct (firstMismatch _ _) as [[w x]|].
      * destruct Hrun as [Hdiff Hc]. split; [congruence | exact Hc].
      * destruct Hrun as [Hsame ->]. split; [rewrite Hsame; reflexivity | reflexivity].
Qed.

Lemma readBlock_cout (pattern : optional_u8) (fd blockIndex : Z)
    (buffer expected buffer' expected' : list Z) (s s' : Sys) :
  readBlock pattern fd blockIndex (buffer, expected) s = Ok ((buffer', expected'), s') →
  let n := Z.to_nat (blockSize (self s)) in
  let bad := dataMismatch pattern (blockSize (self s)) buffer' expected' in
  ∃ result progress wanted actual,
    strace s' = strace s ++
      [SysRead (accessSizeAt (blockSize (self s)) (sizeBytes (self s)) blockIndex) result] ∧
    forallb isProgressLine progress = true ∧
    cout s' = cout s ++
      (if decide (result < 0) then []
       else if bad then [OutDataError wanted actual blockIndex] else []) ++ progress ∧
    (0 ≤ result → bad = true →
     firstMismatch (take n buffer') (take n expected') = Some (wanted, actual)).
Proof.
  unfold readBlock, deref, bind, liftW, getSelf, modifySelf, ret, inRange, undefined.
  intros Hrun. run_inv Hrun.
  all: repeat match goal with
       | u : unit |- _ => destruct u
       | H : verifyBlock _ _ _ _ _ _ = Ok _ |- _ =>
           apply (verifyBlock_first _ 0%nat) in H; simpl in H; rewrite !drop_0 in H
       | H : modifyBlock _ _ _ = Ok _ |- _ =>
           apply modifyBlock_inv in H; simpl in H; destruct H as (bm & _ & _ & ->)
       | H : printProgress _ _ = Ok _ |- _ =>
           pose proof (printProgress_lines _ _ _ H) as (progress & Hp_c & Hp_l);
           apply printProgress_inv, onlyProgress_fields in H; simpl in H;
           destruct H as (_ & _ & _ & _ & _ & _ & Hp_st & _)
       | H : posix_read _ _ _ _ = Ok _ |- _ =>
           apply posix_read_inv in H; simpl in H;
           destruct H as (Hr_self & Hr_c & _ & Hr_st & _ & _)
       end.
  all: simpl in *; try rewrite Hr_self in Heqo1; rewrite ?Hr_self.
  - (* the read failed *)
    exists z, progress, 0, 0. destruct (decide (z < 0)) as [?|?]; [|lia].
    split; [rewrite Hp_st; exact Hr_st|]. split; [exact Hp_l|].
    split; [rewrite Hp_c, Hr_c; reflexivity | lia].
  - (* the read returned; a pattern is verified *)
    unfold dataMismatch. rewrite Heqb. simpl.
    destruct (firstMismatch _ _) as [[wanted actual]|].
    + destruct Heqo1 as (Hdiff & Hc & Hv_st).
      exists z, progress, wanted, actual.
      rewrite bool_decide_eq_false_2 by exact Hdiff. simpl.
      destruct (decide (z < 0)) as [?|?]; [lia|].
      split; [rewrite Hp_st, Hv_st; exact Hr_st|]. split; [exact Hp_l|].
      split; [rewrite Hp_c, Hc, Hr_c, <- app_assoc; reflexivity | reflexivity].
    + destruct Heqo1 as [Hsame ->].
      exists z, progress, 0, 0.
      rewrite bool_decide_eq_true_2 by exact Hsame. simpl.
      destruct (decide (z < 0)) as [?|?]; [lia|].
      split; [rewrite Hp_st; exact Hr_st|]. split; [exact Hp_l|].
      split; [rewrite Hp_c, Hr_c; reflexivity | discriminate].
  - (* the read returned; nothing to verify *)
    exists z, progress, 0, 0. unfold dataMismatch. rewrite Heqb. simpl.
    destruct (decide (z < 0)) as [?|?]; [lia|].
    split; [rewrite Hp_st; exact Hr_st|]. split; [exact Hp_l|].
    split; [rewrite Hp_c, Hr_c; reflexivity | discriminate].
Qed.

Lemma writeBlock_cout (pattern fd blockIndex : Z) (buffer buffer' : list Z) (s s' : Sys) :
  writeBlock pattern fd blockIndex buffer s = Ok (buffer', s') →
  ∃ progress, cout s' = cout s ++ progress ∧ forallb isProgressLine progress = true.
Proof.
  unfold writeBlock, bind, liftW, getSelf, modifySelf, ret, inRange, undefined.
  intros Hrun. run_inv Hrun.
  all: repeat match goal with
       | u : unit |- _ => destruct u
       | H : modifyBlock _ _ _ = Ok _ |- _ =>
           apply modifyBlock_inv in H; simpl in H; destruct H as (bm & _ & _ & ->)
       | H : printProgress _ _ = Ok _ |- _ =>
           pose proof (printProgress_lines _ _ _ H) as (progress & Hp_c & Hp_l); clear H
       | H : posix_write _ _ _ _ = Ok _ |- _ =>
           apply posix_write_inv in H; simpl in H; destruct H as (_ & Hw_c & _)
       end.
  all: simpl in *; exists progress; split; [rewrite Hp_c, Hw_c; reflexivity | exact Hp_l].
Qed.

End BlockOutput.

Section PassRecords.
Context `{D : DoubleOps} {IO : BlockIO}.

Lemma readBlock_files (pattern : optional_u8) (fd blockIndex : Z)
    (locals locals' : list Z * list Z) (s s' : Sys) :
  readBlock pattern fd blockIndex locals s = Ok (locals', s') → outfiles s' = outfiles s.
Proof.
  destruct locals as [buffer expected].
  unfold readBlock, deref, bind, liftW, getSelf, modifySelf, ret, inRange, undefined.
  intros Hrun. run_inv Hrun.
  all: repeat match goal with
       | u : unit |- _ => destruct u
       | H : verifyBlock _ _ _ _ _ _ = Ok _ |- _ =>
           apply verifyBlock_inv in H; [|lia]; simpl in H;
           destruct H as [[_ ->]|[_ (bv & wanted & actual & _ & _ & ->)]]
       | H : modifyBlock _ _ _ = Ok _ |- _ =>
           apply modifyBlock_inv in H; simpl in H; destruct H as (bm & _ & _ & ->)
       | H : printProgress _ _ = Ok _ |- _ =>
           apply printProgress_inv in H; destruct H as (_ & _ & Hp_f & _)
       | H : posix_read _ _ _ _ = Ok _ |- _ =>
           apply posix_read_inv in H; simpl in H; destruct H as (_ & _ & Hr_f & _)
       end.
  all: simpl in *; congruence.
Qed.

Lemma writeBlock_files (pattern fd blockIndex : Z) (buffer buffer' : list Z) (s s' : Sys) :
  writeBlock pattern fd blockIndex buffer s = Ok (buffer', s') → outfiles s' = outfiles s.
Proof.
  unfold writeBlock, bind, liftW, getSelf, modifySelf, ret, inRange, undefined.
  intros Hrun. run_inv Hrun.
  all: repeat match goal with
       | u : unit |- _ => destruct u
       | H : modifyBlock _ _ _ = Ok _ |- _ =>
           apply modifyBlock_inv in H; simpl in H; destruct H as (bm & _ & _ & ->)
       | H : printProgress _ _ = Ok _ |- _ =>
           apply printProgress_inv in H; destruct H as (_ & _ & Hp_f & _)
       | H : posix_write _ _ _ _ = Ok _ |- _ =>
           apply posix_write_inv in H; simpl in H; destruct H as (_ & _ & Hw_f & _)
       end.
  all: simpl in *; congruence.
Qed.

Lemma progress_lines_block (lines : list Output) :
  forallb isProgressLine lines = true →
  forallb isBlockLine lines = true ∧ dataErrorBlocks lines = [].
Proof.
  induction lines as [|o lines IH]; simpl; [split; reflexivity|].
  intros Hl. apply andb_prop in Hl. destruct Hl as [Ho Hl].
  destruct (IH Hl) as [IH1 IH2]. unfold dataErrorBlocks in *.
  destruct o; try discriminate; simpl; rewrite IH1, ?IH2; split; reflexivity.
Qed.

Lemma dataErrorBlocks_app (l1 l2 : list Output) :
  dataErrorBlocks (l1 ++ l2) = dataErrorBlocks l1 ++ dataErrorBlocks l2.
Proof. apply omap_app. Qed.

Lemma recordTransfer_bad (result : Z) (elapsed : double) (accessSize : Z) (bad : bool)
    (b : BlockStats) :
  recordTransfer result elapsed accessSize bad b =
  recordTransfer result elapsed accessSize (if decide (result < 0) then false else bad) b.
Proof. unfold recordTransfer. destruct (decide (result < 0)); reflexivity. Qed.

Lemma readBlock_blockAccount (pattern : optional_u8) (fd : Z) :
  blockAccount (readBlock pattern fd) (passCall (ReadPass pattern)) totalRead totalWrite
    (has_value pattern) (readTransfer pattern fd).
Proof.
  intros blockIndex [buffer expected] s [buffer' expected'] s' Hrun.
  pose proof (readBlock_files _ _ _ _ _ _ _ Hrun) as Hfiles.
  destruct (readBlock_cout _ _ _ _ _ _ _ _ _ Hrun)
    as (result' & progress & wanted & actual & Hst' & Hprog & Hcout & _).
  destruct (readBlock_spec _ _ _ _ _ _ _ _ _ Hrun)
    as (result0 & elapsed0 & b0 & Hi & _ & _ & _ & _ & Hdev & Hpi & Hnp & Htw & _).
  destruct (readBlock_timed _ _ _ _ _ _ _ _ _ Hrun)
    as (b & Hb & Hinit & Hbuf & Hst & Hw & Hbs & Htr).
  cbv zeta in *.
  rewrite Hst in Hst'. apply app_inv_head in Hst'. injection Hst' as <-.
  destruct (progress_lines_block _ Hprog) as [Hblock Hnone].
  rewrite recordTransfer_bad in Hbs, Htr.
  set (accessSize := accessSizeAt (blockSize (self s)) (sizeBytes (self s)) blockIndex) in *.
  set (call := timedRead fd accessSize (world s)) in *.
  set (out := readOutcome call.1.2 accessSize buffer) in *.
  exists {| t_size := accessSize; t_result := out.1; t_elapsed := call.1.1;
            t_bad := if decide (out.1 < 0) then false
                     else dataMismatch pattern (blockSize (self s)) buffer' expected' |}, b.
  eexists. unfold account. simpl.
  split; [reflexivity|]. split; [exact Hi|]. split; [exact Hb|]. split; [exact Hst|].
  split; [exact Hdev|]. split; [exact Hpi|]. split; [exact Hnp|]. split; [exact Hbs|].
  split; [exact Htr|]. split; [exact Htw|]. split; [exact Hfiles|].
  split; [exact Hcout|].
  rewrite forallb_app, dataErrorBlocks_app, Hblock, Hnone, app_nil_r, andb_true_r.
  split.
  { destruct (decide (out.1 < 0)); [reflexivity|].
    destruct (dataMismatch _ _ _ _); reflexivity. }
  split.
  { destruct (decide (out.1 < 0)); [reflexivity|].
    destruct (dataMismatch _ _ _ _); reflexivity. }
  split.
  - destruct (decide (out.1 < 0)); [discriminate|].
    unfold dataMismatch.
    destruct (has_value pattern); simpl; [|discriminate].
    intros _. split; [reflexivity | lia].
  - unfold readTransfer. simpl. rewrite Hinit. simpl.
    fold accessSize call out. rewrite <- Hbuf, <- Hw. reflexivity.
Qed.

Lemma writeBlock_blockAccount (pattern fd : Z) :
  blockAccount (writeBlock pattern fd) (passCall (WritePass pattern)) totalWrite totalRead
    false (writeTransfer pattern fd).
Proof.
  intros blockIndex buffer s buffer' s' Hrun.
  pose proof (writeBlock_files _ _ _ _ _ _ _ Hrun) as Hfiles.
  destruct (writeBlock_cout _ _ _ _ _ _ _ Hrun) as (progress & Hcout & Hprog).
  destruct (writeBlock_spec _ _ _ _ _ _ _ Hrun)
    as (result0 & elapsed0 & b0 & Hi & _ & _ & _ & _ & Hdev & Hpi & Hnp & Htr & _).
  destruct (writeBlock_timed _ _ _ _ _ _ _ Hrun)
    as (b & Hb & Hinit & Hst & Hw & Hbs & Htw).
  cbv zeta in *.
  destruct (progress_lines_block _ Hprog) as [Hblock Hnone].
  set (accessSize := accessSizeAt (blockSize (self s)) (sizeBytes (self s)) blockIndex) in *.
  set (call := timedWrite fd (take (Z.to_nat accessSize) buffer') (world s)) in *.
  exists {| t_size := accessSize; t_result := writeResult call.1.2 accessSize;
            t_elapsed := call.1.1; t_bad := false |}, b, progress.
  unfold account. simpl.
  split; [reflexivity|]. split; [exact Hi|]. split; [exact Hb|]. split; [exact Hst|].
  split; [exact Hdev|]. split; [exact Hpi|]. split; [exact Hnp|]. split; [exact Hbs|].
  split; [exact Htw|]. split; [exact Htr|]. split; [exact Hfiles|].
  split; [exact Hcout|]. split; [exact Hblock|]. split; [exact Hnone|].
  split; [discriminate|].
  unfold writeTransfer. rewrite Hinit. simpl.
  fold accessSize call. rewrite <- Hw. reflexivity.
Qed.

(** The block loop over fresh records. *)
Lemma blockLoop_records {Acc} (body : Z → Acc → M Acc) (mk : Z * Z → Syscall)
    (total other : BlockChecker → BlockStats) (verifies : bool)
    (step : Z → Z → Z → Acc → World → option (Transfer * Acc * World)) (n : nat) :
  blockAccount body mk total other verifies step →
  ∀ (from : nat) (acc : Acc) (s : Sys) (acc' : Acc) (s' : Sys),
    (∀ j, (from ≤ j < from + n)%nat → blockStats (self s) !! j = Some BlockStats_zero) →
    forRange n (Z.of_nat from) body acc s = Ok (acc', s') →
    ∃ ts lines,
      strace s' = strace s ++ map (fun t => mk (t_size t, t_result t)) ts ∧
      map t_size ts =
        map (fun k => accessSizeAt (blockSize (self s)) (sizeBytes (self s))
                        (Z.of_nat from + Z.of_nat k)) (seq 0 n) ∧
      blockStats (self s') =
        take from (blockStats (self s)) ++ map recordOf ts
          ++ drop (from + n) (blockStats (self s)) ∧
      total (self s') = fold_left (fun b t => account t b) ts (total (self s)) ∧
      other (self s') = other (self s) ∧ outfiles s' = outfiles s ∧
      sameDevice (self s) (self s') ∧ passIndex (self s') = passIndex (self s) ∧
      numPasses (self s') = numPasses (self s) ∧
      cout s' = cout s ++ lines ∧ forallb isBlockLine lines = true ∧
      dataErrorBlocks lines = badBlocks (Z.of_nat from) ts ∧
      Forall (fun t => t_bad t = true → verifies = true ∧ 0 ≤ t_result t) ts ∧
      blockTransfers (step (blockSize (self s)) (sizeBytes (self s))) n (Z.of_nat from) acc
        (world s) = Some (ts, acc', world s').
Proof.
  intros Hstep. induction n as [|n IH]; intros from acc s acc' s' Hfresh Hrun;
    cbn [forRange] in Hrun.
  - unfold ret in Hrun. apply Ok_inv in Hrun. injection Hrun as <- <-.
    exists [], []. simpl. rewrite !app_nil_r, Nat.add_0_r, take_drop.
    unfold sameDevice. repeat split; try reflexivity. constructor.
  - apply bind_Ok_inv in Hrun. destruct Hrun as (acc1 & s1 & Hbody & Hrun).
    destruct (Hstep _ _ _ _ _ Hbody)
      as (t & b & lines1 & Hsize & Hi & Hb & Hst1 & Hdev1 & Hpi1 & Hnp1 & Hbs1 & Htot1
          & Hoth1 & Hf1 & Hc1 & Hl1 & He1 & Hbad1 & Hstep1).
    rewrite Nat2Z.id in Hb, Hbs1.
    pose proof Hdev1 as (Hfn & Hof & HB1 & HS1 & Hn1 & Hp1).
    rewrite (Hfresh from) in Hb by lia. injection Hb as <-.
    replace (Z.of_nat from + 1) with (Z.of_nat (S from)) in Hrun by lia.
    destruct (IH (S from) acc1 s1 acc' s') as
      (ts & lines & Hst & Hsz & Hbs & Htot & Hoth & Hf & Hdev & Hpi & Hnp & Hc & Hl & He
       & Hbad & Hsteps); [|exact Hrun|].
    { intros j Hj. rewrite Hbs1, list_lookup_insert_ne by lia. apply Hfresh. lia. }
    exists (t :: ts), (lines1 ++ lines).
    split; [rewrite Hst, Hst1, <- app_assoc; reflexivity|].
    split.
    { simpl. rewrite Z.add_0_r, Hsize. f_equal. rewrite Hsz, HB1, HS1.
      rewrite <- seq_shift, map_map. apply map_ext. intros k. f_equal. lia. }
    split.
    { rewrite Hbs, Hbs1.
      rewrite (take_S_r _ _ (recordOf t))
        by (apply list_lookup_insert_eq; apply Nat2Z.inj_lt; lia).
      rewrite take_insert_ge by lia. rewrite drop_insert_lt by lia.
      rewrite <- app_assoc. simpl.
      replace (S (from + n)) with (from + S n)%nat by lia. reflexivity. }
    split; [rewrite Htot, Htot1; reflexivity|].
    split; [congruence|]. split; [congruence|].
    split.
    { destruct Hdev as (? & ? & ? & ? & ? & ?). unfold sameDevice.
      repeat split; congruence. }
    split; [congruence|]. split; [congruence|].
    split; [rewrite Hc, Hc1, <- app_assoc; reflexivity|].
    split; [rewrite forallb_app, Hl1, Hl; reflexivity|].
    split.
    { rewrite dataErrorBlocks_app, He1, He. simpl.
      replace (Z.of_nat from + 1) with (Z.of_nat (S from)) by lia. reflexivity. }
    split; [constructor; assumption|].
    cbn [blockTransfers]. rewrite Hstep1. simpl.
    replace (Z.of_nat from + 1) with (Z.of_nat (S from)) by lia.
    rewrite HB1, HS1 in Hsteps. rewrite Hsteps. reflexivity.
Qed.

End PassRecords.

Section StatsOutput.
Context `{D : DoubleOps} {IO : BlockIO}.

Lemma csv_lines_content (stats : list BlockStats) (n : nat) :
  ∀ (from : nat) (acc acc' : list (Z * double * Z)) (s s' : Sys),
    forRange n (Z.of_nat from)
      (fun i acc =>
         let* b := inRange "blockStats" (vec_get stats i) in
         ret (acc ++ [(i, time b, errors b)])) acc s = Ok (acc', s') →
    length (take n (drop from stats)) = n ∧
    acc' = acc ++ imap (fun i b => (Z.of_nat (from + i), time b, errors b))
                       (take n (drop from stats)).
Proof.
  induction n as [|n IH]; intros from acc acc' s s' Hrun; cbn [forRange] in Hrun.
  - unfold ret in Hrun. apply Ok_inv in Hrun. injection Hrun as <- _.
    rewrite take_0, app_nil_r. split; reflexivity.
  - apply bind_Ok_inv in Hrun. destruct Hrun as (acc1 & s1 & Hbody & Hrun).
    unfold bind, inRange, ret, undefined in Hbody.
    destruct (vec_get stats (Z.of_nat from)) as [b|] eqn:Hb; [|discriminate].
    apply Ok_inv in Hbody. injection Hbody as <- <-.
    rewrite vec_get_lookup, Nat2Z.id in Hb by lia.
    replace (Z.of_nat from + 1) with (Z.of_nat (S from)) in Hrun by lia.
    apply IH in Hrun. destruct Hrun as (Hlen & ->).
    rewrite (drop_S _ _ _ Hb). cbn [take length imap].
    split; [rewrite Hlen; reflexivity|].
    rewrite <- app_assoc. simpl. rewrite Nat.add_0_r. do 2 f_equal.
    apply imap_ext. intros i x _. simpl. do 2 f_equal. lia.
Qed.

(** What [writeTimingData] writes: no file without a prefix, else one
    file whose lines are the first [numBlocks] records in their order. *)
Lemma writeTimingData_out (readWrite : string) (s s' : Sys) :
  writeTimingData readWrite s = Ok (tt, s') →
  outfiles s' =
    outfiles s ++
      (if String.eqb (outfile (self s)) EmptyString then []
       else [{| of_prefix := outfile (self s); of_readWrite := readWrite;
                of_passIndex := passIndex (self s); of_sizeBytes := sizeBytes (self s);
                of_lines := csvLines (take (Z.to_nat (numBlocks (self s)))
                                           (blockStats (self s))) |}]).
Proof.
  unfold writeTimingData, bind, getSelf, liftW, storeOutfile, throw, ret.
  intros Hrun. run_inv Hrun; simpl; [rewrite app_nil_r; reflexivity|].
  match goal with
  | H : forRange _ _ _ _ _ = Ok _ |- _ =>
      pose proof (csv_lines_inv _ _ _ _ _ _ _ H); subst;
      apply (csv_lines_content _ _ 0%nat) in H; destruct H as (_ & ->)
  end.
  simpl. rewrite drop_0. reflexivity.
Qed.

Lemma forEach_warnSlower_out (sorted : list BlockStats) (n : Z) (med : double)
    (pcts : list Z) (s s' : Sys) :
  forEach pcts (warnSlower sorted n med) s = Ok (tt, s') →
  outfiles s' = outfiles s ∧
  ∃ warnings, cout s' = cout s ++ warnings ∧ forallb isWarning warnings = true.
Proof.
  revert s. induction pcts as [|pct pcts IH]; intros s Hrun; simpl in Hrun.
  - unfold ret in Hrun. apply Ok_inv in Hrun. injection Hrun as <-.
    split; [reflexivity|]. exists []. rewrite app_nil_r. split; reflexivity.
  - apply bind_Ok_inv in Hrun. destruct Hrun as ([] & s1 & Hwarn & Hrun).
    apply IH in Hrun. destruct Hrun as (Hf & ws & Hc & Hws).
    unfold warnSlower, bind, inRange, print, ret, undefined in Hwarn.
    run_inv Hwarn; simpl in *.
    + split; [exact Hf|]. exists (OutWarning (d_of_u64 pct) z :: ws).
      split; [rewrite Hc, <- app_assoc; reflexivity | exact Hws].
    + split; [exact Hf|]. exists ws. split; [exact Hc | exact Hws].
Qed.

(** What [printPassStats] leaves: the records sorted, the timing file of
    the records as they were, and one summary line followed by warnings
    only. *)
Lemma printPassStats_out (read : bool) (s s' : Sys) :
  printPassStats read s = Ok (tt, s') →
  let sorted := std_sort slowerThan (blockStats (self s)) in
  self s' = set_blockStats sorted (self s) ∧
  outfiles s' =
    outfiles s ++
      (if String.eqb (outfile (self s)) EmptyString then []
       else [{| of_prefix := outfile (self s);
                of_readWrite := if read then "read" else "write";
                of_passIndex := passIndex (self s); of_sizeBytes := sizeBytes (self s);
                of_lines := csvLines (take (Z.to_nat (numBlocks (self s)))
                                           (blockStats (self s))) |}]) ∧
  ∃ min avg med max warnings,
    cout s' = cout s ++
      OutPassStats (wrap64 (passIndex (self s) + 1)) (numPasses (self s))
        (if read then "read" else "write") (errorsPrinted sorted) min avg med max
      :: warnings ∧
    forallb isWarning warnings = true.
Proof.
  intros Hrun sorted. subst sorted. unfold printPassStats in Hrun.
  apply bind_Ok_inv in Hrun. destruct Hrun as ([] & s1 & Hcsv & Hrun).
  pose proof (writeTimingData_out _ _ _ Hcsv) as Hfiles.
  apply writeTimingData_inv in Hcsv. destruct Hcsv as (Hself1 & Hcout1 & _ & _).
  unfold bind, getSelf, modifySelf, inRange, print, ret, undefined in Hrun.
  run_inv Hrun.
  pose proof (forEach_warnSlower_inv _ _ _ percentiles _ _ Hrun) as (Hself & _ & _).
  apply (forEach_warnSlower_out _ _ _ percentiles) in Hrun. simpl in Hrun, Hself.
  destruct Hrun as (Hf & ws & Hc & Hws).
  rewrite Hself, Hf, Hfiles, Hc, Hself1, Hcout1, <- app_assoc.
  split; [reflexivity|]. split; [reflexivity|].
  do 4 eexists. exists ws. split; [reflexivity | exact Hws].
Qed.

End StatsOutput.

Section WholePass.
Context `{D : DoubleOps} {IO : BlockIO}.

Lemma fresh_records (n j : nat) (from : nat) :
  (from ≤ j < from + n)%nat → from = 0%nat →
  replicate n BlockStats_zero !! j = Some BlockStats_zero.
Proof. intros Hj ->. apply lookup_replicate_2. lia. Qed.

Lemma readPass_timed_records (pattern : optional_u8) (s s' : Sys) :
  readPass pattern s = Ok (tt, s') →
  ∃ fd ts before after min avg med max,
    passLeaves (ReadPass pattern) s s' fd ts before after min avg med max ∧
    passTimed (ReadPass pattern) s s' fd ts.
Proof.
  unfold readPass, deref, bind, liftW, getSelf, getWorld, logSyscall, modifySelf, throw, ret.
  intros Hrun. run_inv Hrun. destruct u.
  apply (blockLoop_records _ _ _ _ _ _ _ (readBlock_blockAccount pattern z) 0%nat) in Heqo;
    [|simpl; intros j Hj; apply (fresh_records _ _ 0); [exact Hj | reflexivity]].
  destruct Heqo as (ts & lines & Hst & Hsz & Hbs & Htot & Hoth & Hf & Hdev & Hpi & Hnp
                    & Hc & Hl & He & Hbad & Hsteps).
  simpl in Hst, Hsz, Hbs, Htot, Hoth, Hf, Hdev, Hpi, Hnp, Hc, Hsteps.
  assert (Hlen : length ts = Z.to_nat (numBlocks (self s))).
  { rewrite <- (length_map t_size), Hsz, length_map, length_seq. reflexivity. }
  rewrite drop_ge, app_nil_r in Hbs by (rewrite length_replicate; lia).
  pose proof (printPassStats_world _ _ _ Heqo0) as Hworld. simpl in Hworld.
  pose proof (printPassStats_inv _ _ _ Heqo0) as (_ & _ & _ & _ & _ & Hst1 & _).
  apply printPassStats_out in Heqo0. cbv zeta in Heqo0. simpl in Heqo0, Hst1.
  destruct Heqo0 as (Hself & Hfiles & min & avg & med & max & after & Hcout & Hafter).
  pose proof Hdev as (Hfn & Hof & HB & HS & Hn & Hp).
  simpl in Hfn, Hof, HB, HS, Hn, Hp.
  exists z, ts, lines, after, min, avg, med, max. split.
  - unfold passLeaves. simpl.
    rewrite Hself, Hfiles, Hcout, Hst1, Hbs, Hst, Hc, Hf. simpl.
    rewrite ?Hbs, ?Hpi, ?Hnp, ?Hof, ?HS, ?Hn.
    rewrite take_ge by (rewrite length_map; lia).
    split; [rewrite <- !app_assoc; reflexivity|].
    split; [rewrite Hsz; reflexivity|]. split; [apply std_sort_perm|].
    split; [exact Htot|]. split; [exact Hoth|].
    split; [unfold sameDevice; simpl; repeat split; assumption|].
    split; [reflexivity|]. split; [reflexivity|]. split; [reflexivity|].
    split; [rewrite <- app_assoc; reflexivity|].
    split; [exact Hl|]. split; [exact He|]. split; [exact Hafter | exact Hbad].
  - exists (world s0). unfold passTransfers. simpl.
    rewrite Heqp. simpl. rewrite Heqp0. simpl.
    change 0 with (Z.of_nat 0) at 1. rewrite Hsteps. simpl.
    rewrite Hworld, Hof. split; reflexivity.
Qed.

Lemma writePass_timed_records (pattern : Z) (s s' : Sys) :
  writePass pattern s = Ok (tt, s') →
  ∃ fd ts before after min avg med max,
    passLeaves (WritePass pattern) s s' fd ts before after min avg med max ∧
    passTimed (WritePass pattern) s s' fd ts.
Proof.
  unfold writePass, bind, liftW, getSelf, getWorld, logSyscall, modifySelf, throw, ret.
  intros Hrun. run_inv Hrun. destruct u.
  apply (blockLoop_records _ _ _ _ _ _ _ (writeBlock_blockAccount pattern z) 0%nat) in Heqo;
    [|simpl; intros j Hj; apply (fresh_records _ _ 0); [exact Hj | reflexivity]].
  destruct Heqo as (ts & lines & Hst & Hsz & Hbs & Htot & Hoth & Hf & Hdev & Hpi & Hnp
                    & Hc & Hl & He & Hbad & Hsteps).
  simpl in Hst, Hsz, Hbs, Htot, Hoth, Hf, Hdev, Hpi, Hnp, Hc, Hsteps.
  assert (Hlen : length ts = Z.to_nat (numBlocks (self s))).
  { rewrite <- (length_map t_size), Hsz, length_map, length_seq. reflexivity. }
  rewrite drop_ge, app_nil_r in Hbs by (rewrite length_replicate; lia).
  pose proof (printPassStats_world _ _ _ Heqo0) as Hworld. simpl in Hworld.
  pose proof (printPassStats_inv _ _ _ Heqo0) as (_ & _ & _ & _ & _ & Hst1 & _).
  apply printPassStats_out in Heqo0. cbv zeta in Heqo0. simpl in Heqo0, Hst1.
  destruct Heqo0 as (Hself & Hfiles & min & avg & med & max & after & Hcout & Hafter).
  pose proof Hdev as (Hfn & Hof & HB & HS & Hn & Hp).
  simpl in Hfn, Hof, HB, HS, Hn, Hp.
  exists z, ts, lines, after, min, avg, med, max. split.
  - unfold passLeaves. simpl.
    rewrite Hself, Hfiles, Hcout, Hst1, Hbs, Hst, Hc, Hf. simpl.
    rewrite ?Hbs, ?Hpi, ?Hnp, ?Hof, ?HS, ?Hn.
    rewrite take_ge by (rewrite length_map; lia).
    split; [rewrite <- !app_assoc; reflexivity|].
    split; [rewrite Hsz; reflexivity|]. split; [apply std_sort_perm|].
    split; [exact Htot|]. split; [exact Hoth|].
    split; [unfold sameDevice; simpl; repeat split; assumption|].
    split; [reflexivity|]. split; [reflexivity|]. split; [reflexivity|].
    split; [rewrite <- app_assoc; reflexivity|].
    split; [exact Hl|]. split; [exact He|]. split; [exact Hafter | exact Hbad].
  - exists (world s0). unfold passTransfers. simpl.
    rewrite Heqp. simpl. rewrite Heqp0. simpl.
    change 0 with (Z.of_nat 0) at 1. rewrite Hsteps. simpl.
    rewrite Hworld, Hof. split; reflexivity.
Qed.

Lemma pass_timed_records (p : Pass) (s s' : Sys) :
  runPass p s = Ok (tt, s') →
  ∃ fd ts before after min avg med max,
    passLeaves p s s' fd ts before after min avg med max ∧ passTimed p s s' fd ts.
Proof.
  destruct p as [pattern|pattern];
    [apply readPass_timed_records | apply writePass_timed_records].
Qed.

Lemma readPass_records (pattern : optional_u8) (s s' : Sys) :
  readPass pattern s = Ok (tt, s') →
  ∃ fd ts before after min avg med max,
    passLeaves (ReadPass pattern) s s' fd ts before after min avg med max.
Proof.
  intros Hrun. destruct (readPass_timed_records _ _ _ Hrun)
    as (fd & ts & before & after & min & avg & med & max & Hleaves & _).
  exists fd, ts, before, after, min, avg, med, max. exact Hleaves.
Qed.

Lemma writePass_records (pattern : Z) (s s' : Sys) :
  writePass pattern s = Ok (tt, s') →
  ∃ fd ts before after min avg med max,
    passLeaves (WritePass pattern) s s' fd ts before after min avg med max.
Proof.
  intros Hrun. destruct (writePass_timed_records _ _ _ Hrun)
    as (fd & ts & before & after & min & avg & med & max & Hleaves & _).
  exists fd, ts, before, after, min, avg, med, max. exact Hleaves.
Qed.

Lemma pass_records (p : Pass) (s s' : Sys) :
  runPass p s = Ok (tt, s') →
  ∃ fd ts before after min avg med max,
    passLeaves p s s' fd ts before after min avg med max.
Proof.
  destruct p as [pattern|pattern]; [apply readPass_records | apply writePass_records].
Qed.

End WholePass.

Section ErrorAccount.
Context `{D : DoubleOps} {IO : BlockIO}.

Lemma errors_account (t : Transfer) (b : BlockStats) :
  errors (account t b) = if hasError t then wrap64 (errors b + 1) else errors b.
Proof.
  unfold account, recordTransfer, hasError.
  destruct (decide (t_result t < 0)) as [Hneg|Hpos].
  - rewrite bool_decide_eq_true_2 by exact Hneg. reflexivity.
  - rewrite bool_decide_eq_false_2 by exact Hpos. destruct (t_bad t); reflexivity.
Qed.

Lemma errors_recordOf (t : Transfer) : errors (recordOf t) = if hasError t then 1 else 0.
Proof. unfold recordOf. rewrite errors_account. destruct (hasError t); reflexivity. Qed.

Lemma sumErrors_records (ts : list Transfer) : sumErrors (map recordOf ts) = countErrors ts.
Proof.
  unfold sumErrors, countErrors. rewrite map_map. f_equal. apply map_ext.
  intros t. apply errors_recordOf.
Qed.

Lemma countErrors_range (ts : list Transfer) : 0 ≤ countErrors ts ≤ Z.of_nat (length ts).
Proof.
  unfold countErrors. induction ts as [|t ts IH]; simpl; [lia|].
  destruct (hasError t); lia.
Qed.

Lemma errors_fold (ts : list Transfer) :
  ∀ b, wrap64 (errors (fold_left (fun b t => account t b) ts b))
       = wrap64 (errors b + countErrors ts).
Proof.
  unfold countErrors. induction ts as [|t ts IH]; intros b; simpl.
  - rewrite Z.add_0_r. reflexivity.
  - rewrite IH, errors_account. destruct (hasError t).
    + unfold wrap64. rewrite Z.add_mod_idemp_l by (unfold two64; lia). f_equal. lia.
    + f_equal; lia.
Qed.

Lemma sumErrors_perm (l1 l2 : list BlockStats) :
  Permutation l1 l2 → sumErrors l1 = sumErrors l2.
Proof.
  unfold sumErrors. induction 1 as [|x l1 l2 _ IH|x y l|l1 l2 l3 _ IH1 _ IH2]; simpl; lia.
Qed.

(** The [int] accumulator of the summary line is exact below [2^31]. *)
Lemma errorsPrinted_exact (stats : list BlockStats) :
  Forall (fun b => 0 ≤ errors b ≤ 1) stats → Z.of_nat (length stats) < 2147483648 →
  errorsPrinted stats = sumErrors stats.
Proof.
  unfold errorsPrinted, sumErrors.
  assert (Hgen : ∀ acc, 0 ≤ acc →
            Forall (fun b => 0 ≤ errors b ≤ 1) stats →
            acc + Z.of_nat (length stats) < 2147483648 →
            fold_left (fun acc r => to_int32 (wrap64 (wrap64 acc + errors r))) stats acc
            = acc + sumZ (map errors stats) ∧ 0 ≤ acc + sumZ (map errors stats) < 2147483648).
  { induction stats as [|b stats IH]; intros acc Hacc Hall Hlen; simpl in *.
    - lia.
    - inversion Hall as [|? ? Hb Hrest]; subst.
      assert (Hstep : to_int32 (wrap64 (wrap64 acc + errors b)) = acc + errors b).
      { unfold to_int32, wrap64, two64. rewrite (Z.mod_small acc) by lia.
        rewrite (Z.mod_small (acc + errors b)) by lia.
        rewrite Z.mod_small by lia. lia. }
      rewrite Hstep. destruct (IH (acc + errors b) ltac:(lia) Hrest ltac:(lia)) as [-> Hr].
      lia. }
  intros Hall Hlen. destruct (Hgen 0 ltac:(lia) Hall ltac:(lia)) as [-> Hr].
  unfold wrap64, two64. rewrite Z.mod_small by lia. lia.
Qed.

Lemma badBlocks_length (ts : list Transfer) :
  ∀ from, Z.of_nat (length (badBlocks from ts))
          = sumZ (map (fun t => if t_bad t then 1 else 0) ts).
Proof.
  induction ts as [|t ts IH]; intros from; simpl; [reflexivity|].
  rewrite length_app, Nat2Z.inj_add, IH. destruct (t_bad t); simpl; lia.
Qed.

Lemma countErrors_split (ts : list Transfer) (verifies : bool) :
  Forall (fun t => t_bad t = true → verifies = true ∧ 0 ≤ t_result t) ts →
  countErrors ts
  = failedCount (map (fun t => (t_size t, t_result t)) ts)
    + Z.of_nat (length (badBlocks 0 ts)).
Proof.
  rewrite badBlocks_length. unfold countErrors, failedCount. rewrite map_map.
  induction 1 as [|t ts Ht _ IH]; simpl; [reflexivity|].
  rewrite IH. unfold hasError.
  destruct (decide (t_result t < 0)) as [Hneg|Hpos].
  - rewrite bool_decide_eq_true_2 by exact Hneg. simpl.
    destruct (t_bad t); [destruct (Ht eq_refl); lia | lia].
  - rewrite bool_decide_eq_false_2 by exact Hpos. simpl. destruct (t_bad t); lia.
Qed.

Lemma badBlocks_none (ts : list Transfer) (from : Z) :
  Forall (fun t => t_bad t = true → false = true ∧ 0 ≤ t_result t) ts →
  badBlocks from ts = [].
Proof.
  intros Hall. revert from. induction Hall as [|t ts Ht _ IH]; intros from; simpl;
    [reflexivity|].
  rewrite IH. destruct (t_bad t); [destruct (Ht eq_refl); discriminate | reflexivity].
Qed.

(** X2: in a completed pass over fewer than [2^31] blocks, the error
    count of the summary line is the number of read or write calls that
    failed plus the number of data error lines printed.  It is the sum of
    the records' error counts, each of them 0 or 1, and the direction's
    total grows by it (modulo [2^64]) while the other direction's total
    stays as it was.  A pass that verifies nothing prints no data error
    line. *)
Theorem pass_error_account (p : Pass) (s s' : Sys) :
  runPass p s = Ok (tt, s') → numBlocks (self s) < 2147483648 →
  ∃ fd calls before after min avg med max,
    let k := failedCount calls + Z.of_nat (length (dataErrorBlocks before)) in
    strace s' = strace s ++
      SysOpen (passReadOnly p) fd :: map (passCall p) calls ++ [SysClose fd] ∧
    cout s' = cout s ++ before ++
      OutPassStats (wrap64 (passIndex (self s) + 1)) (numPasses (self s)) (passName p)
        k min avg med max :: after ∧
    forallb isBlockLine before = true ∧ forallb isWarning after = true ∧
    (passVerifies p = false → dataErrorBlocks before = []) ∧
    sumErrors (blockStats (self s')) = k ∧
    Forall (fun b => errors b = 0 ∨ errors b = 1) (blockStats (self s')) ∧
    wrap64 (errors (dirTotal p (self s'))) = wrap64 (errors (dirTotal p (self s)) + k) ∧
    otherTotal p (self s') = otherTotal p (self s).
Proof.
  intros Hrun Hsmall.
  destruct (pass_records p s s' Hrun)
    as (fd & ts & before & after & min & avg & med & max & Hst & Hsz & Hperm & Htot & Hoth
        & Hdev & Hpi & Hnp & Hfiles & Hcout & Hbefore & Herr & Hafter & Hbad).
  cbv zeta in *.
  assert (Hlen : length ts = Z.to_nat (numBlocks (self s))).
  { rewrite <- (length_map t_size), Hsz. unfold accessSizes.
    rewrite length_map, length_seq. reflexivity. }
  assert (Hbits : Forall (fun b : BlockStats => 0 ≤ errors b ≤ 1) (map recordOf ts)).
  { apply List.Forall_forall. intros b Hb. apply in_map_iff in Hb.
    destruct Hb as (t & <- & _). rewrite errors_recordOf. destruct (hasError t); lia. }
  assert (Hk : countErrors ts
               = failedCount (map (fun t => (t_size t, t_result t)) ts)
                 + Z.of_nat (length (dataErrorBlocks before)))
    by (rewrite Herr; apply (countErrors_split _ _ Hbad)).
  exists fd, (map (fun t => (t_size t, t_result t)) ts), before, after, min, avg, med, max.
  rewrite <- Hk.
  split; [rewrite Hst, map_map; reflexivity|].
  split.
  { rewrite Hcout. do 3 f_equal.
    rewrite errorsPrinted_exact, (sumErrors_perm _ _ Hperm), sumErrors_records.
    - reflexivity.
    - eapply Permutation_Forall; [symmetry; exact Hperm | exact Hbits].
    - rewrite (Permutation_length Hperm), length_map, Hlen. lia. }
  split; [exact Hbefore|]. split; [exact Hafter|].
  split.
  { intros Hv. rewrite Herr. apply badBlocks_none. rewrite <- Hv. exact Hbad. }
  split; [rewrite (sumErrors_perm _ _ Hperm); apply sumErrors_records|].
  split.
  { eapply Permutation_Forall; [symmetry; exact Hperm|].
    eapply List.Forall_impl; [|exact Hbits]. simpl. intros b Hb. lia. }
  split; [rewrite Htot; apply errors_fold | exact Hoth].
Qed.

End ErrorAccount.

Section Reports.
Context `{D : DoubleOps} {IO : BlockIO}.

Lemma time_recordOf (t : Transfer) :
  time (recordOf t) = if decide (t_result t < 0) then d_zero else d_add d_zero (t_elapsed t).
Proof.
  unfold recordOf, account, recordTransfer.
  destruct (decide (t_result t < 0)); [reflexivity|]. destruct (t_bad t); reflexivity.
Qed.

(** X3: a completed pass writes no timing file without a prefix, and
    with one exactly one file, named by the prefix, the direction, the
    pass index and the device size.  Its line [i] gives block [i] in block
    order: the index, the time of the block's call ([0.0 + elapsed], with
    [elapsed] the reading of the clock after the call minus the reading
    before it, or [0.0] if the call failed) and the block's error count (0
    or 1).  The blocks' transfers are those the world answers to the
    pass's calls; the file is created in the world left by the last block
    and the [close]; and the records left in memory are the file's
    records, rearranged. *)
Theorem pass_timing_file (p : Pass) (s s' : Sys) :
  runPass p s = Ok (tt, s') →
  ∃ fd ts w,
    passTransfers p (self s) (world s) = Some (fd, ts, w) ∧
    strace s' = strace s ++
      SysOpen (passReadOnly p) fd
      :: map (fun t => passCall p (t_size t, t_result t)) ts ++ [SysClose fd] ∧
    Z.of_nat (length ts) = numBlocks (self s) ∧
    outfiles s' =
      outfiles s ++
        (if String.eqb (outfile (self s)) EmptyString then []
         else [{| of_prefix := outfile (self s); of_readWrite := passName p;
                  of_passIndex := passIndex (self s); of_sizeBytes := sizeBytes (self s);
                  of_lines :=
                    imap (fun i t =>
                            (Z.of_nat i,
                             if decide (t_result t < 0) then d_zero
                             else d_add d_zero (t_elapsed t),
                             if hasError t then 1 else 0)) ts |}]) ∧
    world s' = (if String.eqb (outfile (self s)) EmptyString then sys_close fd w
                else (ofstream_open (sys_close fd w)).2) ∧
    Permutation (blockStats (self s')) (map recordOf ts).
Proof.
  intros Hrun.
  pose proof (completed_pass_has_block p s s' Hrun) as Hone.
  destruct (pass_timed_records p s s' Hrun)
    as (fd & ts & before & after & min & avg & med & max & Hleaves & w & Hts & Hw).
  destruct Hleaves as (Hst & Hsz & Hbs & _ & _ & _ & _ & _ & Hfiles & _).
  cbv zeta in *.
  assert (Hlen : length ts = Z.to_nat (numBlocks (self s))).
  { rewrite <- (length_map t_size), Hsz. unfold accessSizes.
    rewrite length_map, length_seq. reflexivity. }
  exists fd, ts, w.
  split; [exact Hts|]. split; [exact Hst|]. split; [lia|].
  split; [|split; [exact Hw | exact Hbs]].
  rewrite Hfiles. f_equal. destruct (String.eqb _ _); [reflexivity|].
  do 2 f_equal. unfold csvLines. rewrite imap_fmap. apply imap_ext.
  intros i t _. simpl. rewrite time_recordOf, errors_recordOf. reflexivity.
Qed.

(** X4: the comparison of [readPass] stops at the first of the [n]
    bytes that differs: it reports that byte, as expected and as found,
    and counts one error in the block's record and one in the read total,
    however many bytes differ; if none differs it changes nothing. *)
Theorem verify_reports_first_mismatch (n : nat) (buffer expected : list Z)
    (blockIndex : Z) (s s' : Sys) :
  verifyBlock n 0 buffer expected blockIndex s = Ok (tt, s') →
  match firstMismatch (take n buffer) (take n expected) with
  | None => take n buffer = take n expected ∧ s' = s
  | Some (wanted, actual) =>
      take n buffer ≠ take n expected ∧
      ∃ b,
        blockStats (self s) !! Z.to_nat blockIndex = Some b ∧
        s' = {| self := set_totalRead (incErrors (totalRead (self s)))
                          (set_blockStats (<[Z.to_nat blockIndex := incErrors b]>
                                             (blockStats (self s))) (self s));
                world := world s;
                cout := cout s ++ [OutDataError wanted actual blockIndex];
                outfiles := outfiles s; strace := strace s;
                disengagedDerefs := disengagedDerefs s |}
  end.
Proof.
  intros Hrun.
  pose proof (verifyBlock_first n 0%nat buffer expected blockIndex s s' Hrun) as Hfirst.
  rewrite !drop_0 in Hfirst.
  apply verifyBlock_inv in Hrun; [|lia]. simpl in Hrun. rewrite !drop_0 in Hrun.
  destruct (firstMismatch _ _) as [[wanted actual]|].
  - destruct Hfirst as (Hdiff & Hc & _). split; [exact Hdiff|].
    destruct Hrun as [[Hsame _]|[_ (b & w & a & _ & Hb & Hs)]]; [contradiction|].
    exists b. split; [exact Hb|].
    rewrite Hs in Hc. simpl in Hc. apply app_inv_head in Hc. injection Hc as -> ->.
    exact Hs.
  - exact Hfirst.
Qed.

End Reports.

Section VerdictProofs.
Context `{D : DoubleOps} {IO : BlockIO}.

Lemma failedReads_app (t1 t2 : list Syscall) :
  failedReads (t1 ++ t2) = failedReads t1 + failedReads t2.
Proof. unfold failedReads. rewrite map_app. apply sumZ_app. Qed.

Lemma failedWrites_app (t1 t2 : list Syscall) :
  failedWrites (t1 ++ t2) = failedWrites t1 + failedWrites t2.
Proof. unfold failedWrites. rewrite map_app. apply sumZ_app. Qed.

Lemma dataErrorLines_app (o1 o2 : list Output) :
  dataErrorLines (o1 ++ o2) = dataErrorLines o1 + dataErrorLines o2.
Proof. unfold dataErrorLines. rewrite dataErrorBlocks_app, length_app. lia. Qed.

Lemma failed_passCalls (p : Pass) (calls : list (Z * Z)) :
  failedReads (map (passCall p) calls) = (if passReadOnly p then failedCount calls else 0) ∧
  failedWrites (map (passCall p) calls) = (if passReadOnly p then 0 else failedCount calls).
Proof.
  unfold failedReads, failedWrites, failedCount. rewrite !map_map.
  destruct p; simpl; split;
    (induction calls as [|[size result] calls IH]; [reflexivity|]);
    simpl in *; lia.
Qed.

Lemma warnings_no_data_error (out : list Output) :
  forallb isWarning out = true → dataErrorLines out = 0.
Proof.
  unfold dataErrorLines, dataErrorBlocks.
  induction out as [|o out IH]; simpl; [reflexivity|].
  intros Hw. apply andb_prop in Hw. destruct Hw as [Ho Hw].
  destruct o; try discriminate. simpl. exact (IH Hw).
Qed.

Lemma errors_account_range (t : Transfer) (b : BlockStats) :
  is_u64 (errors b) → is_u64 (errors (account t b)).
Proof.
  intros Hb. rewrite errors_account. destruct (hasError t); [|exact Hb].
  unfold is_u64, wrap64. apply Z.mod_pos_bound. unfold two64. lia.
Qed.

Lemma errors_fold_exact (ts : list Transfer) (b : BlockStats) :
  is_u64 (errors b) →
  errors (fold_left (fun b t => account t b) ts b) = wrap64 (errors b + countErrors ts).
Proof.
  intros Hb. rewrite <- errors_fold.
  assert (Hr : is_u64 (errors (fold_left (fun b t => account t b) ts b))).
  { revert b Hb. induction ts as [|t ts IH]; intros b Hb; simpl; [exact Hb|].
    apply IH, errors_account_range, Hb. }
  unfold wrap64. rewrite Z.mod_small; [reflexivity | exact Hr].
Qed.

Lemma wrap64_range (z : Z) : is_u64 (wrap64 z).
Proof. unfold is_u64, wrap64. apply Z.mod_pos_bound. unfold two64. lia. Qed.

Lemma wrap64_add_l (x y : Z) : wrap64 (wrap64 x + y) = wrap64 (x + y).
Proof. unfold wrap64. apply Z.add_mod_idemp_l. unfold two64. lia. Qed.

(** What a completed pass adds to the failed calls and the data error
    lines seen, and to the totals. *)
Lemma pass_found (p : Pass) (s s' : Sys) :
  runPass p s = Ok (tt, s') →
  ∃ failed differing,
    0 ≤ failed ∧ 0 ≤ differing ∧ (passVerifies p = false → differing = 0) ∧
    failedReads (strace s') = failedReads (strace s) + (if passReadOnly p then failed else 0) ∧
    failedWrites (strace s')
      = failedWrites (strace s) + (if passReadOnly p then 0 else failed) ∧
    dataErrorLines (cout s') = dataErrorLines (cout s) + differing ∧
    (is_u64 (errors (dirTotal p (self s))) →
     errors (dirTotal p (self s'))
       = wrap64 (errors (dirTotal p (self s)) + (failed + differing))) ∧
    otherTotal p (self s') = otherTotal p (self s).
Proof.
  intros Hrun.
  destruct (pass_records p s s' Hrun)
    as (fd & ts & before & after & min & avg & med & max & Hst & Hsz & Hbs & Htot & Hoth
        & Hdev & Hpi & Hnp & Hfiles & Hcout & Hbefore & Herr & Hafter & Hbad).
  cbv zeta in *.
  pose proof (countErrors_split _ _ Hbad) as Hk.
  destruct (failed_passCalls p (map (fun t => (t_size t, t_result t)) ts)) as [Hfr Hfw].
  rewrite map_map in Hfr, Hfw. simpl in Hfr, Hfw.
  exists (failedCount (map (fun t => (t_size t, t_result t)) ts)),
         (Z.of_nat (length (badBlocks 0 ts))).
  split.
  { unfold failedCount. clear. induction ts as [|t ts IH]; simpl; [lia|].
    destruct (decide (t_result t < 0)); lia. }
  split; [lia|].
  split.
  { intros Hv. rewrite (badBlocks_none ts 0); [reflexivity|]. rewrite <- Hv. exact Hbad. }
  split.
  { rewrite Hst, failedReads_app.
    change (SysOpen ?a ?b :: ?l) with ([SysOpen a b] ++ l).
    rewrite !failedReads_app, Hfr. simpl. unfold failedReads. simpl. lia. }
  split.
  { rewrite Hst, failedWrites_app.
    change (SysOpen ?a ?b :: ?l) with ([SysOpen a b] ++ l).
    rewrite !failedWrites_app, Hfw. simpl. unfold failedWrites. simpl. lia. }
  split.
  { rewrite Hcout, !dataErrorLines_app.
    change (OutPassStats ?a ?b ?c ?d ?e ?f ?g ?h :: after)
      with ([OutPassStats a b c d e f g h] ++ after).
    rewrite dataErrorLines_app, (warnings_no_data_error after Hafter).
    unfold dataErrorLines at 2 3. rewrite Herr. simpl. lia. }
  split; [|exact Hoth].
  intros Hrange. rewrite Htot, errors_fold_exact, Hk by exact Hrange. reflexivity.
Qed.

(** Every completed pass keeps the totals in step with what was seen. *)
Lemma pass_errorsAgree (p : Pass) (s s' : Sys) :
  runPass p s = Ok (tt, s') → errorsAgree s → errorsAgree s'.
Proof.
  intros Hrun [Hr Hw].
  destruct (pass_found p s s' Hrun)
    as (failed & differing & _ & _ & Hquiet & Hreads & Hwrites & Hdata & Htot & Hoth).
  unfold errorsAgree. rewrite Hdata, Hreads, Hwrites.
  destruct p as [pattern|pattern]; simpl in *.
  - rewrite Htot, Hoth by (rewrite Hr; apply wrap64_range).
    rewrite Hr, wrap64_add_l.
    split; [apply (f_equal wrap64); lia | rewrite Hw; apply (f_equal wrap64); lia].
  - rewrite Htot, Hoth by (rewrite Hw; apply wrap64_range).
    rewrite Hw, wrap64_add_l, (Hquiet eq_refl).
    split; [rewrite Hr; apply (f_equal wrap64); lia | apply (f_equal wrap64); lia].
Qed.

Lemma forRange_invariant {Acc} (I : Sys → Prop) (body : Z → Acc → M Acc) :
  (∀ i acc s acc' s', body i acc s = Ok (acc', s') → I s → I s') →
  ∀ n from acc s acc' s', forRange n from body acc s = Ok (acc', s') → I s → I s'.
Proof.
  intros Hbody. induction n as [|n IH]; intros from acc s acc' s' Hrun HI;
    cbn [forRange] in Hrun.
  - unfold ret in Hrun. apply Ok_inv in Hrun. injection Hrun as _ <-. exact HI.
  - apply bind_Ok_inv in Hrun. destruct Hrun as (acc1 & s1 & Hb & Hrun).
    exact (IH _ _ _ _ _ Hrun (Hbody _ _ _ _ _ Hb HI)).
Qed.

Lemma checkReadOnly_errorsAgree (s s' : Sys) :
  checkReadOnly s = Ok (tt, s') → errorsAgree s → errorsAgree s'.
Proof.
  unfold checkReadOnly. intros Hrun HI.
  unfold bind at 1 2 3 4, modifySelf, getWorld in Hrun. simpl in Hrun.
  exact (pass_errorsAgree (ReadPass _) _ _ Hrun HI).
Qed.

Lemma modifySelf_inv (f : BlockChecker → BlockChecker) (u : unit) (s s' : Sys) :
  modifySelf f s = Ok (u, s') →
  s' = {| self := f (self s); world := world s; cout := cout s; outfiles := outfiles s;
          strace := strace s; disengagedDerefs := disengagedDerefs s |}.
Proof. unfold modifySelf. intros Hrun. apply Ok_inv in Hrun. congruence. Qed.

(** A completed round of [checkWriteRead]: the two passes it ran. *)
Lemma round_inv (i : Z) (s s' : Sys) :
  (let* c := getSelf in
   let* p := inRange "patterns" (vec_get (patterns c) i) in
   writePass p ;;
   let* c := getSelf in
   let* p := inRange "patterns" (vec_get (patterns c) i) in
   readPass (engaged p)) s = Ok (tt, s') →
  ∃ pw pr s1,
    vec_get (patterns (self s)) i = Some pw ∧ writePass pw s = Ok (tt, s1) ∧
    vec_get (patterns (self s1)) i = Some pr ∧ readPass (engaged pr) s1 = Ok (tt, s').
Proof.
  intros Hbody.
  apply bind_Ok_inv in Hbody. destruct Hbody as (c & s0 & Hc & Hbody).
  unfold getSelf in Hc. apply Ok_inv in Hc. injection Hc as <- <-.
  apply bind_Ok_inv in Hbody. destruct Hbody as (p & s0 & Hp & Hbody).
  unfold inRange, ret, undefined in Hp.
  destruct (vec_get (patterns (self s)) i) as [pw|] eqn:Hpw; [|discriminate].
  apply Ok_inv in Hp. injection Hp as <- <-.
  apply bind_Ok_inv in Hbody. destruct Hbody as ([] & s1 & Hwrite & Hbody).
  apply bind_Ok_inv in Hbody. destruct Hbody as (c1 & s2 & Hc & Hbody).
  unfold getSelf in Hc. apply Ok_inv in Hc. injection Hc as <- <-.
  apply bind_Ok_inv in Hbody. destruct Hbody as (p1 & s2 & Hp & Hbody).
  unfold inRange, ret, undefined in Hp.
  destruct (vec_get (patterns (self s1)) i) as [pr|] eqn:Hpr; [|discriminate].
  apply Ok_inv in Hp. injection Hp as <- <-.
  exists pw, pr, s1. split; [reflexivity|]. split; [exact Hwrite|].
  split; [exact Hpr | exact Hbody].
Qed.

(** [checkWriteRead], opened up at its loop. *)
Lemma checkWriteRead_loop (s s' : Sys) :
  checkWriteRead s = Ok (tt, s') →
  let n := wrap64 (Z.of_nat (length (patterns (self s))) * 2) in
  forRange (length (patterns (self s))) 0
    (fun i _ =>
       let* c := getSelf in
       let* p := inRange "patterns" (vec_get (patterns c) i) in
       writePass p ;;
       let* c := getSelf in
       let* p := inRange "patterns" (vec_get (patterns c) i) in
       readPass (engaged p)) tt
    {| self := set_writePassesRemaining (n / 2)
                 (set_readPassesRemaining (n / 2) (set_numPasses n (self s)));
       world := world s; cout := cout s; outfiles := outfiles s; strace := strace s;
       disengagedDerefs := disengagedDerefs s |} = Ok (tt, s').
Proof.
  unfold checkWriteRead. intros Hrun.
  apply bind_Ok_inv in Hrun. destruct Hrun as (u1 & s1 & H1 & Hrun).
  apply modifySelf_inv in H1. subst s1.
  apply bind_Ok_inv in Hrun. destruct Hrun as (u2 & s2 & H2 & Hrun).
  apply modifySelf_inv in H2. subst s2.
  apply bind_Ok_inv in Hrun. destruct Hrun as (u3 & s3 & H3 & Hrun).
  apply modifySelf_inv in H3. subst s3.
  apply bind_Ok_inv in Hrun. destruct Hrun as (c & s4 & H4 & Hrun).
  unfold getSelf in H4. apply Ok_inv in H4. injection H4 as <- <-.
  exact Hrun.
Qed.

Lemma checkWriteRead_errorsAgree (s s' : Sys) :
  checkWriteRead s = Ok (tt, s') → errorsAgree s → errorsAgree s'.
Proof.
  intros Hrun HI. apply checkWriteRead_loop in Hrun. cbv zeta in Hrun.
  eapply (forRange_invariant errorsAgree); [|exact Hrun|exact HI].
  clear. intros i [] s [] s' Hbody HI.
  apply round_inv in Hbody. destruct Hbody as (pw & pr & s1 & _ & Hwrite & _ & Hread).
  apply (pass_errorsAgree (ReadPass _) _ _ Hread).
  exact (pass_errorsAgree (WritePass _) _ _ Hwrite HI).
Qed.

Lemma printResult_inv (s s' : Sys) :
  printResult s = Ok (tt, s') →
  s' = {| self := self s; world := world s;
          cout := cout s ++
            [OutTransferRates (d_div (getReadBytesPerSecond (self s)) MB)
                              (d_div (getWriteBytesPerSecond (self s)) MB);
             verdict (errors (totalRead (self s))) (errors (totalWrite (self s)))];
          outfiles := outfiles s; strace := strace s;
          disengagedDerefs := disengagedDerefs s |}.
Proof.
  unfold printResult, bind, getSelf, print, verdict. intros Hrun.
  destruct (decide _); apply Ok_inv in Hrun; injection Hrun as <-;
    simpl; rewrite <- app_assoc; reflexivity.
Qed.

Lemma result_lines_no_data_error (readMBs writeMBs : double) (r w : Z) :
  dataErrorLines [OutTransferRates readMBs writeMBs; verdict r w] = 0.
Proof. unfold verdict. destruct (decide _); reflexivity. Qed.

Lemma checkReadOnly_quiet (s s' : Sys) :
  checkReadOnly s = Ok (tt, s') →
  failedWrites (strace s') = failedWrites (strace s) ∧
  dataErrorLines (cout s') = dataErrorLines (cout s).
Proof.
  unfold checkReadOnly. intros Hrun.
  unfold bind at 1 2 3 4, modifySelf, getWorld in Hrun. simpl in Hrun.
  destruct (pass_found (ReadPass _) _ _ Hrun)
    as (failed & differing & _ & _ & Hquiet & _ & Hwrites & Hdata & _).
  simpl in *. rewrite (Hquiet eq_refl) in Hdata. lia.
Qed.

(** X5: when a run completes, in either mode, the read errors it
    reports are the failed reads plus the data error lines it printed and
    the write errors are the failed writes (modulo [2^64]); its last line
    is the verdict on these two counts, after the line of the transfer
    rates.  A read-only run has no failed write and no data error line. *)
Theorem verdict_counts_failures (overwrite : bool) (filename_ : string) (blockSize_ : Z)
    (patterns_ : list Z) (outfile_ : string) (w : World) (s' : Sys) :
  run overwrite filename_ blockSize_ patterns_ outfile_ w = Ok (tt, s') →
  let readErrors := wrap64 (failedReads (strace s') + dataErrorLines (cout s')) in
  let writeErrors := wrap64 (failedWrites (strace s')) in
  errors (totalRead (self s')) = readErrors ∧
  errors (totalWrite (self s')) = writeErrors ∧
  (overwrite = false → failedWrites (strace s') = 0 ∧ dataErrorLines (cout s') = 0) ∧
  ∃ out rates, cout s' = out ++ [rates; verdict readErrors writeErrors].
Proof.
  unfold run, BlockChecker_new. intros Hrun.
  destruct (decide (blockSize_ = 0)); [discriminate|].
  destruct (decide (getFileSize filename_ w = 0)); [discriminate|].
  apply bind_Ok_inv in Hrun. destruct Hrun as ([] & s1 & Hcheck & Hprint).
  apply printResult_inv in Hprint. subst s'.
  match type of Hcheck with _ ?s0 = _ =>
    assert (Hfresh : errorsAgree s0 ∧ failedWrites (strace s0) = 0
                     ∧ dataErrorLines (cout s0) = 0)
      by (split; [split|split]; reflexivity)
  end.
  destruct Hfresh as (Hagree0 & Hw0 & Hd0).
  assert (Hagree : errorsAgree s1).
  { destruct overwrite;
      [exact (checkWriteRead_errorsAgree _ _ Hcheck Hagree0)
      | exact (checkReadOnly_errorsAgree _ _ Hcheck Hagree0)]. }
  destruct Hagree as [Hr Hw]. cbv zeta. simpl.
  rewrite dataErrorLines_app.
  rewrite result_lines_no_data_error, Z.add_0_r, <- Hr, <- Hw.
  split; [reflexivity|]. split; [reflexivity|]. split.
  - intros ->. destruct (checkReadOnly_quiet _ _ Hcheck) as [H1 H2]. lia.
  - eexists _, _. reflexivity.
Qed.

End VerdictProofs.

(** ** Session controller: the rounds of [checkWriteRead] *)

Section SessionProofs.
Context `{D : DoubleOps} {IO : BlockIO}.

Lemma summaryLines_app (o1 o2 : list Output) :
  summaryLines (o1 ++ o2) = summaryLines o1 ++ summaryLines o2.
Proof. apply omap_app. Qed.

Lemma block_lines_no_summary (out : list Output) :
  forallb isBlockLine out = true → summaryLines out = [].
Proof.
  unfold summaryLines. induction out as [|o out IH]; simpl; [reflexivity|].
  intros Hl. apply andb_prop in Hl. destruct Hl as [Ho Hl].
  destruct o; try discriminate; simpl; exact (IH Hl).
Qed.

Lemma warnings_no_summary (out : list Output) :
  forallb isWarning out = true → summaryLines out = [].
Proof.
  unfold summaryLines. induction out as [|o out IH]; simpl; [reflexivity|].
  intros Hl. apply andb_prop in Hl. destruct Hl as [Ho Hl].
  destruct o; try discriminate; simpl; exact (IH Hl).
Qed.

(** A completed pass, as the session sees it. *)
Lemma pass_in_session (p : Pass) (s s' : Sys) :
  runPass p s = Ok (tt, s') →
  ∃ fd calls,
    strace s' = strace s ++ passTrace p fd calls ∧
    map fst calls = accessSizes (blockSize (self s)) (sizeBytes (self s))
                      (Z.to_nat (numBlocks (self s))) ∧
    summaryLines (cout s')
      = summaryLines (cout s)
        ++ [(wrap64 (passIndex (self s) + 1), numPasses (self s), passName p)] ∧
    sameDevice (self s) (self s') ∧
    passIndex (self s') = wrap64 (passIndex (self s) + 1) ∧
    numPasses (self s') = numPasses (self s).
Proof.
  intros Hrun.
  destruct (pass_records p s s' Hrun)
    as (fd & ts & before & after & min & avg & med & max & Hst & Hsz & _ & _ & _
        & Hdev & Hpi & Hnp & _ & Hcout & Hbefore & _ & Hafter & _).
  cbv zeta in *.
  exists fd, (map (fun t => (t_size t, t_result t)) ts).
  split; [rewrite Hst; unfold passTrace; rewrite map_map; reflexivity|].
  split; [rewrite map_map; exact Hsz|].
  split; [|split; [exact Hdev|split; [exact Hpi | exact Hnp]]].
  rewrite Hcout, !summaryLines_app.
  change (OutPassStats ?a ?b ?c ?d ?e ?f ?g ?h :: after)
    with ([OutPassStats a b c d e f g h] ++ after).
  rewrite summaryLines_app, (block_lines_no_summary _ Hbefore),
    (warnings_no_summary _ Hafter), app_nil_r.
  reflexivity.
Qed.

Lemma wrap64_add_r (x y : Z) : wrap64 (x + wrap64 y) = wrap64 (x + y).
Proof. unfold wrap64. apply Z.add_mod_idemp_r. unfold two64. lia. Qed.

Lemma wrap64_shift (x i k : Z) :
  wrap64 (wrap64 (x + 2) + 2 * i + k) = wrap64 (x + 2 * (i + 1) + k).
Proof.
  rewrite <- Z.add_assoc, wrap64_add_l. apply (f_equal wrap64). lia.
Qed.

Lemma roundSummaries_S (passIndex numPasses : Z) (m : nat) :
  roundSummaries passIndex numPasses (S m)
  = [(wrap64 (passIndex + 1), numPasses, "write"%string);
     (wrap64 (passIndex + 2), numPasses, "read"%string)]
    ++ roundSummaries (wrap64 (passIndex + 2)) numPasses m.
Proof.
  unfold roundSummaries. cbn [seq flat_map]. rewrite <- seq_shift.
  replace (passIndex + 2 * Z.of_nat 0 + 1) with (passIndex + 1) by lia.
  replace (passIndex + 2 * Z.of_nat 0 + 2) with (passIndex + 2) by lia.
  cbn [app]. do 2 f_equal.
  induction (seq 0 m) as [|i l IH]; [reflexivity|].
  cbn [map flat_map]. rewrite IH, !wrap64_shift.
  replace (Z.of_nat i + 1) with (Z.of_nat (S i)) by lia. reflexivity.
Qed.

(** The rounds of [checkWriteRead] from round [from] on. *)
Lemma rounds_inv (m : nat) :
  ∀ (from : nat) (s s' : Sys),
    forRange m (Z.of_nat from)
      (fun i _ =>
         let* c := getSelf in
         let* p := inRange "patterns" (vec_get (patterns c) i) in
         writePass p ;;
         let* c := getSelf in
         let* p := inRange "patterns" (vec_get (patterns c) i) in
         readPass (engaged p)) tt s = Ok (tt, s') →
    is_u64 (passIndex (self s)) →
    ∃ rounds,
      map r_pattern rounds = take m (drop from (patterns (self s))) ∧ length rounds = m ∧
      roundsRun rounds s s' ∧
      strace s' = strace s ++ flat_map roundTrace rounds ∧
      Forall (fun r =>
                map fst (r_writes r)
                  = accessSizes (blockSize (self s)) (sizeBytes (self s))
                                (Z.to_nat (numBlocks (self s))) ∧
                map fst (r_reads r)
                  = accessSizes (blockSize (self s)) (sizeBytes (self s))
                                (Z.to_nat (numBlocks (self s)))) rounds ∧
      summaryLines (cout s')
        = summaryLines (cout s) ++ roundSummaries (passIndex (self s)) (numPasses (self s)) m ∧
      sameDevice (self s) (self s') ∧
      passIndex (self s') = wrap64 (passIndex (self s) + 2 * Z.of_nat m) ∧
      numPasses (self s') = numPasses (self s).
Proof.
  induction m as [|m IH]; intros from s s' Hrun Hpi; cbn [forRange] in Hrun.
  - unfold ret in Hrun. apply Ok_inv in Hrun. injection Hrun as <-.
    exists []. rewrite take_0. simpl. rewrite !app_nil_r, Z.add_0_r.
    unfold sameDevice, wrap64. rewrite Z.mod_small by exact Hpi.
    repeat split; try reflexivity. constructor.
  - apply bind_Ok_inv in Hrun. destruct Hrun as ([] & s2 & Hround & Hrun).
    apply round_inv in Hround.
    destruct Hround as (pw & pr & s1 & Hpw & Hwrite & Hpr & Hread).
    destruct (pass_in_session (WritePass pw) s s1 Hwrite)
      as (wfd & writes & Hst1 & Hsz1 & Hsum1 & Hdev1 & Hpi1 & Hnp1).
    destruct (pass_in_session (ReadPass (engaged pr)) s1 s2 Hread)
      as (rfd & reads & Hst2 & Hsz2 & Hsum2 & Hdev2 & Hpi2 & Hnp2).
    pose proof Hdev1 as (_ & _ & HB1 & HS1 & Hn1 & Hp1).
    pose proof Hdev2 as (_ & _ & HB2 & HS2 & Hn2 & Hp2).
    rewrite Hp1, Hpw in Hpr. injection Hpr as <-.
    rewrite vec_get_lookup, Nat2Z.id in Hpw by lia.
    replace (Z.of_nat from + 1) with (Z.of_nat (S from)) in Hrun by lia.
    destruct (IH (S from) s2 s' Hrun) as
      (rounds & Hpats & Hlen & Hruns & Hst & Hall & Hsum & Hdev & Hpi' & Hnp);
      [rewrite Hpi2; apply wrap64_range|].
    exists ({| r_pattern := pw; r_wfd := wfd; r_writes := writes;
               r_rfd := rfd; r_reads := reads |} :: rounds).
    split.
    { cbn [map r_pattern]. rewrite Hpats, Hp2, Hp1, (drop_S _ _ _ Hpw). reflexivity. }
    split; [simpl; rewrite Hlen; reflexivity|].
    split.
    { cbn [roundsRun r_pattern r_wfd r_writes r_rfd r_reads]. exists s1, s2.
      split; [exact Hwrite|]. split; [exact Hst1|]. split; [exact Hread|].
      split; [exact Hst2 | exact Hruns]. }
    split.
    { rewrite Hst, Hst2, Hst1. cbn [flat_map]. unfold roundTrace at 2.
      cbn [r_pattern r_wfd r_writes r_rfd r_reads]. rewrite <- !app_assoc. reflexivity. }
    split.
    { constructor.
      - simpl. rewrite Hsz1, Hsz2, HB1, HS1, Hn1. split; reflexivity.
      - rewrite HB2, HS2, Hn2, HB1, HS1, Hn1 in Hall. exact Hall. }
    split.
    { rewrite Hsum, Hsum2, Hsum1, roundSummaries_S, Hpi2, Hpi1, Hnp2, Hnp1.
      rewrite !wrap64_add_l. simpl. rewrite <- !app_assoc.
      replace (passIndex (self s) + 1 + 1) with (passIndex (self s) + 2) by lia.
      reflexivity. }
    split.
    { destruct Hdev as (? & ? & ? & ? & ? & ?). destruct Hdev1 as (? & ? & ? & ? & ? & ?).
      destruct Hdev2 as (? & ? & ? & ? & ? & ?).
      unfold sameDevice. repeat split; congruence. }
    split; [|congruence].
    rewrite Hpi', Hpi2, Hpi1, wrap64_add_l, <- Z.add_assoc, wrap64_add_l.
    apply (f_equal wrap64). lia.
Qed.

(** X6: a completed [checkWriteRead] has run, for each pattern in the
    order of the list, [writePass] with that pattern and then [readPass]
    with the same pattern, both over all blocks, starting from the state
    with the three pass counters set: the calls made are those of the
    rounds, the pass summary lines are numbered from the pass index on,
    alternately write and read, out of twice the number of patterns, and
    the pass index has advanced by that number.  With an empty pattern
    list no call is made and nothing is reported. *)
Theorem checkWriteRead_rounds (s s' : Sys) :
  checkWriteRead s = Ok (tt, s') → is_u64 (passIndex (self s)) →
  let n := wrap64 (Z.of_nat (length (patterns (self s))) * 2) in
  ∃ rounds,
    map r_pattern rounds = patterns (self s) ∧
    roundsRun rounds (sessionStart s) s' ∧
    strace s' = strace s ++ flat_map roundTrace rounds ∧
    Forall (fun r =>
              map fst (r_writes r)
                = accessSizes (blockSize (self s)) (sizeBytes (self s))
                              (Z.to_nat (numBlocks (self s))) ∧
              map fst (r_reads r)
                = accessSizes (blockSize (self s)) (sizeBytes (self s))
                              (Z.to_nat (numBlocks (self s)))) rounds ∧
    summaryLines (cout s')
      = summaryLines (cout s)
        ++ roundSummaries (passIndex (self s)) n (length (patterns (self s))) ∧
    numPasses (self s') = n ∧
    passIndex (self s')
      = wrap64 (passIndex (self s) + 2 * Z.of_nat (length (patterns (self s)))).
Proof.
  intros Hrun Hpi n. apply checkWriteRead_loop in Hrun. cbv zeta in Hrun.
  apply (rounds_inv _ 0%nat) in Hrun; [|exact Hpi].
  destruct Hrun as (rounds & Hpats & _ & Hruns & Hst & Hall & Hsum & _ & Hpi' & Hnp).
  simpl in Hpats, Hst, Hall, Hsum, Hpi', Hnp.
  rewrite drop_0, take_ge in Hpats by lia.
  exists rounds. repeat split; assumption.
Qed.

End SessionProofs.

(** ** Completion: what can make a pass fail *)

(** One step of the analysis of [H : run = o] for any outcome: split on
    what the run inspects next, dropping the branches that end otherwise. *)
Ltac outcome_step H :=
  lazymatch type of H with
  | Ok _ = Ok _ => fail
  | Throw _ = Throw _ => fail
  | Undefined _ = Undefined _ => fail
  | Ok _ = _ => discriminate H
  | Throw _ = _ => discriminate H
  | Undefined _ = _ => discriminate H
  | ?lhs = _ =>
      let y := spine_scrutinee lhs in
      lazymatch y with
      | lhs => fail
      | _ => destruct y eqn:?; simpl in H
      end
  end.

Ltac outcome_inv H := simpl in H; repeat outcome_step H.

Section Completion.
Context `{D : DoubleOps} {IO : BlockIO}.

Lemma modifySelf_ok (f : BlockChecker → BlockChecker) (s : Sys) :
  ∃ s', modifySelf f s = Ok (tt, s').
Proof. eexists. reflexivity. Qed.

Lemma printProgress_ok (blockIndex : Z) (s : Sys) :
  progressSafe (self s) → ∃ s', printProgress blockIndex s = Ok (tt, s').
Proof.
  intros Hsafe.
  destruct (printProgress blockIndex s) as [[[] s']|e|u] eqn:Hrun;
    [exists s'; reflexivity| |]; exfalso;
    unfold printProgress, bind, liftW, getSelf, print, modifySelf, ret, inRange,
      undefined in Hrun;
    outcome_inv Hrun.
  destruct Hsafe as [Hone|Hin]; [lia|].
  destruct (vec_get_in_range (patterns (self s)) _ Hin) as (pat & Hpat & _). congruence.
Qed.

Lemma modifyBlock_ok (blockIndex : Z) (f : BlockStats → BlockStats) (s : Sys) :
  0 ≤ blockIndex < Z.of_nat (length (blockStats (self s))) →
  ∃ s', modifyBlock blockIndex f s = Ok (tt, s').
Proof.
  intros Hi.
  destruct (vec_get_in_range (blockStats (self s)) _ Hi) as (b & Hb & Hl).
  unfold modifyBlock, bind, getSelf, modifySelf, inRange, ret, undefined.
  rewrite Hb. unfold vec_set.
  destruct (decide _) as [_|Hno]; [eexists; reflexivity | lia].
Qed.

Lemma verifyBlock_ok (n : nat) :
  ∀ (from : nat) (buffer expected : list Z) (blockIndex : Z) (s : Sys),
    (from + n ≤ length buffer)%nat → (from + n ≤ length expected)%nat →
    0 ≤ blockIndex < Z.of_nat (length (blockStats (self s))) →
    ∃ s', verifyBlock n (Z.of_nat from) buffer expected blockIndex s = Ok (tt, s').
Proof.
  induction n as [|n IH]; intros from buffer expected blockIndex s Hb He Hi;
    cbn [verifyBlock].
  - exists s. reflexivity.
  - destruct (vec_get_in_range buffer (Z.of_nat from) ltac:(lia)) as (a & Ha & _).
    destruct (vec_get_in_range expected (Z.of_nat from) ltac:(lia)) as (e & He' & _).
    unfold bind, inRange, ret, print. rewrite Ha, He'.
    destruct (decide (a ≠ e)).
    + match goal with |- context [modifyBlock _ _ ?s1] =>
        destruct (modifyBlock_ok blockIndex incErrors s1 Hi) as (s2 & Hm)
      end.
      rewrite Hm. eexists. reflexivity.
    + replace (Z.of_nat from + 1) with (Z.of_nat (S from)) by lia.
      apply IH; [lia | lia | exact Hi].
Qed.

Lemma posix_read_ok (fd : Z) (buffer : list Z) (count : Z) (s : Sys) :
  ∃ r s', posix_read fd buffer count s = Ok (r, s').
Proof.
  unfold posix_read, bind, liftW, logSyscall, ret.
  destruct (sys_read fd count (world s)) as [r w]. destruct (readOutcome _ _ _).
  eexists _, _. reflexivity.
Qed.

Lemma posix_write_ok (fd : Z) (buffer : list Z) (count : Z) (s : Sys) :
  ∃ r s', posix_write fd buffer count s = Ok (r, s').
Proof.
  unfold posix_write, bind, liftW, logSyscall, ret.
  destruct (sys_write fd _ (world s)) as [r w]. eexists _, _. reflexivity.
Qed.

Lemma readOutcome_length (r : option (list Z)) (count : Z) (buffer : list Z) :
  count ≤ Z.of_nat (length buffer) →
  length (readOutcome r count buffer).2 = length buffer.
Proof.
  intros Hc. destruct r as [data|]; [|reflexivity]. simpl.
  rewrite length_app, length_drop.
  pose proof (length_take_le (map u8 data) (Z.to_nat count)). 
  assert (length (take (Z.to_nat count) (map u8 data)) ≤ Z.to_nat count)%nat
    by (rewrite length_take; lia).
  lia.
Qed.

Lemma accessSizeAt_le (B S i : Z) : 0 < B → 0 ≤ accessSizeAt B S i ≤ B.
Proof.
  intros HB. unfold accessSizeAt. destruct (decide _); [|lia].
  pose proof (Z.mod_pos_bound S B HB). lia.
Qed.

Lemma insert_progressSafe (c : BlockChecker) (f : BlockChecker → BlockChecker) :
  numPasses (f c) = numPasses c → passIndex (f c) = passIndex c →
  patterns (f c) = patterns c → progressSafe c → progressSafe (f c).
Proof. unfold progressSafe. intros -> -> ->. tauto. Qed.

(** The calls that cannot fail, and the ones that do not under the
    conditions at hand. *)
Ltac refute_failure :=
  match goal with
  | H : initBlock _ _ _ = None |- _ =>
      rewrite initBlock_long in H by lia; discriminate H
  | H : posix_read ?fd ?b ?c ?s = Throw _ |- _ =>
      destruct (posix_read_ok fd b c s) as (? & ? & Hok); rewrite Hok in H; discriminate H
  | H : posix_read ?fd ?b ?c ?s = Undefined _ |- _ =>
      destruct (posix_read_ok fd b c s) as (? & ? & Hok); rewrite Hok in H; discriminate H
  | H : posix_write ?fd ?b ?c ?s = Throw _ |- _ =>
      destruct (posix_write_ok fd b c s) as (? & ? & Hok); rewrite Hok in H; discriminate H
  | H : posix_write ?fd ?b ?c ?s = Undefined _ |- _ =>
      destruct (posix_write_ok fd b c s) as (? & ? & Hok); rewrite Hok in H; discriminate H
  | H : modifyBlock ?i ?f ?s = Throw _ |- _ =>
      let Hok := fresh in
      destruct (modifyBlock_ok i f s) as (? & Hok);
      [|rewrite Hok in H; discriminate H]
  | H : modifyBlock ?i ?f ?s = Undefined _ |- _ =>
      let Hok := fresh in
      destruct (modifyBlock_ok i f s) as (? & Hok);
      [|rewrite Hok in H; discriminate H]
  | H : printProgress ?i ?s = Throw _ |- _ =>
      let Hok := fresh in
      destruct (printProgress_ok i s) as (? & Hok);
      [|rewrite Hok in H; discriminate H]
  | H : printProgress ?i ?s = Undefined _ |- _ =>
      let Hok := fresh in
      destruct (printProgress_ok i s) as (? & Hok);
      [|rewrite Hok in H; discriminate H]
  | H : verifyBlock ?n 0 ?b ?e ?i ?s = Throw _ |- _ =>
      let Hok := fresh in
      destruct (verifyBlock_ok n 0%nat b e i s) as (? & Hok);
      [| | |change (Z.of_nat 0%nat) with 0 in Hok; rewrite Hok in H; discriminate H]
  | H : verifyBlock ?n 0 ?b ?e ?i ?s = Undefined _ |- _ =>
      let Hok := fresh in
      destruct (verifyBlock_ok n 0%nat b e i s) as (? & Hok);
      [| | |change (Z.of_nat 0%nat) with 0 in Hok; rewrite Hok in H; discriminate H]
  end.

Lemma initBlock_length (buffer buffer' : list Z) (i p : Z) :
  initBlock buffer i p = Some buffer' → length buffer' = length buffer.
Proof.
  intros Hinit.
  destruct (decide (length buffer < 8)%nat) as [Hshort|Hlong].
  - rewrite initBlock_short in Hinit by exact Hshort. discriminate.
  - rewrite initBlock_long in Hinit by lia. injection Hinit as <-.
    simpl. rewrite length_drop. lia.
Qed.

Lemma readBlock_ok (pattern : optional_u8) (fd blockIndex : Z) (buffer expected : list Z)
    (s : Sys) :
  8 ≤ blockSize (self s) →
  length buffer = Z.to_nat (blockSize (self s)) →
  length expected = Z.to_nat (blockSize (self s)) →
  0 ≤ blockIndex < Z.of_nat (length (blockStats (self s))) →
  progressSafe (self s) →
  ∃ r s', readBlock pattern fd blockIndex (buffer, expected) s = Ok (r, s').
Proof.
  intros HB Hbuf Hexp Hi Hsafe.
  destruct (readBlock pattern fd blockIndex (buffer, expected) s) as [[r s']|e|u] eqn:Hrun;
    [exists r, s'; reflexivity| |]; exfalso;
    unfold readBlock, deref, bind, liftW, getSelf, modifySelf, ret, inRange, undefined
      in Hrun;
    outcome_inv Hrun.
  all: repeat match goal with
       | u : unit |- _ => destruct u
       | H : initBlock _ _ _ = Some _ |- _ => apply initBlock_length in H
       | H : posix_read _ _ _ _ = Ok _ |- _ =>
           pose proof (posix_read_world _ _ _ _ _ _ _ H) as (_ & Hr_out);
           apply (f_equal snd) in Hr_out; simpl in Hr_out;
           apply posix_read_inv in H; simpl in H; destruct H as (Hr_self & _)
       | H : modifyBlock _ _ _ = Ok _ |- _ =>
           apply modifyBlock_inv in H; simpl in H; destruct H as (bm & _ & _ & ->)
       | H : verifyBlock _ _ _ _ _ _ = Ok _ |- _ =>
           apply verifyBlock_inv in H; [|lia]; simpl in H;
           destruct H as [[_ ->]|[_ (bv & wanted & actual & _ & _ & ->)]]
       end.
  all: assert (Hl0 : ∀ r, length (readOutcome r
                 (accessSizeAt (blockSize (self s)) (sizeBytes (self s)) blockIndex)
                 buffer).2 = length buffer)
    by (intros r0; apply readOutcome_length; rewrite Hbuf;
        pose proof (accessSizeAt_le (blockSize (self s)) (sizeBytes (self s)) blockIndex
                      ltac:(lia)); lia).
  all: refute_failure.
  all: simpl; rewrite ?Hr_self, ?length_insert; simpl; rewrite ?Hr_self;
    first [exact Hsafe | exact Hi | rewrite Hr_out, Hl0; lia | lia].
Qed.

Lemma writeBlock_ok (pattern fd blockIndex : Z) (buffer : list Z) (s : Sys) :
  8 ≤ blockSize (self s) →
  length buffer = Z.to_nat (blockSize (self s)) →
  0 ≤ blockIndex < Z.of_nat (length (blockStats (self s))) →
  progressSafe (self s) →
  ∃ r s', writeBlock pattern fd blockIndex buffer s = Ok (r, s').
Proof.
  intros HB Hbuf Hi Hsafe.
  destruct (writeBlock pattern fd blockIndex buffer s) as [[r s']|e|u] eqn:Hrun;
    [exists r, s'; reflexivity| |]; exfalso;
    unfold writeBlock, bind, liftW, getSelf, modifySelf, ret, inRange, undefined in Hrun;
    outcome_inv Hrun.
  all: repeat match goal with
       | u : unit |- _ => destruct u
       | H : posix_write _ _ _ _ = Ok _ |- _ =>
           apply posix_write_inv in H; simpl in H; destruct H as (Hr_self & _)
       | H : modifyBlock _ _ _ = Ok _ |- _ =>
           apply modifyBlock_inv in H; simpl in H; destruct H as (bm & _ & _ & ->)
       end.
  all: refute_failure.
  all: simpl; rewrite ?Hr_self, ?length_insert; simpl; rewrite ?Hr_self;
    first [exact Hsafe | exact Hi | lia].
Qed.

(** A loop whose body completes and keeps an invariant completes. *)
Lemma forRange_ok {Acc} (I : Z → Acc → Sys → Prop) (body : Z → Acc → M Acc) (bound : Z) :
  (∀ i acc s, 0 ≤ i < bound → I i acc s →
     ∃ acc' s', body i acc s = Ok (acc', s') ∧ I (i + 1) acc' s') →
  ∀ (n : nat) (from : Z) (acc : Acc) (s : Sys),
    0 ≤ from → from + Z.of_nat n ≤ bound → I from acc s →
    ∃ acc' s', forRange n from body acc s = Ok (acc', s') ∧ I (from + Z.of_nat n) acc' s'.
Proof.
  intros Hbody. induction n as [|n IH]; intros from acc s Hfrom Hn HI; cbn [forRange].
  - exists acc, s. rewrite Z.add_0_r. split; [reflexivity | exact HI].
  - destruct (Hbody from acc s ltac:(lia) HI) as (acc1 & s1 & Hb & HI1).
    destruct (IH (from + 1) acc1 s1 ltac:(lia) ltac:(lia) HI1) as (acc' & s' & Hrun & HI').
    exists acc', s'. unfold bind. rewrite Hb.
    replace (from + Z.of_nat (S n)) with (from + 1 + Z.of_nat n) by lia.
    split; [exact Hrun | exact HI'].
Qed.

Lemma loopKeeps_safe (s0 s : Sys) (buffers : list (list Z)) :
  loopKeeps s0 buffers s → progressSafe (self s0) → progressSafe (self s).
Proof.
  intros ((_ & _ & _ & _ & _ & Hp) & Hpi & Hnp & _) Hsafe.
  unfold progressSafe. rewrite Hpi, Hnp, Hp. exact Hsafe.
Qed.

Lemma readLoop_ok (pattern : optional_u8) (fd : Z) (s0 : Sys) (n : nat) (from : Z)
    (locals : list Z * list Z) (s : Sys) :
  8 ≤ blockSize (self s0) → progressSafe (self s0) →
  0 ≤ from → from + Z.of_nat n ≤ Z.of_nat (length (blockStats (self s0))) →
  loopKeeps s0 [locals.1; locals.2] s →
  ∃ locals' s',
    forRange n from (readBlock pattern fd) locals s = Ok (locals', s') ∧
    loopKeeps s0 [locals'.1; locals'.2] s'.
Proof.
  intros HB Hsafe Hfrom Hn Hkeeps.
  destruct (forRange_ok (fun _ locals s => loopKeeps s0 [locals.1; locals.2] s)
              (readBlock pattern fd) (Z.of_nat (length (blockStats (self s0)))))
    with (n := n) (from := from) (acc := locals) (s := s)
    as (locals' & s' & Hrun & Hkeeps'); try assumption.
  - clear locals s Hkeeps. intros i [buffer expected] s Hi Hkeeps.
    pose proof (loopKeeps_safe _ _ _ Hkeeps Hsafe) as Hsafe'.
    destruct Hkeeps as (Hdev & Hpi & Hnp & Hlen & Hbufs).
    pose proof Hdev as (_ & _ & HB' & _).
    inversion Hbufs as [|? ? Hb1 Hrest]; subst.
    inversion Hrest as [|? ? Hb2 _]; subst. simpl in Hb1, Hb2.
    destruct (readBlock_ok pattern fd i buffer expected s) as ([buffer' expected'] & s' & Hrun);
      rewrite ?HB', ?Hlen; try assumption.
    exists (buffer', expected'), s'. split; [exact Hrun|].
    destruct (readBlock_world _ _ _ _ _ _ _ _ _ Hrun) as (_ & result & _ & Hout).
    destruct (readBlock_spec _ _ _ _ _ _ _ _ _ Hrun)
      as (res & elapsed & b & _ & _ & Hinit & _ & _ & Hdev1 & Hpi1 & Hnp1 & _ & _ & Hbs & _).
    cbv zeta in *. apply (f_equal snd) in Hout. simpl in Hout.
    apply initBlock_length in Hinit.
    split.
    { destruct Hdev as (? & ? & ? & ? & ? & ?). destruct Hdev1 as (? & ? & ? & ? & ? & ?).
      unfold sameDevice. repeat split; congruence. }
    split; [congruence|]. split; [congruence|].
    split; [rewrite Hbs, length_insert; exact Hlen|].
    repeat constructor; simpl; [|congruence].
    rewrite Hout, readOutcome_length; [exact Hb1|].
    rewrite Hb1, HB'.
    pose proof (accessSizeAt_le (blockSize (self s0)) (sizeBytes (self s)) i ltac:(lia)). lia.
  - exists locals', s'. split; [exact Hrun | exact Hkeeps'].
Qed.

Lemma writeLoop_ok (pattern fd : Z) (s0 : Sys) (n : nat) (from : Z) (buffer : list Z)
    (s : Sys) :
  8 ≤ blockSize (self s0) → progressSafe (self s0) →
  0 ≤ from → from + Z.of_nat n ≤ Z.of_nat (length (blockStats (self s0))) →
  loopKeeps s0 [buffer] s →
  ∃ buffer' s',
    forRange n from (writeBlock pattern fd) buffer s = Ok (buffer', s') ∧
    loopKeeps s0 [buffer'] s'.
Proof.
  intros HB Hsafe Hfrom Hn Hkeeps.
  destruct (forRange_ok (fun _ buffer s => loopKeeps s0 [buffer] s)
              (writeBlock pattern fd) (Z.of_nat (length (blockStats (self s0)))))
    with (n := n) (from := from) (acc := buffer) (s := s)
    as (buffer' & s' & Hrun & Hkeeps'); try assumption.
  - clear buffer s Hkeeps. intros i buffer s Hi Hkeeps.
    pose proof (loopKeeps_safe _ _ _ Hkeeps Hsafe) as Hsafe'.
    destruct Hkeeps as (Hdev & Hpi & Hnp & Hlen & Hbufs).
    pose proof Hdev as (_ & _ & HB' & _).
    inversion Hbufs as [|? ? Hb1 _]; subst.
    destruct (writeBlock_ok pattern fd i buffer s) as (buffer' & s' & Hrun);
      rewrite ?HB', ?Hlen; try assumption.
    exists buffer', s'. split; [exact Hrun|].
    destruct (writeBlock_spec _ _ _ _ _ _ _ Hrun)
      as (res & elapsed & b & _ & _ & Hinit & _ & _ & Hdev1 & Hpi1 & Hnp1 & _ & Hbs & _).
    cbv zeta in *. apply initBlock_length in Hinit.
    split.
    { destruct Hdev as (? & ? & ? & ? & ? & ?). destruct Hdev1 as (? & ? & ? & ? & ? & ?).
      unfold sameDevice. repeat split; congruence. }
    split; [congruence|]. split; [congruence|].
    split; [rewrite Hbs, length_insert; exact Hlen|].
    repeat constructor. congruence.
  - exists buffer', s'. split; [exact Hrun | exact Hkeeps'].
Qed.

Lemma loopKeeps_refl (s : Sys) (buffers : list (list Z)) :
  Forall (fun b => length b = Z.to_nat (blockSize (self s))) buffers →
  loopKeeps s buffers s.
Proof. intros Hb. unfold loopKeeps, sameDevice. repeat split; try reflexivity. exact Hb. Qed.



Section Ordered.
Context {O : DoubleOrder}.








End Ordered.

(** *** Edge cases of a pass *)




Lemma printPassStats_outfile_fails (read : bool) (s : Sys) :
  outfile (self s) ≠ EmptyString → (ofstream_open (world s)).1 = false →
  printPassStats read s
  = Throw (ErrorOpeningOutfile (outfile (self s)) (if read then "read" else "write")
             (passIndex (self s)) (sizeBytes (self s))).
Proof.
  intros Hname Hfail.
  unfold printPassStats, writeTimingData, bind, getSelf, liftW, throw.
  destruct (String.eqb (outfile (self s)) EmptyString) eqn:Hempty;
    [apply String.eqb_eq in Hempty; contradiction|].
  destruct (ofstream_open (world s)) as [opened w1]. simpl in *. subst opened.
  reflexivity.
Qed.

(** X11: the timing file is created in the world the last block and
    the [close] of the device leave: with a prefix given, a pass that
    opened the device and whose blocks the world answered (with whatever
    results) ends with the error naming the file when the creation fails
    in that world. *)
Theorem pass_outfile_failure_throws (p : Pass) (s : Sys) (fd : Z) (ts : list Transfer)
    (w : World) :
  8 ≤ blockSize (self s) → progressSafe (self s) →
  outfile (self s) ≠ EmptyString →
  passTransfers p (self s) (world s) = Some (fd, ts, w) → 0 ≤ fd →
  (ofstream_open (sys_close fd w)).1 = false →
  runPass p s
  = Throw (ErrorOpeningOutfile (outfile (self s)) (passName p) (passIndex (self s))
             (sizeBytes (self s))).
Proof.
  intros HB Hsafe Hname Hts Hfd Hlog.
  unfold passTransfers in Hts.
  destruct p as [pattern|pattern]; simpl in *.
  - unfold readPass, deref, bind, liftW, getSelf, getWorld, logSyscall, modifySelf,
      throw, ret. simpl.
    destruct (getTimeSec (world s)) as [t w1]. simpl in *.
    destruct (sys_open _ _ w1) as [fd0 w2]. simpl in *.
    destruct (blockTransfers _ _ _ _ _) as [[[ts0 acc0] w0]|] eqn:Hbt;
      simpl in Hts; [|discriminate Hts].
    injection Hts as -> -> ->.
    destruct (decide (fd < 0)); [lia|]. simpl.
    match goal with |- context [forRange ?n 0 (readBlock ?pat ?fd) ?locals ?s0] =>
      destruct (readLoop_ok pat fd s0 n 0 locals s0) as (locals' & s1 & Hloop & Hkeeps);
        [ exact HB | exact Hsafe | lia | simpl; rewrite length_replicate; lia
        | apply loopKeeps_refl; repeat constructor; apply length_replicate | ];
      pose proof Hloop as Hsteps;
      change 0 with (Z.of_nat 0) in Hsteps at 1;
      apply (blockLoop_records _ _ _ _ _ _ _ (readBlock_blockAccount pat fd) 0%nat)
        in Hsteps;
        [|simpl; intros j Hj; apply (fresh_records _ _ 0); [exact Hj | reflexivity]]
    end.
    destruct Hsteps as (ts' & lines & _ & _ & _ & _ & _ & _ & _ & _ & _ & _ & _ & _ & _
                        & Hsteps).
    simpl in Hsteps. change (Z.of_nat 0) with 0 in Hsteps.
    rewrite Hsteps in Hbt. injection Hbt as _ _ <-.
    rewrite Hloop. simpl.
    destruct Hkeeps as ((_ & Hof & _ & HS & _ & _) & Hpi & _). simpl in Hof, HS, Hpi.
    rewrite printPassStats_outfile_fails; simpl; rewrite ?Hof, ?HS, ?Hpi;
      [reflexivity | exact Hname | exact Hlog].
  - unfold writePass, bind, liftW, getSelf, getWorld, logSyscall, modifySelf, throw, ret.
    simpl.
    destruct (getTimeSec (world s)) as [t w1]. simpl in *.
    destruct (sys_open _ _ w1) as [fd0 w2]. simpl in *.
    destruct (blockTransfers _ _ _ _ _) as [[[ts0 acc0] w0]|] eqn:Hbt;
      simpl in Hts; [|discriminate Hts].
    injection Hts as -> -> ->.
    destruct (decide (fd < 0)); [lia|]. simpl.
    match goal with |- context [forRange ?n 0 (writeBlock ?pat ?fd) ?buffer ?s0] =>
      destruct (writeLoop_ok pat fd s0 n 0 buffer s0) as (buffer' & s1 & Hloop & Hkeeps);
        [ exact HB | exact Hsafe | lia | simpl; rewrite length_replicate; lia
        | apply loopKeeps_refl; repeat constructor; apply length_replicate | ];
      pose proof Hloop as Hsteps;
      change 0 with (Z.of_nat 0) in Hsteps at 1;
      apply (blockLoop_records _ _ _ _ _ _ _ (writeBlock_blockAccount pat fd) 0%nat)
        in Hsteps;
        [|simpl; intros j Hj; apply (fresh_records _ _ 0); [exact Hj | reflexivity]]
    end.
    destruct Hsteps as (ts' & lines & _ & _ & _ & _ & _ & _ & _ & _ & _ & _ & _ & _ & _
                        & Hsteps).
    simpl in Hsteps. change (Z.of_nat 0) with 0 in Hsteps.
    rewrite Hsteps in Hbt. injection Hbt as _ _ <-.
    rewrite Hloop. simpl.
    destruct Hkeeps as ((_ & Hof & _ & HS & _ & _) & Hpi & _). simpl in Hof, HS, Hpi.
    rewrite printPassStats_outfile_fails; simpl; rewrite ?Hof, ?HS, ?Hpi;
      [reflexivity | exact Hname | exact Hlog].
Qed.

(** X12: with an empty pattern list, write/read mode runs no pass: the
    run completes without a system call on the device and without a
    timing file, and reports that no errors were detected. *)
Theorem empty_pattern_list_checks_nothing (filename_ : string) (blockSize_ : Z)
    (outfile_ : string) (w : World) :
  blockSize_ ≠ 0 → getFileSize filename_ w ≠ 0 →
  ∃ s' header rates,
    run true filename_ blockSize_ [] outfile_ w = Ok (tt, s') ∧
    strace s' = [] ∧ world s' = w ∧ outfiles s' = [] ∧
    cout s' = [header; rates; OutNoErrors].
Proof.
  intros HB HS. unfold run, BlockChecker_new.
  destruct (decide (blockSize_ = 0)); [contradiction|].
  destruct (decide (getFileSize filename_ w = 0)); [contradiction|].
  eexists _, _, _. split; [reflexivity|]. simpl. repeat split; reflexivity.
Qed.

End Completion.

(** ** Detection: a read pass over the simulated device *)

Lemma blockAt_length (B : Z) (content : list Z) (i : nat) :
  ((i + 1) * Z.to_nat B ≤ length content)%nat → length (blockAt B content i) = Z.to_nat B.
Proof. intros Hfit. unfold blockAt. rewrite length_take, length_drop. lia. Qed.

Lemma map_u8_bytes (l : list Z) : Forall (fun b => 0 ≤ b < 256) l → map u8 l = l.
Proof.
  induction 1 as [|b l Hb _ IH]; [reflexivity|]. simpl. rewrite IH. unfold u8.
  rewrite Z.mod_small by exact Hb. reflexivity.
Qed.

Lemma blockAt_bytes (B : Z) (content : list Z) (i : nat) :
  Forall (fun b => 0 ≤ b < 256) content → Forall (fun b => 0 ≤ b < 256) (blockAt B content i).
Proof.
  intros Hall. unfold blockAt. apply Forall_take, Forall_drop, Hall.
Qed.

Lemma differingBlocks_S (B p : Z) (content : list Z) (from n : nat) :
  differingBlocks B p content from (S n)
  = (if differs B p content from then [Z.of_nat from] else [])
    ++ differingBlocks B p content (S from) n.
Proof.
  unfold differingBlocks. cbn [seq]. rewrite filter_cons.
  destruct (differs B p content from); simpl.
  - destruct (decide (true = true)); [reflexivity | contradiction].
  - destruct (decide (false = true)); [discriminate | reflexivity].
Qed.

(** One block of a read pass with a pattern over a device without
    faults: the block counts an error exactly when its content differs
    from its image, and then a data error line names it. *)
Lemma readBlock_detects (p fd : Z) (i : nat) (buffer expected buffer' expected' : list Z)
    (s s' : Sys) :
  0 ≤ p < 256 → 8 ≤ blockSize (self s) → sizeBytes (self s) < two64 →
  (Z.of_nat i + 1) * blockSize (self s) ≤ sizeBytes (self s) →
  length (disk (world s)) = Z.to_nat (sizeBytes (self s)) →
  Forall (fun b => 0 ≤ b < 256) (disk (world s)) →
  script (world s) = [] → pos (world s) = (i * Z.to_nat (blockSize (self s)))%nat →
  length buffer = Z.to_nat (blockSize (self s)) →
  length expected = Z.to_nat (blockSize (self s)) →
  drop 8 expected = replicate (Z.to_nat (blockSize (self s)) - 8) p →
  readBlock (engaged p) fd (Z.of_nat i) (buffer, expected) s = Ok ((buffer', expected'), s') →
  let bad := differs (blockSize (self s)) p (disk (world s)) i in
  length buffer' = Z.to_nat (blockSize (self s)) ∧
  expected' = blockImage (blockSize (self s)) p (Z.of_nat i) ∧
  script (world s') = [] ∧ pos (world s') = (S i * Z.to_nat (blockSize (self s)))%nat ∧
  disk (world s') = disk (world s) ∧
  sameDevice (self s) (self s') ∧
  errors (totalRead (self s'))
    = (if bad then wrap64 (errors (totalRead (self s)) + 1) else errors (totalRead (self s))) ∧
  totalWrite (self s') = totalWrite (self s) ∧
  dataErrorBlocks (cout s')
    = dataErrorBlocks (cout s) ++ (if bad then [Z.of_nat i] else []).
Proof.
  intros Hp HB HS Hfit Hlen Hbytes Hscript Hpos Hbuf Hexp Htail Hrun bad.
  destruct (readBlock_world _ _ _ _ _ _ _ _ _ Hrun) as (Hw & result & Hst & Hres).
  destruct (readBlock_cout _ _ _ _ _ _ _ _ _ Hrun)
    as (result'' & progress & wanted & actual & Hst'' & Hprog & Hcout & _).
  destruct (readBlock_spec _ _ _ _ _ _ _ _ _ Hrun)
    as (result' & elapsed & b & _ & _ & Hinit & Hst' & _ & Hdev & _ & _ & Htw & _ & _ & Htr).
  cbv zeta in *. simpl in Hw, Hres, Hinit.
  rewrite Hst in Hst', Hst''. apply app_inv_head in Hst', Hst''.
  injection Hst' as <-. injection Hst'' as <-.
  rewrite (initBlock_image (blockSize (self s))) in Hinit by assumption.
  injection Hinit as <-.
  rewrite accessSizeAt_full in Hw, Hres, Htr by lia.
  pose proof (length_blockImage (blockSize (self s)) p (Z.of_nat i) HB) as Himg.
  destruct (sim_read_healthy (blockSize (self s)) (world s) Hscript)
    as (Hdata & Hscript' & Hpos' & Hdisk').
  rewrite Hpos in Hdata, Hpos'.
  fold (blockAt (blockSize (self s)) (disk (world s)) i) in Hdata, Hpos'.
  assert (Hblock : length (blockAt (blockSize (self s)) (disk (world s)) i)
                   = Z.to_nat (blockSize (self s)))
    by (apply blockAt_length; rewrite Hlen; nia).
  rewrite Hdata in Hres. unfold readOutcome in Hres.
  rewrite map_u8_bytes, take_ge, Hblock, drop_ge, app_nil_r in Hres
    by first [lia | apply blockAt_bytes; exact Hbytes].
  injection Hres as -> ->.
  destruct (progress_lines_block _ Hprog) as [_ Hnone].
  assert (Hbad : dataMismatch (engaged p) (blockSize (self s))
                   (blockAt (blockSize (self s)) (disk (world s)) i)
                   (blockImage (blockSize (self s)) p (Z.of_nat i)) = bad).
  { unfold dataMismatch, bad, differs. simpl.
    rewrite !take_ge by lia. reflexivity. }
  rewrite Hbad in Htr, Hcout.
  rewrite Hw, Hscript', Hpos', Hdisk', Hblock.
  split; [reflexivity|]. split; [reflexivity|]. split; [reflexivity|].
  split; [simpl; lia|]. split; [reflexivity|]. split; [exact Hdev|].
  split; [|split; [exact Htw|]].
  - rewrite Htr. unfold recordTransfer.
    destruct (decide _) as [Hneg|_]; [lia|]. destruct bad; reflexivity.
  - rewrite Hcout, !dataErrorBlocks_app, Hnone, app_nil_r.
    destruct (decide _) as [Hneg|_]; [lia|]. destruct bad; reflexivity.
Qed.

Lemma readLoop_detects (p fd : Z) (m : nat) :
  ∀ (from : nat) (locals locals' : list Z * list Z) (s s' : Sys),
    0 ≤ p < 256 → 8 ≤ blockSize (self s) → sizeBytes (self s) < two64 →
    Z.of_nat (from + m) * blockSize (self s) ≤ sizeBytes (self s) →
    length (disk (world s)) = Z.to_nat (sizeBytes (self s)) →
    Forall (fun b => 0 ≤ b < 256) (disk (world s)) →
    script (world s) = [] → pos (world s) = (from * Z.to_nat (blockSize (self s)))%nat →
    length locals.1 = Z.to_nat (blockSize (self s)) →
    length locals.2 = Z.to_nat (blockSize (self s)) →
    drop 8 locals.2 = replicate (Z.to_nat (blockSize (self s)) - 8) p →
    forRange m (Z.of_nat from) (readBlock (engaged p) fd) locals s = Ok (locals', s') →
    let found := differingBlocks (blockSize (self s)) p (disk (world s)) from m in
    disk (world s') = disk (world s) ∧ script (world s') = [] ∧
    sameDevice (self s) (self s') ∧
    wrap64 (errors (totalRead (self s')))
      = wrap64 (errors (totalRead (self s)) + Z.of_nat (length found)) ∧
    (found = [] → errors (totalRead (self s')) = errors (totalRead (self s))) ∧
    totalWrite (self s') = totalWrite (self s) ∧
    dataErrorBlocks (cout s') = dataErrorBlocks (cout s) ++ found.
Proof.
  induction m as [|m IH];
    intros from [buffer expected] locals' s s' Hp HB HS Hfit Hlen Hbytes Hscript Hpos
      Hbuf Hexp Htail Hrun found; subst found;
    cbn [forRange fst snd] in Hrun, Hbuf, Hexp, Htail.
  - unfold ret in Hrun. apply Ok_inv in Hrun. injection Hrun as _ <-.
    unfold differingBlocks. simpl. rewrite Z.add_0_r, app_nil_r.
    unfold sameDevice. repeat split; first [reflexivity | assumption].
  - apply bind_Ok_inv in Hrun. destruct Hrun as ([buffer1 expected1] & s1 & Hbody & Hrun).
    destruct (readBlock_detects p fd from buffer expected buffer1 expected1 s s1)
      as (Hbuf1 & -> & Hscript1 & Hpos1 & Hdisk1 & Hdev1 & Htr1 & Htw1 & Hout1);
      try assumption; [lia|].
    pose proof Hdev1 as (_ & _ & HB1 & HS1 & _ & _).
    replace (Z.of_nat from + 1) with (Z.of_nat (S from)) in Hrun by lia.
    destruct (IH (S from) (buffer1, blockImage (blockSize (self s)) p (Z.of_nat from))
                locals' s1 s')
      as (H1 & H2 & H3 & H4 & H4' & H5 & H6);
      rewrite ?HB1, ?HS1, ?Hdisk1; cbn [fst snd];
      try first [assumption | lia | congruence
                | apply length_blockImage; exact HB | apply drop_blockImage].
    rewrite HB1, Hdisk1 in H4, H4', H6.
    split; [congruence|]. split; [exact H2|].
    split; [|split; [|split; [|split; [congruence|]]]].
    + destruct H3 as (? & ? & ? & ? & ? & ?). destruct Hdev1 as (? & ? & ? & ? & ? & ?).
      unfold sameDevice. repeat split; congruence.
    + rewrite H4, Htr1, differingBlocks_S, length_app.
      destruct (differs _ _ _ _); simpl length.
      * rewrite wrap64_add_l. apply (f_equal wrap64). lia.
      * apply (f_equal wrap64). lia.
    + rewrite differingBlocks_S. intros Hnone. apply app_eq_nil in Hnone.
      destruct Hnone as [Hhere Hrest]. rewrite (H4' Hrest), Htr1.
      destruct (differs _ _ _ _); [discriminate Hhere | reflexivity].
    + rewrite H6, Hout1, differingBlocks_S, <- app_assoc. reflexivity.
Qed.

Section PassOutput.
Context `{DoubleOps} `{!BlockIO}.

Lemma readPass_out (pattern : optional_u8) (s s' : Sys) :
  readPass pattern s = Ok (tt, s') →
  ∃ fd s0 locals s1,
    forRange (Z.to_nat (numBlocks (self s))) 0 (readBlock pattern fd)
      (replicate (Z.to_nat (blockSize (self s))) 0,
       replicate (Z.to_nat (blockSize (self s))) (payload pattern)) s0 = Ok (locals, s1) ∧
    sameDevice (self s) (self s0) ∧
    totalRead (self s0) = totalRead (self s) ∧ totalWrite (self s0) = totalWrite (self s) ∧
    world s0 = (sys_open (filename (self s)) true (getTimeSec (world s)).2).2 ∧
    cout s0 = cout s ∧
    totalRead (self s') = totalRead (self s1) ∧ totalWrite (self s') = totalWrite (self s1) ∧
    (world s' = if String.eqb (outfile (self s1)) EmptyString then sys_close fd (world s1)
                else (ofstream_open (sys_close fd (world s1))).2) ∧
    dataErrorBlocks (cout s') = dataErrorBlocks (cout s1).
Proof.
  unfold readPass, deref, bind, liftW, getSelf, getWorld, logSyscall, modifySelf, throw, ret.
  intros Hrun. run_inv Hrun. destruct u.
  match goal with
  | Hp : printPassStats _ _ = _ |- _ =>
      pose proof (printPassStats_world _ _ _ Hp) as Hw; simpl in Hw;
      pose proof (printPassStats_inv _ _ _ Hp) as Hinv; simpl in Hinv;
      destruct Hinv as (_ & _ & _ & Htr & Htw & _ & _);
      apply printPassStats_out in Hp; cbv zeta in Hp; simpl in Hp;
      destruct Hp as (_ & _ & min & avg & med & max & after & Hcout & Hafter)
  end.
  match goal with
  | Hl : forRange _ _ (readBlock _ ?fd) _ ?s0 = Ok (?l, ?s1),
    Ho : sys_open _ _ _ = _ |- _ =>
      exists fd, s0, l, s1; split; [exact Hl|]; simpl; rewrite Ho
  end.
  simpl.
  split; [unfold sameDevice; simpl; repeat split; reflexivity|].
  split; [reflexivity|]. split; [reflexivity|]. split; [reflexivity|].
  split; [reflexivity|]. split; [exact Htr|]. split; [exact Htw|]. split; [exact Hw|].
  rewrite Hcout, dataErrorBlocks_app. simpl.
  apply warnings_no_data_error in Hafter. unfold dataErrorLines in Hafter.
  destruct (dataErrorBlocks after); [|discriminate Hafter].
  rewrite app_nil_r. reflexivity.
Qed.

End PassOutput.

(** A read pass with a pattern over a device without faults that holds
    whole blocks. *)
Lemma readPass_differing (p : Z) (s s' : Sys) :
  0 ≤ p < 256 → 8 ≤ blockSize (self s) → sizeBytes (self s) < two64 →
  0 ≤ numBlocks (self s) →
  numBlocks (self s) * blockSize (self s) = sizeBytes (self s) →
  length (disk (world s)) = Z.to_nat (sizeBytes (self s)) →
  Forall (fun b => 0 ≤ b < 256) (disk (world s)) →
  script (world s) = [] →
  readPass (engaged p) s = Ok (tt, s') →
  let found := differingBlocks (blockSize (self s)) p (disk (world s)) 0
                 (Z.to_nat (numBlocks (self s))) in
  dataErrorBlocks (cout s') = dataErrorBlocks (cout s) ++ found ∧
  wrap64 (errors (totalRead (self s')))
    = wrap64 (errors (totalRead (self s)) + Z.of_nat (length found)) ∧
  (found = [] → errors (totalRead (self s')) = errors (totalRead (self s))) ∧
  totalWrite (self s') = totalWrite (self s) ∧
  disk (world s') = disk (world s) ∧ script (world s') = [].
Proof.
  intros Hp HB HS Hn0 Hwhole Hlen Hbytes Hscript Hrun found. subst found.
  apply readPass_out in Hrun.
  destruct Hrun
    as (fd & s0 & locals & s1 & Hloop & Hdev0 & Htr0 & Htw0 & Hw0 & Hc0 & Htr1 & Htw1 & Hw1
        & Hc1).
  rewrite pass_world_closed in Hw1. simpl in Hw0, Hloop.
  pose proof Hdev0 as (_ & _ & HB0 & HS0 & _ & _).
  apply (readLoop_detects p fd _ 0%nat) in Hloop;
    [ | exact Hp | rewrite HB0; lia | rewrite HS0; lia
      | rewrite HB0, HS0; lia
      | rewrite Hw0, HS0; exact Hlen | rewrite Hw0; exact Hbytes
      | rewrite Hw0; exact Hscript | rewrite Hw0; reflexivity
      | cbn [fst]; rewrite length_replicate, HB0; reflexivity
      | cbn [snd]; rewrite length_replicate, HB0; reflexivity
      | cbn [snd]; rewrite drop_replicate, HB0; reflexivity ].
  cbv zeta in Hloop. rewrite HB0, Hw0 in Hloop. simpl in Hloop.
  destruct Hloop as (Hdisk & Hscript1 & _ & Htr & Htr' & Htw & Hout).
  split; [rewrite Hc1, Hout, Hc0; reflexivity|].
  split; [rewrite Htr1, Htr, Htr0; reflexivity|].
  split; [intros Hnone; rewrite Htr1, (Htr' Hnone), Htr0; reflexivity|].
  split; [rewrite Htw1, Htw, Htw0; reflexivity|].
  rewrite Hw1. split; [exact Hdisk | exact Hscript1].
Qed.

(** X13: on a device without faults whose size is a whole number of
    blocks of at least 8 bytes, a completed read pass with the pattern
    byte [p] reports exactly the blocks whose content differs from what a
    write pass with [p] stores: it prints one data error line for each of
    them, in ascending order and for no other block, raises the read error
    total by their number (modulo [2^64]), and changes neither the write
    error total nor the device content. *)
Theorem read_pass_finds_differing_blocks (p : Z) (s s' : Sys) :
  0 ≤ p < 256 →
  8 ≤ blockSize (self s) < two64 →
  0 < sizeBytes (self s) < two64 →
  sizeBytes (self s) mod blockSize (self s) = 0 →
  numBlocks (self s) = numBlocksOf (sizeBytes (self s)) (blockSize (self s)) →
  length (disk (world s)) = Z.to_nat (sizeBytes (self s)) →
  Forall (fun b => 0 ≤ b < 256) (disk (world s)) →
  script (world s) = [] →
  readPass (engaged p) s = Ok (tt, s') →
  let found := differingBlocks (blockSize (self s)) p (disk (world s)) 0
                 (Z.to_nat (numBlocks (self s))) in
  dataErrorBlocks (cout s') = dataErrorBlocks (cout s) ++ found ∧
  wrap64 (errors (totalRead (self s')))
    = wrap64 (errors (totalRead (self s)) + Z.of_nat (length found)) ∧
  errors (totalWrite (self s')) = errors (totalWrite (self s)) ∧
  disk (world s') = disk (world s).
Proof.
  intros Hp HB HS Hmod Hn Hlen Hbytes Hscript Hrun found. subst found.
  pose proof (completed_pass_has_block (ReadPass (engaged p)) s s' Hrun) as Hone.
  assert (Hno : sizeBytes (self s) + blockSize (self s) ≤ two64).
  { destruct (Z_le_gt_dec (sizeBytes (self s) + blockSize (self s)) two64) as [Hle|Hgt];
      [exact Hle|].
    rewrite Hn, numBlocksOf_wrapped in Hone; unfold is_u64; lia. }
  assert (Hwhole : numBlocks (self s) * blockSize (self s) = sizeBytes (self s)).
  { rewrite Hn, numBlocksOf_exact by lia.
    destruct (decide _) as [_|Hne]; [|contradiction].
    pose proof (Z.div_mod (sizeBytes (self s)) (blockSize (self s)) ltac:(lia)). lia. }
  destruct (readPass_differing p s s') as (Hout & Herr & _ & Htw & Hdisk & _);
    try assumption; try lia.
  split; [exact Hout|]. split; [exact Herr|]. split; [rewrite Htw; reflexivity | exact Hdisk].
Qed.

(** ** A session over the simulated device without faults *)

Lemma differingBlocks_image (B p : Z) (n m : nat) :
  8 ≤ B → ∀ from : nat, (from + m ≤ n)%nat →
  differingBlocks B p (diskImage B p n) from m = [].
Proof.
  intros HB. induction m as [|m IH]; intros from Hfit; [reflexivity|].
  rewrite differingBlocks_S. unfold differs, blockAt.
  rewrite diskImage_block by (exact HB || lia).
  rewrite bool_decide_eq_true_2 by reflexivity. simpl. apply IH. lia.
Qed.

Lemma blockImage_bytes_range (B p i : Z) :
  0 ≤ p < 256 → Forall (fun b => 0 ≤ b < 256) (blockImage B p i).
Proof.
  intros Hp. unfold blockImage, prefix8. apply Forall_app. split.
  - repeat constructor; unfold u8; apply Z.mod_pos_bound; lia.
  - apply Forall_replicate. exact Hp.
Qed.

Lemma diskImage_bytes_range (B p : Z) (n : nat) :
  0 ≤ p < 256 → Forall (fun b => 0 ≤ b < 256) (diskImage B p n).
Proof.
  intros Hp. induction n as [|n IH]; [constructor|].
  rewrite diskImage_S. apply Forall_app. split; [exact IH | apply blockImage_bytes_range, Hp].
Qed.

(** A write pass over a device without faults that holds whole blocks. *)
Lemma writePass_image (p : Z) (s s' : Sys) :
  8 ≤ blockSize (self s) < two64 → 0 < sizeBytes (self s) < two64 →
  sizeBytes (self s) mod blockSize (self s) = 0 →
  numBlocks (self s) = numBlocksOf (sizeBytes (self s)) (blockSize (self s)) →
  length (disk (world s)) = Z.to_nat (sizeBytes (self s)) →
  script (world s) = [] →
  writePass p s = Ok (tt, s') →
  numBlocks (self s) * blockSize (self s) = sizeBytes (self s) ∧
  script (world s') = [] ∧
  disk (world s') = diskImage (blockSize (self s)) p (Z.to_nat (numBlocks (self s))) ∧
  sameDevice (self s) (self s') ∧
  errors (totalWrite (self s')) = errors (totalWrite (self s)) ∧
  totalRead (self s') = totalRead (self s) ∧
  dataErrorBlocks (cout s') = dataErrorBlocks (cout s).
Proof.
  intros HB HS Hmod Hn Hlen Hscript Hwrite.
  pose proof (completed_pass_has_block (WritePass p) s s' Hwrite) as Hone.
  assert (Hno : sizeBytes (self s) + blockSize (self s) ≤ two64).
  { destruct (Z_le_gt_dec (sizeBytes (self s) + blockSize (self s)) two64) as [Hle|Hgt];
      [exact Hle|].
    rewrite Hn, numBlocksOf_wrapped in Hone; unfold is_u64; lia. }
  assert (Hwhole : numBlocks (self s) * blockSize (self s) = sizeBytes (self s)).
  { rewrite Hn, numBlocksOf_exact by lia.
    destruct (decide _) as [_|Hne]; [|contradiction].
    pose proof (Z.div_mod (sizeBytes (self s)) (blockSize (self s)) ltac:(lia)). lia. }
  destruct (writePass_records _ _ _ Hwrite)
    as (fd0 & ts & before & after & min & avg & med & max & Hleaves).
  destruct Hleaves as (_ & _ & _ & _ & _ & _ & _ & _ & _ & Hcout & _ & Hdata & Hafter & Hbad).
  simpl in Hbad. rewrite (badBlocks_none _ _ Hbad) in Hdata.
  apply warnings_no_data_error in Hafter. unfold dataErrorLines in Hafter.
  apply writePass_loop in Hwrite.
  destruct Hwrite
    as (fd & s0 & buffer & s2 & Hloop & Hdev0 & Htr0 & Htw0 & Hw0 & Hdev2 & Htr2 & Htw2 & Hw1).
  rewrite pass_world_closed in Hw1. simpl in Hw0.
  pose proof Hdev0 as (_ & _ & HB0 & HS0 & Hn0 & _).
  apply (writeLoop_image p fd _ 0%nat) in Hloop;
    [ | rewrite HB0; lia | rewrite HS0; lia | rewrite HB0, HS0; lia
      | rewrite Hw0, HS0; exact Hlen | rewrite Hw0; exact Hscript
      | rewrite Hw0; reflexivity | rewrite Hw0; reflexivity
      | rewrite length_replicate, HB0; reflexivity
      | rewrite drop_replicate, HB0; reflexivity ].
  destruct Hloop
    as (Hscript2 & Hpos2 & Hlen2 & Hdisk2 & Hdev02 & Htw02 & Htr02).
  rewrite HB0 in *. rewrite Hw0 in Hlen2. simpl in Hlen2, Hpos2, Hdisk2.
  rewrite Hpos2, take_ge in Hdisk2 by (rewrite Hlen2, Hlen; nia).
  split; [exact Hwhole|]. split; [rewrite Hw1; exact Hscript2|].
  split; [rewrite Hw1; exact Hdisk2|].
  split; [|split; [congruence|split; [congruence|]]].
  - destruct Hdev02 as (? & ? & ? & ? & ? & ?). destruct Hdev2 as (? & ? & ? & ? & ? & ?).
    destruct Hdev0 as (? & ? & ? & ? & ? & ?). unfold sameDevice. repeat split; congruence.
  - rewrite Hcout, !dataErrorBlocks_app, Hdata. simpl.
    destruct (dataErrorBlocks after); [|discriminate Hafter].
    rewrite app_nil_r. reflexivity.
Qed.

Lemma healthy_round (p : Z) (s s1 s' : Sys) :
  0 ≤ p < 256 →
  8 ≤ blockSize (self s) < two64 → 0 < sizeBytes (self s) < two64 →
  sizeBytes (self s) mod blockSize (self s) = 0 →
  numBlocks (self s) = numBlocksOf (sizeBytes (self s)) (blockSize (self s)) →
  length (disk (world s)) = Z.to_nat (sizeBytes (self s)) →
  script (world s) = [] →
  writePass p s = Ok (tt, s1) → readPass (engaged p) s1 = Ok (tt, s') →
  healthySession s s' ∧
  disk (world s') = diskImage (blockSize (self s)) p (Z.to_nat (numBlocks (self s))).
Proof.
  intros Hp HB HS Hmod Hn Hlen Hscript Hwrite Hread.
  pose proof (completed_pass_has_block (WritePass p) s s1 Hwrite) as Hone.
  destruct (writePass_image p s s1)
    as (Hwhole & Hscript1 & Hdisk1 & Hdev1 & Htw1 & Htr1 & Hout1); try assumption.
  pose proof Hdev1 as (_ & _ & HB1 & HS1 & Hn1 & _).
  assert (Hdev2 : sameDevice (self s1) (self s')).
  { destruct (readPass_records _ _ _ Hread)
      as (fd & ts & before & after & min & avg & med & max & Hleaves).
    destruct Hleaves as (_ & _ & _ & _ & _ & Hdev & _). exact Hdev. }
  destruct (readPass_differing p s1 s')
    as (Hout2 & _ & Htr2 & Htw2 & Hdisk2 & Hscript2);
    rewrite ?HB1, ?HS1, ?Hn1, ?Hdisk1; try first [assumption | lia].
  - rewrite length_diskImage by lia. nia.
  - apply diskImage_bytes_range. exact Hp.
  - rewrite HB1, Hn1, Hdisk1, differingBlocks_image in Hout2, Htr2 by lia.
    rewrite app_nil_r in Hout2.
    split; [|rewrite Hdisk2; exact Hdisk1].
    unfold healthySession.
    split; [|split; [exact Hscript2|split; [|split; [|split; [|congruence]]]]].
    + destruct Hdev2 as (? & ? & ? & ? & ? & ?). destruct Hdev1 as (? & ? & ? & ? & ? & ?).
      unfold sameDevice. repeat split; congruence.
    + rewrite Hdisk2, Hdisk1, length_diskImage, Hlen by lia. nia.
    + rewrite (Htr2 eq_refl), Htr1. reflexivity.
    + rewrite Htw2. exact Htw1.
Qed.

Lemma healthySession_refl (s : Sys) : script (world s) = [] → healthySession s s.
Proof.
  intros Hscript. unfold healthySession, sameDevice. repeat split; first [reflexivity | assumption].
Qed.

Lemma healthySession_trans (s0 s1 s2 : Sys) :
  healthySession s0 s1 → healthySession s1 s2 → healthySession s0 s2.
Proof.
  unfold healthySession, sameDevice.
  intros ((? & ? & ? & ? & ? & ?) & ? & ? & ? & ? & ?)
         ((? & ? & ? & ? & ? & ?) & ? & ? & ? & ? & ?).
  repeat split; congruence.
Qed.

(** The rounds of [checkWriteRead] from round [from] on. *)
Lemma healthy_rounds (m : nat) :
  ∀ (from : nat) (s s' : Sys),
    Forall (fun b => 0 ≤ b < 256) (patterns (self s)) →
    8 ≤ blockSize (self s) < two64 → 0 < sizeBytes (self s) < two64 →
    sizeBytes (self s) mod blockSize (self s) = 0 →
    numBlocks (self s) = numBlocksOf (sizeBytes (self s)) (blockSize (self s)) →
    length (disk (world s)) = Z.to_nat (sizeBytes (self s)) →
    script (world s) = [] →
    forRange m (Z.of_nat from)
      (fun i _ =>
         let* c := getSelf in
         let* p := inRange "patterns" (vec_get (patterns c) i) in
         writePass p ;;
         let* c := getSelf in
         let* p := inRange "patterns" (vec_get (patterns c) i) in
         readPass (engaged p)) tt s = Ok (tt, s') →
    healthySession s s' ∧
    disk (world s') =
      match last (take m (drop from (patterns (self s)))) with
      | Some p => diskImage (blockSize (self s)) p (Z.to_nat (numBlocks (self s)))
      | None => disk (world s)
      end.
Proof.
  induction m as [|m IH]; intros from s s' Hps HB HS Hmod Hn Hlen Hscript Hrun;
    cbn [forRange] in Hrun.
  - unfold ret in Hrun. apply Ok_inv in Hrun. injection Hrun as <-.
    rewrite take_0. split; [apply healthySession_refl; exact Hscript | reflexivity].
  - apply bind_Ok_inv in Hrun. destruct Hrun as ([] & s2 & Hbody & Hrun).
    apply round_inv in Hbody.
    destruct Hbody as (pw & pr & s1 & Hpw & Hwrite & Hpr & Hread).
    assert (Hdev1 : sameDevice (self s) (self s1)).
    { destruct (writePass_records _ _ _ Hwrite)
        as (fd & ts & before & after & min & avg & med & max & Hleaves).
      destruct Hleaves as (_ & _ & _ & _ & _ & Hdev & _). exact Hdev. }
    pose proof Hdev1 as (_ & _ & _ & _ & _ & Hp1).
    rewrite Hp1, Hpw in Hpr. injection Hpr as <-.
    rewrite vec_get_lookup, Nat2Z.id in Hpw by lia.
    assert (Hbyte : 0 ≤ pw < 256)
      by exact (Forall_lookup_1 _ _ _ _ Hps Hpw).
    destruct (healthy_round pw s s1 s2) as [Hkeep Hdisk]; try assumption.
    pose proof Hkeep as ((_ & _ & HB2 & HS2 & Hn2 & Hp2) & Hscript2 & Hlen2 & _).
    replace (Z.of_nat from + 1) with (Z.of_nat (S from)) in Hrun by lia.
    destruct (IH (S from) s2 s') as [Hkeep' Hdisk'];
      rewrite ?Hp2, ?HB2, ?HS2, ?Hn2; try first [assumption | lia | congruence].
    rewrite Hp2, HB2, Hn2 in Hdisk'.
    split; [exact (healthySession_trans _ _ _ Hkeep Hkeep')|].
    rewrite (drop_S _ _ _ Hpw), firstn_cons, last_cons, Hdisk'.
    destruct (last _); [reflexivity | exact Hdisk].
Qed.

(** X14: a completed write/read run over a device without faults whose
    size is a whole number of blocks of at least 8 bytes reports no
    error, whatever the pattern bytes: both error totals are 0, no data
    error line is printed, the last line is the no-errors verdict, and
    the device is left holding the image of the last pattern (its content
    is untouched when the pattern list is empty). *)
Theorem healthy_run_reports_no_errors (name out : string) (B : Z) (ps : list Z)
    (w : SimWorld) (s' : Sys) :
  Forall (fun b => 0 ≤ b < 256) ps →
  8 ≤ B < two64 →
  Z.of_nat (length (disk w)) < two64 →
  Z.of_nat (length (disk w)) mod B = 0 →
  script w = [] →
  run true name B ps out w = Ok (tt, s') →
  last (cout s') = Some OutNoErrors ∧ dataErrorBlocks (cout s') = [] ∧
  errors (totalRead (self s')) = 0 ∧ errors (totalWrite (self s')) = 0 ∧
  disk (world s') =
    match last ps with
    | Some p => diskImage B p (Z.to_nat (numBlocksOf (Z.of_nat (length (disk w))) B))
    | None => disk w
    end.
Proof.
  intros Hps HB HS Hmod Hscript Hrun.
  unfold run, BlockChecker_new in Hrun. simpl in Hrun.
  destruct (decide (B = 0)) as [|_]; [lia|].
  destruct (decide (Z.of_nat (length (disk w)) = 0)) as [|Hsize]; [discriminate Hrun|].
  apply bind_Ok_inv in Hrun. destruct Hrun as ([] & s1 & Hcheck & Hresult).
  apply checkWriteRead_loop in Hcheck. cbv zeta in Hcheck. simpl in Hcheck.
  change 0 with (Z.of_nat 0) in Hcheck at 1.
  apply healthy_rounds in Hcheck; simpl;
    [ | exact Hps | exact HB | lia | exact Hmod | reflexivity | lia | exact Hscript ].
  simpl in Hcheck. rewrite drop_0, take_ge in Hcheck by lia.
  destruct Hcheck as ((_ & _ & _ & Htr & Htw & Hout) & Hdisk). simpl in Htr, Htw, Hout.
  apply printResult_inv in Hresult. subst s'. simpl.
  rewrite Htr, Htw, Hdisk, dataErrorBlocks_app, Hout, last_app.
  unfold verdict. simpl.
  repeat split; reflexivity.
Qed.

(** *** The properties at work on the simulated device *)

Lemma failing_read_pass_completes :
  completed (runPass (ReadPass (nullopt 0)) (sysFor 20 8 [0] [(Fail, 0%Q)])) = true.
Proof. vm_compute. reflexivity. Qed.

Lemma pass_error_account_witness :
  ∃ s' fd calls before after min avg med max,
    runPass (ReadPass (nullopt 0)) (sysFor 20 8 [0] [(Fail, 0%Q)]) = Ok (tt, s') ∧
    strace s' = SysOpen true fd :: map (passCall (ReadPass (nullopt 0))) calls
                  ++ [SysClose fd] ∧
    cout s' = cout (sysFor 20 8 [0] [(Fail, 0%Q)]) ++ before ++
      OutPassStats 1 0 "read" (failedCount calls + Z.of_nat (length (dataErrorBlocks before)))
        min avg med max :: after ∧
    dataErrorBlocks before = [] ∧
    sumErrors (blockStats (self s')) = failedCount calls.
Proof.
  pose proof failing_read_pass_completes as Hdone.
  destruct (runPass (ReadPass (nullopt 0)) (sysFor 20 8 [0] [(Fail, 0%Q)]))
    as [[[] s']|e|u] eqn:Hrun; [|discriminate Hdone|discriminate Hdone].
  destruct (pass_error_account (ReadPass (nullopt 0)) _ s' Hrun)
    as (fd & calls & before & after & min & avg & med & max & Hst & Hcout & _ & _ & Hquiet
        & Hsum & _); [vm_compute; reflexivity|].
  cbv zeta in *. specialize (Hquiet eq_refl).
  exists s', fd, calls, before, after, min, avg, med, max.
  split; [reflexivity|]. split; [exact Hst|]. split; [exact Hcout|].
  split; [exact Hquiet|]. rewrite Hsum, Hquiet. simpl. lia.
Defined.

Lemma named_write_pass_completes :
  completed (runPass (WritePass 85) (sysNamed "t" 20 8 [85] [(NoFault, 1%Q); (Fail, 0%Q)]))
  = true.
Proof. vm_compute. reflexivity. Qed.

Lemma pass_timing_file_witness :
  ∃ s',
    runPass (WritePass 85) (sysNamed "t" 20 8 [85] [(NoFault, 1%Q); (Fail, 0%Q)])
      = Ok (tt, s') ∧
    outfiles s' =
      [{| of_prefix := "t"; of_readWrite := "write"; of_passIndex := 0; of_sizeBytes := 20;
          of_lines := [(0, 1%Q, 0); (1, 0%Q, 1); (2, 0%Q, 0)] |}].
Proof.
  pose proof named_write_pass_completes as Hdone.
  destruct (runPass (WritePass 85) (sysNamed "t" 20 8 [85] [(NoFault, 1%Q); (Fail, 0%Q)]))
    as [[[] s']|e|u] eqn:Hrun; [|discriminate Hdone|discriminate Hdone].
  destruct (pass_timing_file (WritePass 85) _ s' Hrun)
    as (fd & ts & w & Hts & _ & _ & Hfiles & _).
  exists s'. split; [reflexivity|].
  vm_compute in Hts. injection Hts as _ <- _.
  rewrite Hfiles. vm_compute. reflexivity.
Defined.

Lemma verify_run_completes :
  completed (verifyBlock 4 0 [1; 2; 3; 4] [1; 2; 9; 8] 0 (sysFor 8 8 [85] [])) = true.
Proof. vm_compute. reflexivity. Qed.

Lemma verify_reports_first_mismatch_witness :
  ∃ s', verifyBlock 4 0 [1; 2; 3; 4] [1; 2; 9; 8] 0 (sysFor 8 8 [85] []) = Ok (tt, s') ∧
        cout s' = cout (sysFor 8 8 [85] []) ++ [OutDataError 9 3 0] ∧
        errors (totalRead (self s')) = 1.
Proof.
  pose proof verify_run_completes as Hdone.
  destruct (verifyBlock 4 0 [1; 2; 3; 4] [1; 2; 9; 8] 0 (sysFor 8 8 [85] []))
    as [[[] s']|e|u] eqn:Hrun; [|discriminate Hdone|discriminate Hdone].
  pose proof (verify_reports_first_mismatch 4 [1; 2; 3; 4] [1; 2; 9; 8] 0 _ s' Hrun) as Hv.
  simpl in Hv. destruct Hv as (_ & b & _ & ->).
  eexists. split; [reflexivity|]. split; reflexivity.
Defined.

Lemma failing_run_completes :
  completed (run false "dev" 8 [0] EmptyString
               (scripted 20 0%Q [(NoFault, 0%Q); (Fail, 0%Q)])) = true.
Proof. vm_compute. reflexivity. Qed.

Lemma verdict_counts_failures_witness :
  ∃ s' out rates,
    run false "dev" 8 [0] EmptyString (scripted 20 0%Q [(NoFault, 0%Q); (Fail, 0%Q)])
      = Ok (tt, s') ∧
    errors (totalRead (self s')) = wrap64 (failedReads (strace s')) ∧
    cout s' = out ++ [rates; verdict (wrap64 (failedReads (strace s'))) 0].
Proof.
  pose proof failing_run_completes as Hdone.
  destruct (@run QDouble SimDevice false "dev" 8 [0] EmptyString
              (scripted 20 0%Q [(NoFault, 0%Q); (Fail, 0%Q)]))
    as [[[] s']|e|u] eqn:Hrun; [|discriminate Hdone|discriminate Hdone].
  destruct (verdict_counts_failures false _ _ _ _ _ s' Hrun)
    as (Hr & _ & Hquiet & out & rates & Hcout).
  destruct (Hquiet eq_refl) as [Hw Hd]. rewrite Hd, Z.add_0_r in Hr, Hcout.
  rewrite Hw in Hcout.
  exists s', out, rates. split; [reflexivity|]. split; [exact Hr | exact Hcout].
Defined.

Lemma two_pattern_session_completes :
  completed (checkWriteRead (sysFor 16 8 [85; 170] [])) = true.
Proof. vm_compute. reflexivity. Qed.

Lemma checkWriteRead_rounds_witness :
  ∃ s' rounds,
    checkWriteRead (sysFor 16 8 [85; 170] []) = Ok (tt, s') ∧
    map r_pattern rounds = [85; 170] ∧
    roundsRun rounds (sessionStart (sysFor 16 8 [85; 170] [])) s' ∧
    strace s' = flat_map roundTrace rounds ∧
    summaryLines (cout s')
      = [(1, 4, "write"); (2, 4, "read"); (3, 4, "write"); (4, 4, "read")]%string ∧
    passIndex (self s') = 4.
Proof.
  pose proof two_pattern_session_completes as Hdone.
  destruct (checkWriteRead (sysFor 16 8 [85; 170] []))
    as [[[] s']|e|u] eqn:Hrun; [|discriminate Hdone|discriminate Hdone].
  destruct (checkWriteRead_rounds _ s' Hrun)
    as (rounds & Hpats & Hruns & Hst & _ & Hsum & _ & Hpi);
    [unfold is_u64, two64; simpl; lia|].
  exists s', rounds. split; [reflexivity|]. split; [exact Hpats|]. split; [exact Hruns|].
  split; [exact Hst|].
  split; [exact Hsum | exact Hpi].
Defined.





Lemma pass_outfile_failure_throws_witness :
  runPass (WritePass 85)
    (@constructed QDouble (Restricted true false) "dev" 8 [85] "t" (healthy 20 0%Q))
  = Throw (ErrorOpeningOutfile "t" "write" 0 20).
Proof.
  eapply (pass_outfile_failure_throws (IO := Restricted true false) (WritePass 85)).
  - simpl. lia.
  - left. simpl. lia.
  - discriminate.
  - vm_compute. reflexivity.
  - lia.
  - reflexivity.
Defined.

Lemma empty_pattern_list_checks_nothing_witness :
  ∃ s' header rates,
    @run QDouble SimDevice true "dev" 8 [] EmptyString (healthy 20 0%Q) = Ok (tt, s') ∧
    strace s' = [] ∧ cout s' = [header; rates; OutNoErrors].
Proof.
  destruct (empty_pattern_list_checks_nothing (IO := SimDevice) "dev" 8 EmptyString
              (healthy 20 0%Q)) as (s' & header & rates & Hrun & Hst & _ & _ & Hcout).
  - lia.
  - simpl. lia.
  - exists s', header, rates. split; [exact Hrun|]. split; [exact Hst | exact Hcout].
Defined.

Lemma stale_block_pass_completes :
  completed (readPass (engaged 85)
               (@constructed QDouble SimDevice "dev" 8 [85] EmptyString (holding staleMiddle)))
  = true.
Proof. vm_compute. reflexivity. Qed.

Lemma read_pass_finds_differing_blocks_witness :
  ∃ s', readPass (engaged 85)
          (@constructed QDouble SimDevice "dev" 8 [85] EmptyString (holding staleMiddle))
        = Ok (tt, s') ∧
        dataErrorBlocks (cout s') = [1] ∧ wrap64 (errors (totalRead (self s'))) = 1.
Proof.
  pose proof stale_block_pass_completes as Hdone.
  destruct (readPass (engaged 85)
              (@constructed QDouble SimDevice "dev" 8 [85] EmptyString (holding staleMiddle)))
    as [[[] s']|e|u] eqn:Hrun; [|discriminate Hdone|discriminate Hdone].
  exists s'. split; [reflexivity|].
  destruct (read_pass_finds_differing_blocks 85
              (@constructed QDouble SimDevice "dev" 8 [85] EmptyString (holding staleMiddle)) s')
    as (Hout & Herr & _ & _); try exact Hrun.
  - lia.
  - simpl. unfold two64. lia.
  - simpl. unfold two64. lia.
  - reflexivity.
  - reflexivity.
  - reflexivity.
  - vm_compute. repeat constructor; discriminate.
  - reflexivity.
  - split; [exact Hout | exact Herr].
Defined.

Lemma healthy_run_completes :
  completed (run true "dev" 8 [85; 170] EmptyString (holding staleMiddle)) = true.
Proof. vm_compute. reflexivity. Qed.

Lemma healthy_run_reports_no_errors_witness :
  ∃ s', run true "dev" 8 [85; 170] EmptyString (holding staleMiddle) = Ok (tt, s') ∧
        last (cout s') = Some OutNoErrors ∧ dataErrorBlocks (cout s') = [] ∧
        disk (world s') = diskImage 8 170 3.
Proof.
  pose proof healthy_run_completes as Hdone.
  destruct (@run QDouble SimDevice true "dev" 8 [85; 170] EmptyString (holding staleMiddle))
    as [[[] s']|e|u] eqn:Hrun; [|discriminate Hdone|discriminate Hdone].
  exists s'. split; [reflexivity|].
  destruct (healthy_run_reports_no_errors "dev" EmptyString 8 [85; 170] (holding staleMiddle) s')
    as (Hlast & Hnone & _ & _ & Hdisk); try exact Hrun.
  - repeat constructor; lia.
  - unfold two64. lia.
  - simpl. unfold two64. lia.
  - reflexivity.
  - reflexivity.
  - split; [exact Hlast|]. split; [exact Hnone | exact Hdisk].
Defined.
